(** * pathlib.h: the wildcard matcher, the directory walker and the Path model

    A shallow embedding of [src/pathlib.h].  C strings are lists of
    characters without their terminating NUL; reading the position just
    after the last character yields NUL, as it does in memory.  Values of
    type [int] are in [Z], values of type [size_t] are in [N] (64 bits,
    wrap-around written out where the code can reach it), [unsigned short]
    fields wrap at 2^16.  What the C implementation leaves to the platform
    (signedness of plain [char], the locale functions of libc, PATH_MAX) is
    gathered in the record [platform]. *)

From Stdlib Require Import ZArith NArith Ascii String List Bool Lia.
Import ListNotations.

Local Open Scope Z_scope.

(** ** Characters and C strings *)

Definition cstr (s : string) : list ascii := list_ascii_of_string s.

Definition NUL : ascii := Ascii.zero.

(** [s[i]]: the character at offset [i]; the terminator at and after the end. *)
Definition char_at (s : list ascii) (i : N) : ascii := nth (N.to_nat i) s NUL.

(** [(unsigned char)c] *)
Definition uchar (c : ascii) : Z := Z.of_N (N_of_ascii c).

Definition is_nul (c : ascii) : bool := Ascii.eqb c NUL.

(** [ptr + i] *)
Definition advance (s : list ascii) (i : N) : list ascii := skipn (N.to_nat i) s.

Fixpoint strlen (s : list ascii) : N :=
  match s with
  | [] => 0%N
  | c :: s' => if is_nul c then 0%N else N.succ (strlen s')
  end.

Definition SIZE_MAX : N := 18446744073709551615%N.

(** subtraction in [size_t] *)
Definition size_sub (a b : N) : N := ((a + (SIZE_MAX + 1) - b mod (SIZE_MAX + 1)) mod (SIZE_MAX + 1))%N.

(** conversion to [unsigned] (32 bits) *)
Definition to_unsigned (z : Z) : Z := z mod 4294967296.

(** A well-formed C string: no NUL inside, and shorter than the address space. *)
Definition cstringb (s : list ascii) : bool :=
  forallb (fun c => negb (is_nul c)) s && (N.of_nat (length s) <? SIZE_MAX)%N.

Definition cstring (s : list ascii) : Prop := cstringb s = true.

(** ** The platform *)

Record platform : Type := {
  (** plain [char] is a signed type (x86, x86-64) or an unsigned one (ARM Linux) *)
  char_signed : bool;
  (** the macro MB_CUR_MAX in the current locale *)
  MB_CUR_MAX : Z;
  (** [mbtowc (&wc, p, 4)]: the return value and the character stored *)
  mbtowc : list ascii -> Z * Z;
  (** [iswctype (wc, desc)] *)
  iswctype : Z -> Z -> bool;
  (** PATH_MAX or MAX_PATH *)
  PATHLIB_MAX_PATH : N
}.

Section Fnmatch.

Variable pf : platform.

(** the value of a [char] read into an [int] *)
Definition char_to_int (c : ascii) : Z :=
  if char_signed pf && (128 <=? uchar c) then uchar c - 256 else uchar c.

Definition END : Z := 0.
Definition UNMATCHABLE : Z := -2.
Definition BRACKET : Z := -3.
Definition QUESTION : Z := -4.
Definition STAR : Z := -5.
Definition FNM_NOMATCH : Z := 1.

(** the table [names] of [pathlib__wctype], in its order *)
Definition wctype_names : list (list ascii) :=
  map cstr ["alnum"; "alpha"; "blank"; "cntrl"; "digit"; "graph";
            "lower"; "print"; "punct"; "space"; "upper"; "xdigit"]%string.

Fixpoint wctype_lookup (names : list (list ascii)) (i : Z) (s : list ascii) : Z :=
  match names with
  | [] => 0
  | p :: names' =>
      if list_eq_dec ascii_dec s p then i else wctype_lookup names' (i + 1) s
  end.

Definition pathlib__wctype (s : list ascii) : Z := wctype_lookup wctype_names 1 s.

Definition pathlib__str_next (str : list ascii) (n : N) : Z * N :=
  if (n =? 0)%N then (0, 0%N) else (char_to_int (char_at str 0), 1%N).

(** [while (k<m && pat[k] && (pat[k-1]!=z || pat[k]!=']')) k++;] *)
Fixpoint class_skip (fuel : nat) (pat : list ascii) (m : N) (z : ascii) (k : N) : N :=
  match fuel with
  | O => k
  | S fuel' =>
      if (k <? m)%N && negb (is_nul (char_at pat k))
         && (negb (Ascii.eqb (char_at pat (k - 1)) z) || negb (Ascii.eqb (char_at pat k) "]"))
      then class_skip fuel' pat m z (k + 1)
      else k
  end.

Definition is_class_intro (c : ascii) : bool :=
  Ascii.eqb c ":" || Ascii.eqb c "." || Ascii.eqb c "=".

(** [for (; k<m && pat[k] && pat[k]!=']'; k++) { ... }] of [pathlib__pat_next] *)
Fixpoint bracket_scan (fuel : nat) (pat : list ascii) (m : N) (k : N) : N :=
  match fuel with
  | O => k
  | S fuel' =>
      if (k <? m)%N && negb (is_nul (char_at pat k)) && negb (Ascii.eqb (char_at pat k) "]")
      then
        if (k + 1 <? m)%N && negb (is_nul (char_at pat (k + 1)))
           && Ascii.eqb (char_at pat k) "[" && is_class_intro (char_at pat (k + 1))
        then
          let z := char_at pat (k + 1) in
          let k1 := (k + 2)%N in
          let k2 := if (k1 <? m)%N && negb (is_nul (char_at pat k1)) then (k1 + 1)%N else k1 in
          let k3 := class_skip fuel' pat m z k2 in
          if (k3 =? m)%N || is_nul (char_at pat k3) then k3
          else bracket_scan fuel' pat m (k3 + 1)
        else bracket_scan fuel' pat m (k + 1)
      else k
  end.

Definition pathlib__pat_next (pat : list ascii) (m : N) : Z * N :=
  if (m =? 0)%N || is_nul (char_at pat 0) then (END, 0%N)
  else if Ascii.eqb (char_at pat 0) "\" && negb (is_nul (char_at pat 1))
  then (char_to_int (char_at pat 1), 2%N)
  else if Ascii.eqb (char_at pat 0) "["
  then
    let k := 1%N in
    let k := if (k <? m)%N && (Ascii.eqb (char_at pat k) "^" || Ascii.eqb (char_at pat k) "!")
             then (k + 1)%N else k in
    let k := if (k <? m)%N && Ascii.eqb (char_at pat k) "]" then (k + 1)%N else k in
    let k := bracket_scan (length pat) pat m k in
    if (k =? m)%N || is_nul (char_at pat k) then (uchar "[", 1%N)
    else (BRACKET, (k + 1)%N)
  else if Ascii.eqb (char_at pat 0) "*" then (STAR, 1%N)
  else if Ascii.eqb (char_at pat 0) "?" then (QUESTION, 1%N)
  else (char_to_int (char_at pat 0), 1%N).

(** [!inv] *)
Definition lnot (inv : Z) : Z := if inv =? 0 then 1 else 0.

(** [while (p[-1]!=z || p[0]!=']') p++;], unbounded in the source: [None]
    when it leaves the string. *)
Fixpoint class_end (fuel : nat) (p : list ascii) (z : ascii) (i : N) : option N :=
  match fuel with
  | O => None
  | S fuel' =>
      if (N.of_nat (length p) <? i)%N then None
      else if negb (Ascii.eqb (char_at p (i - 1)) z) || negb (Ascii.eqb (char_at p i) "]")
      then class_end fuel' p z (i + 1)
      else Some i
  end.

(** [for (; *p != ']'; p++) { ... } return inv;] of [pathlib__match_bracket];
    [i] is the offset of [p] from the opening bracket.  [None]: the loop
    reads outside the string or does not end. *)
Fixpoint match_bracket_loop (fuel : nat) (p : list ascii) (i : N) (wc : Z)
         (k kfold inv : Z) : option Z :=
  match fuel with
  | O => None
  | S fuel' =>
      if (N.of_nat (length p) <? i)%N then None
      else if Ascii.eqb (char_at p i) "]" then Some inv
      else if Ascii.eqb (char_at p i) "-" && negb (Ascii.eqb (char_at p (i + 1)) "]")
      then
        let '(l, wc2) := mbtowc pf (advance p (i + 1)) in
        if l <? 0 then Some 0
        else if (wc <=? wc2)
                && ((to_unsigned (k - wc) <=? to_unsigned (wc2 - wc))
                    || (to_unsigned (kfold - wc) <=? to_unsigned (wc2 - wc)))
        then Some (lnot inv)
        else match_bracket_loop fuel' p (i + Z.to_N l) wc k kfold inv
      else if Ascii.eqb (char_at p i) "[" && is_class_intro (char_at p (i + 1))
      then
        let p0 := (i + 2)%N in
        let z := char_at p (i + 1) in
        match class_end fuel' p z (i + 3) with
        | None => None
        | Some j =>
            if Ascii.eqb z ":" && (j - 1 - p0 <? 16)%N
               && (let buf := firstn (N.to_nat (j - 1 - p0)) (advance p p0) in
                   iswctype pf k (pathlib__wctype buf)
                   || iswctype pf kfold (pathlib__wctype buf))
            then Some (lnot inv)
            else match_bracket_loop fuel' p (j + 1) wc k kfold inv
        end
      else if uchar (char_at p i) <? 128
      then
        let wc := uchar (char_at p i) in
        if (wc =? k) || (wc =? kfold) then Some (lnot inv)
        else match_bracket_loop fuel' p (i + 1) wc k kfold inv
      else
        let '(l, wc) := mbtowc pf (advance p i) in
        if l <? 0 then Some 0
        else if (wc =? k) || (wc =? kfold) then Some (lnot inv)
        else match_bracket_loop fuel' p (i + Z.to_N l) wc k kfold inv
  end.

Definition pathlib__match_bracket (p : list ascii) (k kfold : Z) : option Z :=
  let i := 1%N in
  let '(inv, i) :=
    if Ascii.eqb (char_at p i) "^" || Ascii.eqb (char_at p i) "!"
    then (1, (i + 1)%N) else (0, i) in
  let loop i := match_bracket_loop (S (S (length p))) p i (char_to_int (char_at p (i - 1))) k kfold inv in
  if Ascii.eqb (char_at p i) "]" then
    if k =? uchar "]" then Some (lnot inv) else loop (i + 1)%N
  else if Ascii.eqb (char_at p i) "-" then
    if k =? uchar "-" then Some (lnot inv) else loop (i + 1)%N
  else loop i.

(** *** [pathlib__fnmatch_internal]

    Pointers into [pat] and [str] after the first loop are offsets from
    the values the two parameters have there. *)

(** the outcome of the loop that finds the last star *)
Inductive tail_scan : Type :=
| TailUnmatchable
| TailAt (ptail tailcnt : N).

(** [for (p=ptail=pat; p<endpat; p+=pinc) switch (pat_next(p, endpat-p, &pinc)) ...] *)
Fixpoint find_tail (fuel : nat) (pat : list ascii) (endpat p ptail tailcnt : N)
  : option tail_scan :=
  match fuel with
  | O => None
  | S fuel' =>
      if (p <? endpat)%N then
        let '(c, pinc) := pathlib__pat_next (advance pat p) (size_sub endpat p) in
        if c =? UNMATCHABLE then Some TailUnmatchable
        else if c =? STAR then find_tail fuel' pat endpat (p + pinc) (p + 1) 0
        else find_tail fuel' pat endpat (p + pinc) ptail (tailcnt + 1)
      else Some (TailAt ptail tailcnt)
  end.

(** [while ((unsigned char)*--s-0x80U<0x40 && s>str);] *)
Fixpoint utf8_back (fuel : nat) (str : list ascii) (s : N) : N :=
  match fuel with
  | O => s
  | S fuel' =>
      let s := (s - 1)%N in
      if (to_unsigned (uchar (char_at str s) - 128) <? 64) && (0 <? s)%N
      then utf8_back fuel' str s
      else s
  end.

(** [for (s=endstr; s>str && tailcnt; tailcnt--) ...]: the final [s] and [tailcnt] *)
Fixpoint tail_back (fuel : nat) (str : list ascii) (s tailcnt : N) : N * N :=
  match fuel with
  | O => (s, tailcnt)
  | S fuel' =>
      if (0 <? s)%N && negb (tailcnt =? 0)%N then
        let s :=
          if (uchar (char_at str (s - 1)) <? 128) || (MB_CUR_MAX pf =? 1)
          then (s - 1)%N
          else utf8_back (N.to_nat s) str s in
        tail_back fuel' str s (tailcnt - 1)
      else (s, tailcnt)
  end.

(** the loop that checks that the tails of [pat] and [str] match:
    [Some true] when it is left by [break], [Some false] when it returns
    FNM_NOMATCH *)
Fixpoint tail_check (fuel : nat) (pat : list ascii) (endpat p : N)
         (str : list ascii) (endstr s : N) : option bool :=
  match fuel with
  | O => None
  | S fuel' =>
      let '(c, pinc) := pathlib__pat_next (advance pat p) (size_sub endpat p) in
      let p := (p + pinc)%N in
      let '(k, sinc) := pathlib__str_next (advance str s) (size_sub endstr s) in
      if k <=? 0 then Some (c =? END)
      else
        let s := (s + sinc)%N in
        if c =? BRACKET then
          match pathlib__match_bracket (advance pat (p - pinc)) k k with
          | None => None
          | Some r => if r =? 0 then Some false
                      else tail_check fuel' pat endpat p str endstr s
          end
        else if negb (c =? QUESTION) && negb (k =? c) then Some false
        else tail_check fuel' pat endpat p str endstr s
  end.

(** how the inner loop over one pattern component ends *)
Inductive component_end : Type :=
| CompNoMatch              (* return FNM_NOMATCH *)
| CompCommit (p s : N)     (* a star was met: pat = p; str = s *)
| CompFail.                (* left by break *)

Fixpoint component (fuel : nat) (pat : list ascii) (endpat p : N)
         (str : list ascii) (endstr s : N) : option component_end :=
  match fuel with
  | O => None
  | S fuel' =>
      let '(c, pinc) := pathlib__pat_next (advance pat p) (size_sub endpat p) in
      let p := (p + pinc)%N in
      if c =? STAR then Some (CompCommit p s)
      else
        let '(k, sinc) := pathlib__str_next (advance str s) (size_sub endstr s) in
        if k =? 0 then Some CompNoMatch
        else if c =? BRACKET then
          match pathlib__match_bracket (advance pat (p - pinc)) k k with
          | None => None
          | Some r => if r =? 0 then Some CompFail
                      else component fuel' pat endpat p str endstr (s + sinc)
          end
        else if negb (c =? QUESTION) && negb (k =? c) then Some CompFail
        else component fuel' pat endpat p str endstr (s + sinc)
  end.

(** [for (str++; pathlib__str_next(str, endstr-str, &sinc)<0; str++);] *)
Fixpoint skip_invalid (fuel : nat) (str : list ascii) (endstr s : N) : option N :=
  match fuel with
  | O => None
  | S fuel' =>
      if fst (pathlib__str_next (advance str s) (size_sub endstr s)) <? 0
      then skip_invalid fuel' str endstr (s + 1)
      else Some s
  end.

(** [while (pat<endpat) { ... } return 0;] *)
Fixpoint components (fuel : nat) (pat : list ascii) (endpat p : N)
         (str : list ascii) (endstr s : N) : option Z :=
  match fuel with
  | O => None
  | S fuel' =>
      if (p <? endpat)%N then
        match component (S (length pat)) pat endpat p str endstr s with
        | None => None
        | Some CompNoMatch => Some FNM_NOMATCH
        | Some (CompCommit p' s') => components fuel' pat endpat p' str endstr s'
        | Some CompFail =>
            let '(k, sinc) := pathlib__str_next (advance str s) (size_sub endstr s) in
            if 0 <? k then components fuel' pat endpat p str endstr (s + sinc)
            else match skip_invalid (S (length str)) str endstr (s + 1) with
                 | None => None
                 | Some s' => components fuel' pat endpat p str endstr s'
                 end
        end
      else Some 0
  end.

(** the part of [pathlib__fnmatch_internal] after its first loop; [m] and
    [n] are assigned afresh there *)
Definition fnmatch_after_star (pat str : list ascii) : option Z :=
  let m := strlen pat in
  let endpat := m in
  match find_tail (S (length pat)) pat endpat 0 0 0 with
  | None => None
  | Some TailUnmatchable => Some FNM_NOMATCH
  | Some (TailAt ptail tailcnt) =>
      let n := strlen str in
      let endstr := n in
      if (n <? tailcnt)%N then Some FNM_NOMATCH
      else
        let '(s, tailcnt) := tail_back (S (N.to_nat tailcnt)) str endstr tailcnt in
        if negb (tailcnt =? 0)%N then Some FNM_NOMATCH
        else
          let stail := s in
          match tail_check (S (S (length str))) pat endpat ptail str endstr s with
          | None => None
          | Some false => Some FNM_NOMATCH
          | Some true =>
              components (S (length pat + length str)) pat ptail 0 str stail 0
          end
  end.

(** the first loop of [pathlib__fnmatch_internal] *)
Fixpoint fnmatch_loop (fuel : nat) (pat : list ascii) (m : N)
         (str : list ascii) (n : N) : option Z :=
  match fuel with
  | O => None
  | S fuel' =>
      let '(c, pinc) := pathlib__pat_next pat m in
      if c =? UNMATCHABLE then Some FNM_NOMATCH
      else if c =? STAR then fnmatch_after_star (advance pat 1) str
      else
        let '(k, sinc) := pathlib__str_next str n in
        if k <=? 0 then Some (if c =? END then 0 else FNM_NOMATCH)
        else
          let str' := advance str sinc in
          let n' := size_sub n sinc in
          if c =? BRACKET then
            match pathlib__match_bracket pat k k with
            | None => None
            | Some r => if r =? 0 then Some FNM_NOMATCH
                        else fnmatch_loop fuel' (advance pat pinc) (size_sub m pinc) str' n'
            end
          else if negb (c =? QUESTION) && negb (k =? c) then Some FNM_NOMATCH
          else fnmatch_loop fuel' (advance pat pinc) (size_sub m pinc) str' n'
  end.

Definition pathlib__fnmatch_internal (pat : list ascii) (m : N)
           (str : list ascii) (n : N) : option Z :=
  fnmatch_loop (S (length str)) pat m str n.

(** [pathlib__fnmatch_internal(pat, -1, str, -1)] *)
Definition pathlib__fnmatch (pat str : list ascii) : option Z :=
  pathlib__fnmatch_internal pat SIZE_MAX str SIZE_MAX.

End Fnmatch.

(** ** Concrete platforms, used to run the model *)

(** libc in the C locale, on ASCII *)
Definition mbtowc_C (p : list ascii) : Z * Z :=
  match p with
  | [] => (0, 0)
  | c :: _ => if is_nul c then (0, 0)
              else if uchar c <? 128 then (1, uchar c) else (-1, 0)
  end.

Definition in_range (lo hi : ascii) (k : Z) : bool := (uchar lo <=? k) && (k <=? uchar hi).

(** musl numbers the classes as [pathlib__wctype] does, from 1 *)
Definition iswctype_C (k desc : Z) : bool :=
  let lower := in_range "a" "z" k in
  let upper := in_range "A" "Z" k in
  let digit := in_range "0" "9" k in
  let graph := (33 <=? k) && (k <=? 126) in
  match desc with
  | 1 => lower || upper || digit
  | 2 => lower || upper
  | 3 => (k =? 32) || (k =? 9)
  | 4 => ((0 <=? k) && (k <? 32)) || (k =? 127)
  | 5 => digit
  | 6 => graph
  | 7 => lower
  | 8 => (32 <=? k) && (k <=? 126)
  | 9 => graph && negb (lower || upper || digit)
  | 10 => (k =? 32) || ((9 <=? k) && (k <=? 13))
  | 11 => upper
  | 12 => digit || in_range "a" "f" k || in_range "A" "F" k
  | _ => false
  end.

(** x86-64 Linux: signed [char], PATH_MAX 4096; in the C locale, and with
    the MB_CUR_MAX of a UTF-8 locale *)
Definition linux_x86_64 : platform :=
  {| char_signed := true; MB_CUR_MAX := 1; mbtowc := mbtowc_C;
     iswctype := iswctype_C; PATHLIB_MAX_PATH := 4096 |}.

Definition linux_x86_64_utf8 : platform :=
  {| char_signed := true; MB_CUR_MAX := 4; mbtowc := mbtowc_C;
     iswctype := iswctype_C; PATHLIB_MAX_PATH := 4096 |}.

(** ARM Linux: unsigned [char] *)
Definition linux_arm : platform :=
  {| char_signed := false; MB_CUR_MAX := 1; mbtowc := mbtowc_C;
     iswctype := iswctype_C; PATHLIB_MAX_PATH := 4096 |}.

(** *** Notions the statements about the matcher use *)

(** the wildcard metacharacters *)
Definition wildcard (c : ascii) : bool :=
  Ascii.eqb c "*" || Ascii.eqb c "?" || Ascii.eqb c "[" || Ascii.eqb c "\".

Definition literal (p : list ascii) : Prop := Forall (fun c => wildcard c = false) p.

(** every character of [s] reads as a positive [int]: on a platform with
    unsigned [char] any character but NUL, with signed [char] the ASCII
    characters *)
Definition plain (pf : platform) (s : list ascii) : Prop :=
  Forall (fun c => 0 < char_to_int pf c) s.

(** wherever [pathlib__pat_next] finds a bracket expression in [pat],
    [pathlib__match_bracket] has a defined result on it *)
Definition bracket_safe (pf : platform) (pat : list ascii) : Prop :=
  forall i m k,
    fst (pathlib__pat_next pf (advance pat i) m) = BRACKET ->
    pathlib__match_bracket pf (advance pat i) k k <> None.

(** no [[] in the pattern, and no character that reads as the code of one *)
Definition bracket_free (pf : platform) (pat : list ascii) : Prop :=
  Forall (fun c => c <> "["%char /\ char_to_int pf c <> BRACKET) pat.

(** *** Bracket expressions, as the pattern syntax reads them

    After the opening bracket come an optional negation sign and an
    optional closing bracket that stands for itself.  Items follow, up to
    the closing bracket.  An item is one character, or an element: an
    opening bracket with one of the signs [:], [.] and [=], at least one
    character, and then everything up to the same sign followed by a
    closing bracket.  The bracket that ends an element does not close the
    expression, and neither does anything after the end of the pattern. *)

Definition skip_negation (rest : list ascii) : list ascii :=
  match rest with
  | c :: r => if Ascii.eqb c "^" || Ascii.eqb c "!" then r else rest
  | [] => []
  end.

Definition skip_first_close (rest : list ascii) : list ascii :=
  match rest with
  | c :: r => if Ascii.eqb c "]" then r else rest
  | [] => []
  end.

(** [items_closed s]: the items [s] reach a closing bracket.
    [element_closed z prev s]: so do the items that follow the element
    with sign [z] of which [prev] is the last character read and [s] the
    text still to read. *)
Fixpoint items_closed (s : list ascii) {struct s} : bool :=
  match s with
  | [] => false
  | c :: rest =>
      if is_nul c then false
      else if Ascii.eqb c "]" then true
      else if Ascii.eqb c "[" then
        match rest with
        | [] => false
        | z :: body =>
            if is_class_intro z then
              match body with
              | [] => false
              | c0 :: body' => if is_nul c0 then false else element_closed z c0 body'
              end
            else items_closed rest
        end
      else items_closed rest
  end
with element_closed (z prev : ascii) (s : list ascii) {struct s} : bool :=
  match s with
  | [] => false
  | c :: rest =>
      if is_nul c then false
      else if Ascii.eqb prev z && Ascii.eqb c "]" then items_closed rest
      else element_closed z c rest
  end.

(** the [[] followed by [rest] has a closing []] *)
Definition has_closing_bracket (rest : list ascii) : bool :=
  items_closed (skip_first_close (skip_negation rest)).

(** the [[] followed by [rest] has no closing []] before the end of the
    pattern *)
Definition unterminated (rest : list ascii) : Prop := has_closing_bracket rest = false.

(** [pathlib__pat_next] reads every character of [pat] as itself *)
Inductive reads_as_text (pf : platform) : list ascii -> Prop :=
| text_nil : reads_as_text pf []
| text_cons c rest :
    (forall m, m <> 0%N -> pathlib__pat_next pf (c :: rest) m = (char_to_int pf c, 1%N)) ->
    reads_as_text pf rest ->
    reads_as_text pf (c :: rest).

(** the only wildcard characters of [pre], read with [tail] after it, are
    [[]s that have no closing []] *)
Definition text_before (pre tail : list ascii) : Prop :=
  forall p1 c p2,
    pre = p1 ++ c :: p2 ->
    if Ascii.eqb c "[" then unterminated (p2 ++ tail)
    else wildcard c = false.

(** the only wildcard characters of [pat] are [[]s, none of which has a
    closing []] *)
Definition open_brackets_only (pat : list ascii) : Prop := text_before pat [].

(** the back-stepping over the tail of the name goes byte by byte: the
    locale is single-byte, or the name is ASCII *)
Definition single_byte (pf : platform) (n : list ascii) : Prop :=
  MB_CUR_MAX pf = 1 \/ Forall (fun c => uchar c < 128) n.

(** [suffix] is the end of [n] *)
Definition ends_with (n suffix : list ascii) : Prop :=
  (length suffix <= length n)%nat /\ skipn (length n - length suffix) n = suffix.

(** no character of the pattern reads as the code of a star *)
Definition no_star_code (pf : platform) (pat : list ascii) : Prop :=
  Forall (fun c => char_to_int pf c <> STAR) pat.

Definition all_stars (pat : list ascii) : Prop := Forall (fun c => c = "*"%char) pat.

(** a pattern without wildcard matches exactly itself *)
Definition literal_exact (pf : platform) (p n : list ascii) : Prop :=
  pathlib__fnmatch pf p n = Some 0 <-> p = n.

(** what follows the last star, when it is literal, is the end of every
    name matched *)
Definition tail_anchored (pf : platform) (p suffix n : list ascii) : Prop :=
  pathlib__fnmatch pf (p ++ "*"%char :: suffix) n = Some 0 ->
  (length suffix <= length n)%nat /\ skipn (length n - length suffix) n = suffix.

(** the three edge cases of the matcher, at a pattern [p] and a name [n] *)
Definition edge_cases (pf : platform) (p n : list ascii) : Prop :=
  (pathlib__fnmatch pf [] n = Some 0 <-> n = []) /\
  (pathlib__fnmatch pf p [] = Some 0 <-> Forall (fun c => c = "*"%char) p) /\
  pathlib__fnmatch pf (cstr "*") n = Some 0.

(** the two bytes of U+00E9 in UTF-8 *)
Definition e_acute : list ascii := [ascii_of_N 195; ascii_of_N 169].

(** a lone continuation byte, and the byte 0xFB (U+00FB in Latin-1) *)
Definition byte_80 : ascii := ascii_of_N 128.
Definition byte_FB : ascii := ascii_of_N 251.

(** ** Path and Paths *)

Definition segment : Type := list ascii.

(** [parts] holds the slots of the array that have been written, from
    index 0; [size] and [capacity] are [unsigned short]. *)
Record Path : Type := {
  parts : list segment;
  size : N;
  capacity : N
}.

Record Paths : Type := {
  paths : option (list Path);     (* [None] is the NULL pointer *)
  paths_size : N;
  paths_capacity : N
}.

Inductive Pathlib_Error : Type :=
| PATHLIB_NONE
| PATHLIB_EXISTS
| PATHLIB_NEXISTS
| PATHLIB_OSERROR.

(** conversion to [unsigned short] *)
Definition to_ushort (n : N) : N := (n mod 65536)%N.

Definition is_sep (c : ascii) : bool := Ascii.eqb c "\" || Ascii.eqb c "/".

(** [a[i] = x] on the written slots; [i] is at most their number wherever
    the code stores *)
Definition array_store {A : Type} (a : list A) (i : N) (x : A) : list A :=
  firstn (N.to_nat i) a ++ x :: skipn (S (N.to_nat i)) a.

(** [path.parts[path.size++] = start;] *)
Definition store_part (path : Path) (part : segment) : Path :=
  {| parts := array_store (parts path) (size path) part;
     size := to_ushort (size path + 1);
     capacity := capacity path |}.

(** [s] up to its terminator *)
Fixpoint c_bytes (s : list ascii) : list ascii :=
  match s with
  | [] => []
  | c :: s' => if is_nul c then [] else c :: c_bytes s'
  end.

Fixpoint count_seps (s : list ascii) : N :=
  match s with
  | [] => 0%N
  | c :: s' => if is_nul c then 0%N
               else if is_sep c then N.succ (count_seps s') else count_seps s'
  end.

(** the second loop of [pathlib_from_str]; [start] holds the characters
    from the pointer [start] up to [temp] *)
Fixpoint from_str_loop (temp : list ascii) (start : segment) (path : Path) : Path :=
  match temp with
  | [] => store_part path start
  | c :: temp' =>
      if is_sep c then from_str_loop temp' [] (store_part path start)
      else if is_nul c then store_part path start
      else from_str_loop temp' (start ++ [c]) path
  end.

Definition pathlib_from_str (instr : list ascii) : Path :=
  let part_count := (1 + count_seps instr)%N in
  from_str_loop instr [] {| parts := []; size := 0; capacity := to_ushort part_count |}.

(** the segments a Path holds: [parts[0]] to [parts[size-1]]; [None] when
    one of these slots was never written *)
Definition segments (path : Path) : option (list segment) :=
  if (size path <=? N.of_nat (length (parts path)))%N
  then Some (firstn (N.to_nat (size path)) (parts path))
  else None.

(** [(int)(capacity*1.5 + 1)] *)
Definition grow (capacity : N) : N := (capacity + capacity / 2 + 1)%N.

(** [None]: the copy or the store runs over the new array *)
Definition pathlib_add_part (path : Path) (part : segment) : option Path :=
  if (capacity path <=? size path)%N then
    let capacity' := to_ushort (if (capacity path =? 0)%N then 4%N else grow (capacity path)) in
    match segments path with
    | None => None
    | Some segs =>
        if (size path <? capacity')%N
        then Some {| parts := array_store segs (size path) part;
                     size := to_ushort (size path + 1);
                     capacity := capacity' |}
        else None
    end
  else
    if (size path <=? N.of_nat (length (parts path)))%N
    then Some {| parts := array_store (parts path) (size path) part;
                 size := to_ushort (size path + 1);
                 capacity := capacity path |}
    else None.

Definition pathlib_copy (path : Path) : option Path :=
  match segments path with
  | None => None
  | Some segs =>
      if (size path <=? capacity path)%N
      then Some {| parts := segs; size := size path; capacity := capacity path |}
      else None
  end.

Definition pathlib_parent (path : Path) : option Path :=
  if (size path =? 1)%N then
    Some {| parts := [cstr "."]; size := 1; capacity := 2 |}
  else if (0 <? size path)%N then
    match segments path with
    | None => None
    | Some segs =>
        if (size path - 1 <=? capacity path)%N
        then Some {| parts := firstn (N.to_nat (size path - 1)) segs;
                     size := size path - 1;
                     capacity := capacity path |}
        else None
    end
  else Some {| parts := []; size := 0; capacity := 0 |}.

(** [pathlib_name]: the last part, or the empty string literal when the
    Path has no part *)
Definition pathlib_name (path : Path) : option segment :=
  if (size path =? 0)%N then Some []
  else nth_error (parts path) (N.to_nat (size path - 1)).

Fixpoint add_parts (ret : Path) (ps : list segment) : option Path :=
  match ps with
  | [] => Some ret
  | part :: ps' =>
      match pathlib_add_part ret part with
      | None => None
      | Some ret' => add_parts ret' ps'
      end
  end.

Definition pathlib_joinpath (path other : Path) : option Path :=
  match segments path, segments other with
  | Some ps, Some qs =>
      match add_parts {| parts := []; size := 0; capacity := 0 |} ps with
      | None => None
      | Some ret => add_parts ret qs
      end
  | _, _ => None
  end.

(** [pathlib_to_str]: every part is written with a separator after it,
    then the terminator is put at [total_size] *)
Definition pathlib_to_str (path : Path) : option (list ascii) :=
  match segments path with
  | None => None
  | Some segs =>
      let total_size := fold_left (fun acc part => (acc + strlen part)%N) segs 0%N in
      let total_size := if (0 <? size path)%N then (total_size + (size path - 1))%N
                        else total_size in
      if (size path =? 0)%N then Some []
      else
        let region := flat_map (fun part => c_bytes part ++ ["/"%char]) segs in
        Some (firstn (N.to_nat total_size) region)
  end.

(** [pathlib_render_str_to_buffer]: [Some (Some s)] when it returns 1 with
    [s] in the buffer, [Some None] when it returns 0 *)
Fixpoint render_loop (fuel : nat) (path : Path) (i : N) (buffer : list ascii)
         (buffer_size : N) : option (option (list ascii)) :=
  match fuel with
  | O => None
  | S fuel' =>
      if (0 <? buffer_size)%N then
        match nth_error (parts path) (N.to_nat i) with
        | None => None
        | Some part =>
            let str_size := strlen part in
            if (buffer_size <? str_size)%N then Some None
            else
              let buffer := buffer ++ c_bytes part in
              let buffer_size := (buffer_size - str_size)%N in
              let i := (i + 1)%N in
              if negb (i =? size path)%N then
                if (buffer_size <? 1)%N then Some None
                else render_loop fuel' path i (buffer ++ ["/"%char]) (buffer_size - 1)
              else
                if (buffer_size <? 1)%N then Some None
                else Some (Some buffer)
        end
      else Some None
  end.

Definition pathlib_render_str_to_buffer (path : Path) (buffer_size : N)
  : option (option (list ascii)) :=
  if (size path =? 0)%N then
    if (buffer_size <? 1)%N then Some None else Some (Some [])
  else render_loop (S (N.to_nat buffer_size)) path 0 [] buffer_size.

Definition paths_empty : Paths :=
  {| paths := None; paths_size := 0; paths_capacity := 0 |}.

Definition pathlib_paths_add (ps : Paths) (path : Path) : Paths :=
  let old := match paths ps with Some l => l | None => [] end in
  if (paths_capacity ps <=? paths_size ps)%N then
    {| paths := Some (array_store (firstn (N.to_nat (paths_size ps)) old) (paths_size ps) path);
       paths_size := paths_size ps + 1;
       paths_capacity := if (paths_capacity ps =? 0)%N then 4 else paths_capacity ps * 2 |}
  else
    {| paths := Some (array_store old (paths_size ps) path);
       paths_size := paths_size ps + 1;
       paths_capacity := paths_capacity ps |}.

Definition pathlib_paths_free (ps : Paths) : Paths :=
  match paths ps with
  | Some _ => paths_empty
  | None => ps
  end.

(** the Paths a collection holds *)
Definition paths_list (ps : Paths) : list Path :=
  match paths ps with
  | Some l => firstn (N.to_nat (paths_size ps)) l
  | None => []
  end.

(** *** Notions the statements about Paths use *)

(** no NUL inside *)
Definition nul_free (s : list ascii) : Prop := Forall (fun c => is_nul c = false) s.

(** no separator in a segment *)
Definition sep_free (seg : segment) : Prop := Forall (fun c => is_sep c = false) seg.

(** [seg] is one of [parts[0]] .. [parts[size-1]] *)
Definition held (path : Path) (seg : segment) : Prop :=
  exists i, (i < size path)%N /\ nth_error (parts path) (N.to_nat i) = Some seg.

(** every segment a Path holds is non-empty and has no separator *)
Definition proper_segments (path : Path) : Prop :=
  forall seg, held path seg -> seg <> [] /\ sep_free seg.

(** every slot written holds a segment without separator *)
Definition sep_free_path (path : Path) : Prop := Forall sep_free (parts path).

(** separator normalisation *)
Definition normalize_sep (c : ascii) : ascii := if is_sep c then "/"%char else c.

Definition round_trips (s : list ascii) : Prop :=
  pathlib_to_str (pathlib_from_str s) = Some (map normalize_sep (c_bytes s)).

(** the segments of a string, as the loop of [pathlib_from_str] cuts them *)
Fixpoint split_segments (temp : list ascii) (start : segment) : list segment :=
  match temp with
  | [] => [start]
  | c :: temp' =>
      if is_sep c then start :: split_segments temp' []
      else if is_nul c then [start]
      else split_segments temp' (start ++ [c])
  end.

Definition no_empty_segment (s : list ascii) : bool :=
  forallb (fun seg => match seg with [] => false | _ => true end) (split_segments s []).

(** only one of the two separators occurs *)
Definition single_separator_style (s : list ascii) : bool :=
  forallb (fun c => negb (Ascii.eqb c "\")) s || forallb (fun c => negb (Ascii.eqb c "/")) s.

(** 65536 segments [a], joined by [/] *)
Definition long_path : list ascii :=
  concat (repeat (cstr "a/") (N.to_nat 65535)) ++ cstr "a".

(** ** The file system and the walker (POSIX branch) *)

(** [st_mode & S_IFMT] *)
Inductive file_type : Type := S_IFDIR | S_IFREG | S_IFOTHER.

Definition S_ISDIR (ty : file_type) : bool :=
  match ty with S_IFDIR => true | _ => false end.

(** an open directory stream: the names [readdir] returns before it
    returns NULL, and whether that NULL reports an error (errno set)
    rather than the end of the directory *)
Record DIR : Type := {
  d_names : list (list ascii);
  d_error : bool
}.

Record filesystem : Type := {
  (** [access(path, F_OK) == 0] *)
  fs_access : list ascii -> bool;
  (** [stat]; [None] when it fails *)
  fs_stat : list ascii -> option file_type;
  (** [opendir]; [None] when it returns NULL *)
  fs_opendir : list ascii -> option DIR
}.

(** the calls the walker makes, in order *)
Inductive event : Type :=
| EvAccess (path : list ascii)
| EvStat (path : list ascii)
| EvOpendir (path : list ascii)
| EvFnmatch (fullpath name : list ascii).   (* [name], the entry at [fullpath], is matched *)

(** the global [pathlib_error], and the calls made so far *)
Record world : Type := {
  pathlib_error : Pathlib_Error;
  calls : list event
}.

Definition log (e : event) (w : world) : world :=
  {| pathlib_error := pathlib_error w; calls := calls w ++ [e] |}.

Definition set_error (e : Pathlib_Error) (w : world) : world :=
  {| pathlib_error := e; calls := calls w |}.

(** [snprintf(fullpath, size, "%s/%s", base_path, name)]: the value
    returned and the buffer *)
Definition snprintf_path (size : N) (base_path name : list ascii) : Z * list ascii :=
  let s := c_bytes base_path ++ "/"%char :: c_bytes name in
  (Z.of_nat (length s), firstn (N.to_nat (size - 1)) s).

(** [strcmp(a, b) == 0] *)
Definition streq (a b : list ascii) : bool :=
  if list_eq_dec ascii_dec (c_bytes a) (c_bytes b) then true else false.

Section Walker.

Variable pf : platform.
Variable fs : filesystem.

Definition pathlib_exists (path : Path) (w : world) : option (Z * world) :=
  match pathlib_render_str_to_buffer path (PATHLIB_MAX_PATH pf) with
  | None => None
  | Some None => Some (0, w)
  | Some (Some filename) =>
      Some (if fs_access fs filename then 1 else 0, log (EvAccess filename) w)
  end.

Definition pathlib_is_dir (path : Path) (w : world) : option (Z * world) :=
  let w := set_error PATHLIB_NONE w in
  match pathlib_exists path w with
  | None => None
  | Some (r, w) =>
      if r =? 0 then Some (0, w)
      else
        match pathlib_render_str_to_buffer path (PATHLIB_MAX_PATH pf) with
        | None => None
        | Some None => Some (0, w)
        | Some (Some filename) =>
            let w := log (EvStat filename) w in
            match fs_stat fs filename with
            | None => Some (0, set_error PATHLIB_OSERROR w)
            | Some ty => Some (if S_ISDIR ty then 1 else 0, w)
            end
        end
  end.

(** the body of [while ((entry = readdir(dir)) != NULL)] for one entry:
    [Some (true, _, _)] when the loop goes on, [Some (false, _, _)] when
    the function returns 0 from inside it *)
Definition glob_entry (self : list ascii -> Paths -> world -> option (Z * Paths * world))
           (base_path pattern : list ascii) (recursive : Z) (d_name : list ascii)
           (results : Paths) (w : world) : option (bool * Paths * world) :=
  if streq d_name (cstr ".") || streq d_name (cstr "..") then Some (true, results, w)
  else
    let '(r, fullpath) := snprintf_path (PATHLIB_MAX_PATH pf) base_path d_name in
    if r <? 0 then Some (true, results, w)
    else
      let w := log (EvStat fullpath) w in
      match fs_stat fs fullpath with
      | None => Some (true, results, w)
      | Some path_stat =>
          if S_ISDIR path_stat then
            if negb (recursive =? 0) then
              match self fullpath results w with
              | None => None
              | Some (r, results, w) =>
                  if r =? 0 then Some (false, results, w) else Some (true, results, w)
              end
            else Some (true, results, w)
          else
            let w := log (EvFnmatch fullpath d_name) w in
            match pathlib__fnmatch pf pattern d_name with
            | None => None
            | Some r =>
                if r =? 0
                then Some (true, pathlib_paths_add results (pathlib_from_str fullpath), w)
                else Some (true, results, w)
            end
      end.

Fixpoint glob_entries (self : list ascii -> Paths -> world -> option (Z * Paths * world))
         (base_path pattern : list ascii) (recursive : Z) (names : list (list ascii))
         (results : Paths) (w : world) : option (Z * Paths * world) :=
  match names with
  | [] => Some (1, results, w)          (* closedir(dir); return 1; *)
  | d_name :: names' =>
      match glob_entry self base_path pattern recursive d_name results w with
      | None => None
      | Some (false, results, w) => Some (0, results, w)
      | Some (true, results, w) =>
          glob_entries self base_path pattern recursive names' results w
      end
  end.

(** [fuel] bounds the depth of the recursion; [None] when it runs out, or
    when the matcher has no defined result *)
Fixpoint pathlib__recursive_glob (fuel : nat) (base_path pattern : list ascii)
         (recursive : Z) (results : Paths) (w : world) : option (Z * Paths * world) :=
  match fuel with
  | O => None
  | S fuel' =>
      let w := log (EvOpendir base_path) w in
      match fs_opendir fs base_path with
      | None => Some (0, results, set_error PATHLIB_OSERROR w)
      | Some dir =>
          glob_entries (fun p r w => pathlib__recursive_glob fuel' p pattern recursive r w)
                       base_path pattern recursive (d_names dir) results w
      end
  end.

(** the common body of [pathlib_glob] (recursive = 0) and [pathlib_rglob]
    (recursive = 1) *)
Definition glob_with (recursive : Z) (fuel : nat) (path : Path) (pattern : list ascii)
           (w : world) : option (Paths * world) :=
  let results := paths_empty in
  let w := set_error PATHLIB_NONE w in
  match pathlib_is_dir path w with
  | None => None
  | Some (r, w) =>
      if r =? 0 then Some (results, set_error PATHLIB_NEXISTS w)
      else
        match pathlib_render_str_to_buffer path (PATHLIB_MAX_PATH pf) with
        | None => None
        | Some None => Some (results, set_error PATHLIB_NEXISTS w)
        | Some (Some fullpath) =>
            match pathlib__recursive_glob fuel fullpath pattern recursive results w with
            | None => None
            | Some (r, results, w) =>
                if r =? 0 then Some (pathlib_paths_free results, w)
                else Some (results, w)
            end
        end
  end.

Definition pathlib_glob := glob_with 0.
Definition pathlib_rglob := glob_with 1.

End Walker.

(** *** A small file system to run the walker on

    [root] holds [a.txt], [b.md] and the directory [sub], which holds
    [c.txt]; [locked] is a directory that cannot be opened, [gone] an entry
    that cannot be stat'ed. *)

Definition dir_of (names : list string) (err : bool) : option DIR :=
  Some {| d_names := map cstr ("." :: ".." :: names)%string; d_error := err |}.

Definition lookup {A : Type} (tbl : list (string * A)) (path : list ascii) : option A :=
  match find (fun e => String.eqb (fst e) (string_of_list_ascii path)) tbl with
  | Some e => Some (snd e)
  | None => None
  end.

Definition demo_stat : list (string * file_type) :=
  [("root", S_IFDIR); ("root/a.txt", S_IFREG); ("root/b.md", S_IFREG);
   ("root/sub", S_IFDIR); ("root/sub/c.txt", S_IFREG);
   ("root/locked", S_IFDIR); ("top", S_IFDIR); ("top/x.txt", S_IFREG);
   ("top/sub", S_IFDIR); ("top/sub/c.txt", S_IFREG); ("file", S_IFREG);
   ("broken", S_IFDIR); ("broken/a.txt", S_IFREG)]%string.

Definition demo_fs : filesystem :=
  {| fs_access := fun p => match lookup demo_stat p with Some _ => true | None => false end;
     fs_stat := lookup demo_stat;
     fs_opendir := fun p =>
       match lookup [("root", dir_of ["a.txt"; "gone"; "sub"; "b.md"; "locked"] false);
                     ("root/sub", dir_of ["c.txt"] false);
                     ("top", dir_of ["x.txt"; "sub"; "gone"] false);
                     ("top/sub", dir_of ["c.txt"] false);
                     ("broken", dir_of ["a.txt"] true)]%string p with
       | Some d => d
       | None => None
       end |}.

Definition world0 : world := {| pathlib_error := PATHLIB_NONE; calls := [] |}.

(** A POSIX file system in which a name holds a backslash: the directory
    [d] holds the regular file [a\b] and the directory [a], which holds
    the directory [b]. *)
Definition backslash_stat : list (string * file_type) :=
  [("d", S_IFDIR); ("d/a\b", S_IFREG); ("d/a", S_IFDIR); ("d/a/b", S_IFDIR)]%string.

Definition backslash_fs : filesystem :=
  {| fs_access := fun p => match lookup backslash_stat p with Some _ => true | None => false end;
     fs_stat := lookup backslash_stat;
     fs_opendir := fun p =>
       match lookup [("d", dir_of ["a\b"; "a"] false);
                     ("d/a", dir_of ["b"] false);
                     ("d/a/b", dir_of [] false)]%string p with
       | Some d => d
       | None => None
       end |}.

(** a call that only inspects a path *)
Definition stat_call (e : event) : Prop :=
  match e with EvAccess _ | EvStat _ => True | _ => False end.

(** ** Notions the statements about the walker use *)

Section WalkerSpec.

Variable pf : platform.
Variable fs : filesystem.

Definition is_dot (d_name : list ascii) : bool :=
  streq d_name (cstr ".") || streq d_name (cstr "..").

(** the path the walker builds for the entry [d_name] of [base_path] *)
Definition entry_path (base_path d_name : list ascii) : list ascii :=
  snd (snprintf_path (PATHLIB_MAX_PATH pf) base_path d_name).

(** [name] is an entry of some directory, [fullpath] the path built for
    it, and [stat] says that it is not a directory *)
Definition file_entry (fullpath name : list ascii) : Prop :=
  exists base_path dir ty,
    fs_opendir fs base_path = Some dir /\ In name (d_names dir) /\
    fullpath = entry_path base_path name /\
    fs_stat fs fullpath = Some ty /\ S_ISDIR ty = false.

Definition matched_entry (pattern : list ascii) (p : Path) : Prop :=
  exists fullpath name,
    file_entry fullpath name /\
    pathlib__fnmatch pf pattern name = Some 0 /\
    p = pathlib_from_str fullpath.

(** the directories below [base_path] are nested less than [depth] deep
    (as far as a walk with this [recursive] flag descends) *)
Fixpoint depth_below (depth : nat) (recursive : Z) (base_path : list ascii) : bool :=
  match depth with
  | O => false
  | S depth' =>
      match fs_opendir fs base_path with
      | None => true
      | Some dir =>
          forallb (fun d_name =>
                     is_dot d_name
                     || (recursive =? 0)
                     || match fs_stat fs (entry_path base_path d_name) with
                        | Some S_IFDIR => depth_below depth' recursive (entry_path base_path d_name)
                        | _ => true
                        end)
                  (d_names dir)
      end
  end.

(** the matcher has a defined result on every name *)
Definition matcher_total (pattern : list ascii) : Prop :=
  forall name, pathlib__fnmatch pf pattern name <> None.

(** every slot below [size] has been written *)
Definition path_wf (path : Path) : Prop :=
  (size path <= N.of_nat (length (parts path)))%N.

(** [path] renders to the name of an existing directory *)
Definition denotes_directory (path : Path) : Prop :=
  exists filename,
    pathlib_render_str_to_buffer path (PATHLIB_MAX_PATH pf) = Some (Some filename) /\
    fs_access fs filename = true /\ fs_stat fs filename = Some S_IFDIR.

Definition paths_wf (ps : Paths) : Prop :=
  match paths ps with
  | Some l => (paths_size ps <= N.of_nat (length l))%N
  | None => paths_size ps = 0%N
  end.

(** what a run of the walker from [(results, w)] to [(results', w')] with
    flag [r] did: [evs] are its calls and [added] the Paths it added *)
Record walk_post (allowed : list ascii -> Prop) (pattern : list ascii)
       (results : Paths) (w : world) (r : Z) (results' : Paths) (w' : world)
       (evs : list event) (added : list Path) : Prop := {
  wp_wf : paths_wf results';
  wp_calls : calls w' = calls w ++ evs;
  wp_paths : paths_list results' = paths_list results ++ added;
  wp_added : Forall (matched_entry pattern) added;
  wp_fnmatch : forall fullpath name, In (EvFnmatch fullpath name) evs -> file_entry fullpath name;
  wp_opendir : forall p, In (EvOpendir p) evs -> allowed p;
  wp_flag :
    (r = 0 /\ pathlib_error w' = PATHLIB_OSERROR /\
     exists p, In (EvOpendir p) evs /\ fs_opendir fs p = None)
    \/ (r = 1 /\ pathlib_error w' = pathlib_error w /\
        forall p, In (EvOpendir p) evs -> fs_opendir fs p <> None)
}.

(** [p] renders to the name of an existing entry that is not a directory *)
Definition denotes_file (p : Path) : Prop :=
  exists filename ty,
    pathlib_render_str_to_buffer p (PATHLIB_MAX_PATH pf) = Some (Some filename) /\
    fs_stat fs filename = Some ty /\ S_ISDIR ty = false.

(** [p] denotes a non-directory entry whose base name matches [pattern] *)
Definition matched_file (pattern : list ascii) (p : Path) : Prop :=
  denotes_file p /\
  exists name, pathlib_name p = Some name /\ pathlib__fnmatch pf pattern name = Some 0.

(** every Path a walk returns denotes a non-directory entry whose base
    name matched the pattern *)
Definition returns_matched_files (recursive : Z) (fuel : nat) (path : Path)
           (pattern : list ascii) (w : world) : Prop :=
  forall results w',
    glob_with pf fs recursive fuel path pattern w = Some (results, w') ->
    Forall (matched_file pattern) (paths_list results).

(** opening [p] fails, or reading its entries ends on an error *)
Definition listing_failed (p : list ascii) : Prop :=
  fs_opendir fs p = None \/ exists dir, fs_opendir fs p = Some dir /\ d_error dir = true.

(** a walk in which opening or listing a directory failed returns no Path
    and leaves PATHLIB_OSERROR in [pathlib_error] *)
Definition aborts_on_failure (recursive : Z) (fuel : nat) (path : Path)
           (pattern : list ascii) (w : world) : Prop :=
  forall results w' evs,
    glob_with pf fs recursive fuel path pattern w = Some (results, w') ->
    calls w' = calls w ++ evs ->
    (exists p, In (EvOpendir p) evs /\ listing_failed p) ->
    paths_list results = [] /\ pathlib_error w' = PATHLIB_OSERROR.

End WalkerSpec.

(** * Proofs *)

(** ** The walker *)

Section WalkerProofs.

Variable pf : platform.
Variable fs : filesystem.

Lemma firstn_array_store {A : Type} (a : list A) (i : N) (x : A) :
  (i <= N.of_nat (length a))%N ->
  firstn (N.to_nat (i + 1)) (array_store a i x) = firstn (N.to_nat i) a ++ [x].
Proof.
  intros Hi. unfold array_store.
  assert (Hlen : length (firstn (N.to_nat i) a) = N.to_nat i)
    by (rewrite length_firstn; lia).
  replace (N.to_nat (i + 1)) with (length (firstn (N.to_nat i) a) + 1)%nat by lia.
  rewrite firstn_app_2. simpl. reflexivity.
Qed.

Lemma length_array_store {A : Type} (a : list A) (i : N) (x : A) :
  (i <= N.of_nat (length a))%N ->
  (i + 1 <= N.of_nat (length (array_store a i x)))%N.
Proof.
  intros Hi. unfold array_store.
  rewrite length_app, length_firstn. simpl. lia.
Qed.

Lemma paths_add_list (ps : Paths) (x : Path) :
  paths_wf ps ->
  paths_wf (pathlib_paths_add ps x) /\
  paths_list (pathlib_paths_add ps x) = paths_list ps ++ [x].
Proof.
  unfold paths_wf, pathlib_paths_add, paths_list. intros Hwf.
  set (old := match paths ps with Some l => l | None => [] end).
  assert (Hold : (paths_size ps <= N.of_nat (length old))%N).
  { subst old. destruct (paths ps); simpl; lia. }
  assert (Hlist : match paths ps with
                  | Some l => firstn (N.to_nat (paths_size ps)) l
                  | None => []
                  end = firstn (N.to_nat (paths_size ps)) old).
  { subst old. destruct (paths ps); [reflexivity|]. now rewrite firstn_nil. }
  rewrite Hlist.
  destruct (paths_capacity ps <=? paths_size ps)%N; simpl.
  - split.
    + apply length_array_store. rewrite length_firstn. lia.
    + rewrite firstn_array_store by (rewrite length_firstn; lia).
      now rewrite firstn_firstn, Nat.min_id.
  - split.
    + now apply length_array_store.
    + now apply firstn_array_store.
Qed.

Lemma walk_post_refl allowed pattern results w :
  paths_wf results ->
  walk_post pf fs allowed pattern results w 1 results w [] [].
Proof.
  intros Hwf. constructor.
  - assumption.
  - now rewrite app_nil_r.
  - now rewrite app_nil_r.
  - constructor.
  - intros ? ? [].
  - intros ? [].
  - right. split; [reflexivity|]. split; [reflexivity|]. intros ? [].
Qed.

Lemma walk_post_trans allowed pattern results w results1 w1 evs1 added1
      r results2 w2 evs2 added2 :
  walk_post pf fs allowed pattern results w 1 results1 w1 evs1 added1 ->
  walk_post pf fs allowed pattern results1 w1 r results2 w2 evs2 added2 ->
  walk_post pf fs allowed pattern results w r results2 w2 (evs1 ++ evs2) (added1 ++ added2).
Proof.
  intros [Hwf1 Hc1 Hp1 Ha1 Hf1 Ho1 Hr1] [Hwf2 Hc2 Hp2 Ha2 Hf2 Ho2 Hr2].
  destruct Hr1 as [[Hr1 _] | (_ & Herr1 & Hok1)]; [discriminate|].
  constructor.
  - assumption.
  - now rewrite Hc2, Hc1, app_assoc.
  - now rewrite Hp2, Hp1, app_assoc.
  - apply Forall_app. now split.
  - intros fullpath name Hin. apply in_app_or in Hin. destruct Hin; eauto.
  - intros p Hin. apply in_app_or in Hin. destruct Hin; eauto.
  - destruct Hr2 as [(Hr2 & Herr2 & p & Hin & Hnone) | (Hr2 & Herr2 & Hok2)].
    + left. split; [assumption|]. split; [assumption|].
      exists p. split; [apply in_or_app; now right | assumption].
    + right. split; [assumption|]. split; [congruence|].
      intros p Hin. apply in_app_or in Hin. destruct Hin; eauto.
Qed.

Lemma walk_post_weaken (allowed allowed' : list ascii -> Prop) pattern results w
      r results' w' evs added :
  (forall p, allowed p -> allowed' p) ->
  walk_post pf fs allowed pattern results w r results' w' evs added ->
  walk_post pf fs allowed' pattern results w r results' w' evs added.
Proof.
  intros Himp [Hwf Hc Hp Ha Hf Ho Hr]. constructor; auto.
Qed.

(** logging a call to [stat] *)
Lemma walk_post_stat allowed pattern results w path :
  paths_wf results ->
  walk_post pf fs allowed pattern results w 1 results (log (EvStat path) w) [EvStat path] [].
Proof.
  intros Hwf. constructor.
  - assumption.
  - reflexivity.
  - now rewrite app_nil_r.
  - constructor.
  - intros ? ? [Heq | []]. discriminate.
  - intros ? [Heq | []]. discriminate.
  - right. split; [reflexivity|]. split; [reflexivity|].
    intros ? [Heq | []]. discriminate.
Qed.

(** what one entry does, when the recursive call satisfies [walk_post] *)
Lemma glob_entry_post self base_path pattern recursive dir d_name results w
      continue results' w' :
  (forall p results0 w0 r results1 w1,
      self p results0 w0 = Some (r, results1, w1) -> paths_wf results0 ->
      exists evs added,
        walk_post pf fs (fun _ => True) pattern results0 w0 r results1 w1 evs added) ->
  fs_opendir fs base_path = Some dir -> In d_name (d_names dir) ->
  paths_wf results ->
  glob_entry pf fs self base_path pattern recursive d_name results w
  = Some (continue, results', w') ->
  exists evs added,
    walk_post pf fs (fun _ => recursive <> 0) pattern results w
              (if continue then 1 else 0) results' w' evs added.
Proof.
  intros Hself Hdir Hin Hwf. unfold glob_entry.
  destruct (streq d_name (cstr ".") || streq d_name (cstr "..")).
  { intros [= <- <- <-]. exists [], []. now apply walk_post_refl. }
  destruct (snprintf_path (PATHLIB_MAX_PATH pf) base_path d_name) as [r fullpath] eqn:Hsn.
  assert (Hfull : fullpath = entry_path pf base_path d_name)
    by (unfold entry_path; now rewrite Hsn).
  destruct (r <? 0).
  { intros [= <- <- <-]. exists [], []. now apply walk_post_refl. }
  destruct (fs_stat fs fullpath) as [path_stat|] eqn:Hstat.
  2:{ intros [= <- <- <-]. exists [EvStat fullpath], []. now apply walk_post_stat. }
  destruct (S_ISDIR path_stat) eqn:Hisdir.
  - destruct (recursive =? 0) eqn:Hrec; simpl.
    { intros [= <- <- <-]. exists [EvStat fullpath], []. now apply walk_post_stat. }
    destruct (self fullpath results (log (EvStat fullpath) w)) as [[[r1 results1] w1]|] eqn:Hcall;
      [|discriminate].
    apply Hself in Hcall; [|assumption].
    destruct Hcall as (evs & added & Hpost).
    apply (walk_post_weaken _ (fun _ => recursive <> 0)) in Hpost.
    2:{ intros _ _ Hz. rewrite Hz in Hrec. discriminate. }
    assert (Hcomb := walk_post_trans _ _ _ _ _ _ _ _ _ _ _ _ _
                       (walk_post_stat _ pattern results w fullpath Hwf) Hpost).
    destruct (r1 =? 0) eqn:Hr1; intros [= <- <- <-]; eexists; eexists.
    + apply Z.eqb_eq in Hr1. subst r1. exact Hcomb.
    + destruct Hpost as [_ _ _ _ _ _ [[Hz _] | [Ho _]]].
      * subst r1. discriminate.
      * subst r1. exact Hcomb.
  - destruct (pathlib__fnmatch pf pattern d_name) as [rm|] eqn:Hm; [|discriminate].
    assert (Hentry : file_entry pf fs fullpath d_name).
    { exists base_path, dir, path_stat. repeat split; assumption. }
    destruct (rm =? 0) eqn:Hrm; intros [= <- <- <-].
    + apply Z.eqb_eq in Hrm. subst rm.
      destruct (paths_add_list results (pathlib_from_str fullpath) Hwf) as [Hwf' Hlist].
      exists [EvStat fullpath; EvFnmatch fullpath d_name], [pathlib_from_str fullpath].
      constructor.
      * assumption.
      * simpl. now rewrite <- app_assoc.
      * assumption.
      * constructor; [|constructor]. exists fullpath, d_name. auto.
      * intros f n [Heq | [Heq | []]]; [discriminate|]. now injection Heq as <- <-.
      * intros p [Heq | [Heq | []]]; discriminate.
      * right. split; [reflexivity|]. split; [reflexivity|].
        intros p [Heq | [Heq | []]]; discriminate.
    + exists [EvStat fullpath; EvFnmatch fullpath d_name], [].
      constructor.
      * assumption.
      * simpl. now rewrite <- app_assoc.
      * now rewrite app_nil_r.
      * constructor.
      * intros f n [Heq | [Heq | []]]; [discriminate|]. now injection Heq as <- <-.
      * intros p [Heq | [Heq | []]]; discriminate.
      * right. split; [reflexivity|]. split; [reflexivity|].
        intros p [Heq | [Heq | []]]; discriminate.
Qed.

Lemma glob_entries_post self base_path pattern recursive dir names results w
      r results' w' :
  (forall p results0 w0 r results1 w1,
      self p results0 w0 = Some (r, results1, w1) -> paths_wf results0 ->
      exists evs added,
        walk_post pf fs (fun _ => True) pattern results0 w0 r results1 w1 evs added) ->
  fs_opendir fs base_path = Some dir -> incl names (d_names dir) ->
  paths_wf results ->
  glob_entries pf fs self base_path pattern recursive names results w
  = Some (r, results', w') ->
  exists evs added,
    walk_post pf fs (fun _ => recursive <> 0) pattern results w r results' w' evs added.
Proof.
  intros Hself Hdir. revert results w.
  induction names as [|d_name names IH]; intros results w Hincl Hwf; simpl.
  - intros [= <- <- <-]. exists [], []. now apply walk_post_refl.
  - destruct (glob_entry pf fs self base_path pattern recursive d_name results w)
      as [[[continue results1] w1]|] eqn:Hentry; [|discriminate].
    eapply glob_entry_post in Hentry; eauto.
    2:{ apply Hincl. now left. }
    destruct Hentry as (evs1 & added1 & Hpost1).
    destruct continue.
    + intros Hrest. apply IH in Hrest.
      * destruct Hrest as (evs2 & added2 & Hpost2).
        exists (evs1 ++ evs2), (added1 ++ added2).
        eapply walk_post_trans; eassumption.
      * intros x Hx. apply Hincl. now right.
      * now destruct Hpost1.
    + intros [= <- <- <-]. eauto.
Qed.

Lemma recursive_glob_post fuel pattern recursive :
  forall base_path results w r results' w',
    paths_wf results ->
    pathlib__recursive_glob pf fs fuel base_path pattern recursive results w
    = Some (r, results', w') ->
    exists evs added,
      walk_post pf fs (fun p => p = base_path \/ recursive <> 0) pattern
                results w r results' w' evs added.
Proof.
  induction fuel as [|fuel IH]; intros base_path results w r results' w' Hwf; simpl;
    [discriminate|].
  destruct (fs_opendir fs base_path) as [dir|] eqn:Hdir.
  - intros Hrun.
    eapply glob_entries_post in Hrun; eauto.
    + destruct Hrun as (evs & added & [Hwf' Hc Hp Ha Hf Ho Hr]).
      exists (EvOpendir base_path :: evs), added. constructor; auto.
      * rewrite Hc. simpl. now rewrite <- app_assoc.
      * intros f n [Heq | Hin]; [discriminate | eauto].
      * intros p [Heq | Hin]; [left; congruence | right; eauto].
      * destruct Hr as [(Hr & Herr & p & Hin & Hnone) | (Hr & Herr & Hok)].
        -- left. repeat split; auto. exists p. split; [now right | assumption].
        -- right. repeat split; auto.
           intros p [Heq | Hin]; [|eauto].
           injection Heq as <-. congruence.
    + intros p results0 w0 r0 results1 w1 Hcall Hwf0.
      apply IH in Hcall; [|assumption].
      destruct Hcall as (evs & added & Hpost). exists evs, added.
      eapply walk_post_weaken; [|eassumption]. auto.
    + apply incl_refl.
  - intros [= <- <- <-].
    exists [EvOpendir base_path], []. constructor; auto.
    + now rewrite app_nil_r.
    + intros f n [Heq | []]. discriminate.
    + intros p [Heq | []]. left. congruence.
    + left. repeat split; auto. exists base_path. split; [now left | assumption].
Qed.

(** *** The walker returns *)

Lemma S_ISDIR_true ty : S_ISDIR ty = true -> ty = S_IFDIR.
Proof. destruct ty; simpl; congruence. Qed.

Lemma glob_entries_total self base_path pattern recursive names results w :
  matcher_total pf pattern ->
  (forall d_name, In d_name names -> is_dot d_name = false -> recursive <> 0 ->
                  fs_stat fs (entry_path pf base_path d_name) = Some S_IFDIR ->
                  forall results0 w0, self (entry_path pf base_path d_name) results0 w0 <> None) ->
  glob_entries pf fs self base_path pattern recursive names results w <> None.
Proof.
  intros Htotal. revert results w.
  induction names as [|d_name names IH]; intros results w Hself; simpl; [discriminate|].
  assert (Hentry : glob_entry pf fs self base_path pattern recursive d_name results w <> None).
  { unfold glob_entry. fold (is_dot d_name).
    destruct (is_dot d_name) eqn:Hdot; [discriminate|].
    specialize (Hself d_name (or_introl eq_refl) Hdot).
    unfold entry_path in Hself.
    destruct (snprintf_path (PATHLIB_MAX_PATH pf) base_path d_name) as [r fullpath].
    simpl in Hself.
    destruct (r <? 0); [discriminate|].
    destruct (fs_stat fs fullpath) as [ty|]; [|discriminate].
    destruct (S_ISDIR ty) eqn:Hty.
    - apply S_ISDIR_true in Hty. subst ty.
      destruct (recursive =? 0) eqn:Hrec; simpl; [discriminate|].
      apply Z.eqb_neq in Hrec.
      specialize (Hself Hrec eq_refl results (log (EvStat fullpath) w)).
      destruct (self fullpath results (log (EvStat fullpath) w)) as [[[r1 ?] ?]|];
        [|congruence].
      destruct (r1 =? 0); discriminate.
    - specialize (Htotal d_name).
      destruct (pathlib__fnmatch pf pattern d_name) as [rm|]; [|congruence].
      destruct (rm =? 0); discriminate. }
  destruct (glob_entry pf fs self base_path pattern recursive d_name results w)
    as [[[[|] results1] w1]|]; [|discriminate|congruence].
  apply IH. intros d Hd. apply Hself. now right.
Qed.

Lemma recursive_glob_total fuel pattern recursive :
  matcher_total pf pattern ->
  forall base_path results w,
    depth_below pf fs fuel recursive base_path = true ->
    pathlib__recursive_glob pf fs fuel base_path pattern recursive results w <> None.
Proof.
  intros Htotal.
  induction fuel as [|fuel IH]; intros base_path results w; simpl; [discriminate|].
  destruct (fs_opendir fs base_path) as [dir|]; [|discriminate].
  intros Hdepth. rewrite forallb_forall in Hdepth.
  apply glob_entries_total; [assumption|].
  intros d_name Hin Hdot Hrec Hstat results0 w0.
  apply IH. specialize (Hdepth d_name Hin).
  rewrite Hdot, Hstat in Hdepth. simpl in Hdepth.
  apply Z.eqb_neq in Hrec. now rewrite Hrec in Hdepth.
Qed.

Lemma render_loop_total fuel path :
  path_wf path ->
  forall i buffer buffer_size,
    (i < size path)%N -> (N.to_nat buffer_size < fuel)%nat ->
    render_loop fuel path i buffer buffer_size <> None.
Proof.
  intros Hwf. unfold path_wf in Hwf.
  induction fuel as [|fuel IH]; intros i buffer buffer_size Hi Hfuel; [lia|].
  simpl. destruct (0 <? buffer_size)%N eqn:Hpos; [|discriminate].
  apply N.ltb_lt in Hpos.
  destruct (nth_error (parts path) (N.to_nat i)) as [part|] eqn:Hnth.
  2:{ apply nth_error_None in Hnth. lia. }
  destruct (buffer_size <? strlen part)%N eqn:Hfit; [discriminate|].
  apply N.ltb_ge in Hfit.
  destruct (i + 1 =? size path)%N eqn:Hlast; simpl.
  - destruct (buffer_size - strlen part <? 1)%N; discriminate.
  - apply N.eqb_neq in Hlast.
    destruct (buffer_size - strlen part <? 1)%N eqn:Hroom; [discriminate|].
    apply N.ltb_ge in Hroom. apply IH; lia.
Qed.

Lemma render_total path buffer_size :
  path_wf path -> pathlib_render_str_to_buffer path buffer_size <> None.
Proof.
  intros Hwf. unfold pathlib_render_str_to_buffer.
  destruct (size path =? 0)%N eqn:Hsz.
  - destruct (buffer_size <? 1)%N; discriminate.
  - apply N.eqb_neq in Hsz. apply render_loop_total; [assumption|lia|lia].
Qed.

(** *** [pathlib_is_dir] *)

Lemma is_dir_post path w r w1 :
  pathlib_is_dir pf fs path w = Some (r, w1) ->
  (exists evs, calls w1 = calls w ++ evs /\ Forall stat_call evs) /\
  ((r = 0 /\ ~ denotes_directory pf fs path)
   \/ (r = 1 /\ denotes_directory pf fs path /\ pathlib_error w1 = PATHLIB_NONE)).
Proof.
  unfold pathlib_is_dir, pathlib_exists, denotes_directory.
  destruct (pathlib_render_str_to_buffer path (PATHLIB_MAX_PATH pf)) as [[filename|]|];
    [| |discriminate].
  - destruct (fs_access fs filename) eqn:Hacc; simpl.
    + destruct (fs_stat fs filename) as [ty|] eqn:Hstat.
      * intros [= <- <-]. split.
        -- exists [EvAccess filename; EvStat filename]. simpl.
           split; [now rewrite <- app_assoc | repeat constructor].
        -- destruct ty; simpl.
           ++ right. split; [reflexivity|]. split; [|reflexivity]. eauto.
           ++ left. split; [reflexivity|]. intros (f & [= <-] & _ & Hs). congruence.
           ++ left. split; [reflexivity|]. intros (f & [= <-] & _ & Hs). congruence.
      * intros [= <- <-]. split.
        -- exists [EvAccess filename; EvStat filename]. simpl.
           split; [now rewrite <- app_assoc | repeat constructor].
        -- left. split; [reflexivity|]. intros (f & [= <-] & _ & Hs). congruence.
    + intros [= <- <-]. split.
      * exists [EvAccess filename]. split; [reflexivity | repeat constructor].
      * left. split; [reflexivity|]. intros (f & [= <-] & Ha & _). congruence.
  - simpl. intros [= <- <-]. split.
    + exists []. split; [now rewrite app_nil_r | constructor].
    + left. split; [reflexivity|]. intros (f & Hf & _). discriminate.
Qed.

Lemma is_dir_total path w :
  path_wf path -> pathlib_is_dir pf fs path w <> None.
Proof.
  intros Hwf. unfold pathlib_is_dir, pathlib_exists.
  pose proof (render_total path (PATHLIB_MAX_PATH pf) Hwf) as Hr.
  destruct (pathlib_render_str_to_buffer path (PATHLIB_MAX_PATH pf)) as [[filename|]|];
    [| |congruence]; simpl.
  - destruct (fs_access fs filename); simpl; [|discriminate].
    destruct (fs_stat fs filename) as [ty|]; discriminate.
  - discriminate.
Qed.

Lemma stat_call_not_opendir evs p : Forall stat_call evs -> ~ In (EvOpendir p) evs.
Proof.
  intros Hall Hin. rewrite Forall_forall in Hall. exact (Hall _ Hin).
Qed.

Lemma stat_call_not_fnmatch evs f n : Forall stat_call evs -> ~ In (EvFnmatch f n) evs.
Proof.
  intros Hall Hin. rewrite Forall_forall in Hall. exact (Hall _ Hin).
Qed.

Lemma paths_wf_empty : paths_wf paths_empty.
Proof. reflexivity. Qed.

Lemma paths_free_empty ps :
  paths_wf ps ->
  paths_list (pathlib_paths_free ps) = [] /\ paths_size (pathlib_paths_free ps) = 0%N.
Proof.
  unfold paths_wf, pathlib_paths_free, paths_list.
  destruct (paths ps) eqn:Hp; simpl; [auto|].
  rewrite Hp. auto.
Qed.

(** what a whole walk does *)
Lemma glob_with_post recursive fuel path pattern w results w' :
  glob_with pf fs recursive fuel path pattern w = Some (results, w') ->
  exists evs,
    calls w' = calls w ++ evs /\
    Forall (matched_entry pf fs pattern) (paths_list results) /\
    (forall fullpath name, In (EvFnmatch fullpath name) evs -> file_entry pf fs fullpath name) /\
    (forall p, In (EvOpendir p) evs ->
               denotes_directory pf fs path /\
               (recursive = 0 ->
                pathlib_render_str_to_buffer path (PATHLIB_MAX_PATH pf) = Some (Some p))) /\
    ((exists p, In (EvOpendir p) evs /\ fs_opendir fs p = None) ->
     paths_list results = [] /\ paths_size results = 0%N /\
     pathlib_error w' = PATHLIB_OSERROR) /\
    ((forall p, In (EvOpendir p) evs -> fs_opendir fs p <> None) ->
     (denotes_directory pf fs path -> pathlib_error w' = PATHLIB_NONE) /\
     (~ denotes_directory pf fs path ->
      pathlib_error w' = PATHLIB_NEXISTS /\ paths_list results = [] /\
      forall p, ~ In (EvOpendir p) evs)).
Proof.
  unfold glob_with.
  destruct (pathlib_is_dir pf fs path (set_error PATHLIB_NONE w)) as [[r w1]|] eqn:Hdir;
    [|discriminate].
  apply is_dir_post in Hdir. destruct Hdir as [(evs0 & Hc0 & Hstat0) Hr]. simpl in Hc0.
  assert (Hnot : ~ denotes_directory pf fs path ->
                 forall w2, calls w2 = calls w1 ->
                 pathlib_error w2 = PATHLIB_NEXISTS ->
                 exists evs,
                   calls w2 = calls w ++ evs /\
                   Forall (matched_entry pf fs pattern) (paths_list paths_empty) /\
                   (forall fullpath name, In (EvFnmatch fullpath name) evs ->
                                          file_entry pf fs fullpath name) /\
                   (forall p, In (EvOpendir p) evs ->
                              denotes_directory pf fs path /\
                              (recursive = 0 ->
                               pathlib_render_str_to_buffer path (PATHLIB_MAX_PATH pf)
                               = Some (Some p))) /\
                   ((exists p, In (EvOpendir p) evs /\ fs_opendir fs p = None) ->
                    paths_list paths_empty = [] /\ paths_size paths_empty = 0%N /\
                    pathlib_error w2 = PATHLIB_OSERROR) /\
                   ((forall p, In (EvOpendir p) evs -> fs_opendir fs p <> None) ->
                    (denotes_directory pf fs path -> pathlib_error w2 = PATHLIB_NONE) /\
                    (~ denotes_directory pf fs path ->
                     pathlib_error w2 = PATHLIB_NEXISTS /\ paths_list paths_empty = [] /\
                     forall p, ~ In (EvOpendir p) evs))).
  { intros Hnd w2 Hc2 He2. exists evs0. split; [congruence|].
    split; [constructor|].
    split; [intros f n Hin; now apply stat_call_not_fnmatch in Hin|].
    split; [intros p Hin; now apply stat_call_not_opendir in Hin|].
    split; [intros (p & Hin & _); now apply stat_call_not_opendir in Hin|].
    intros _. split; [intros Hd; contradiction|].
    intros _. split; [assumption|]. split; [reflexivity|].
    intros p. now apply stat_call_not_opendir. }
  destruct Hr as [[-> Hnd] | (-> & Hd & Herr1)]; simpl.
  { intros [= <- <-]. now apply Hnot. }
  destruct (pathlib_render_str_to_buffer path (PATHLIB_MAX_PATH pf)) as [[fullpath|]|] eqn:Hrender;
    [| |discriminate].
  2:{ destruct Hd as (f & Hf & _). congruence. }
  destruct (pathlib__recursive_glob pf fs fuel fullpath pattern recursive paths_empty w1)
    as [[[r results1] w2]|] eqn:Hrun; [|discriminate].
  apply recursive_glob_post in Hrun; [|apply paths_wf_empty].
  destruct Hrun as (evs & added & [Hwf Hc Hp Ha Hf Ho Hflag]).
  simpl in Hp.
  assert (Hcalls : calls w2 = calls w ++ evs0 ++ evs) by (rewrite Hc, Hc0; now rewrite app_assoc).
  assert (Hfn : forall f n, In (EvFnmatch f n) (evs0 ++ evs) -> file_entry pf fs f n).
  { intros f n Hin. apply in_app_or in Hin. destruct Hin as [Hin | Hin]; [|eauto].
    now apply stat_call_not_fnmatch in Hin. }
  assert (Hop : forall p, In (EvOpendir p) (evs0 ++ evs) -> In (EvOpendir p) evs).
  { intros p Hin. apply in_app_or in Hin. destruct Hin as [Hin | Hin]; [|assumption].
    now apply stat_call_not_opendir in Hin. }
  assert (Hroot : forall p, In (EvOpendir p) (evs0 ++ evs) ->
                            denotes_directory pf fs path /\
                            (recursive = 0 -> Some (Some fullpath) = Some (Some p))).
  { intros p Hin. split; [assumption|]. intros Hz.
    apply Hop, Ho in Hin. destruct Hin as [-> | Hnz]; [reflexivity | contradiction]. }
  destruct Hflag as [(-> & Herr & p & Hin & Hnone) | (-> & Herr & Hok)]; simpl;
    intros [= <- <-]; exists (evs0 ++ evs).
  - destruct (paths_free_empty results1 Hwf) as [Hl Hs].
    split; [assumption|]. split; [rewrite Hl; constructor|].
    split; [assumption|]. split; [assumption|].
    split; [intros _; auto|].
    intros Hall. exfalso. apply (Hall p); [|assumption]. apply in_or_app. now right.
  - split; [assumption|]. split; [now rewrite Hp|].
    split; [assumption|]. split; [assumption|].
    split.
    + intros (p & Hin & Hnone). apply Hop in Hin. now apply Hok in Hin.
    + intros _. split; [intros _; congruence|]. intros Hnd. contradiction.
Qed.

Lemma glob_with_total recursive fuel path pattern w :
  path_wf path -> matcher_total pf pattern ->
  (forall root, pathlib_render_str_to_buffer path (PATHLIB_MAX_PATH pf) = Some (Some root) ->
                depth_below pf fs fuel recursive root = true) ->
  glob_with pf fs recursive fuel path pattern w <> None.
Proof.
  intros Hwf Htotal Hdepth. unfold glob_with.
  pose proof (is_dir_total path (set_error PATHLIB_NONE w) Hwf) as Hd.
  destruct (pathlib_is_dir pf fs path (set_error PATHLIB_NONE w)) as [[r w1]|];
    [|congruence].
  destruct (r =? 0); [discriminate|].
  pose proof (render_total path (PATHLIB_MAX_PATH pf) Hwf) as Hr.
  destruct (pathlib_render_str_to_buffer path (PATHLIB_MAX_PATH pf)) as [[fullpath|]|];
    [| discriminate | congruence].
  pose proof (recursive_glob_total fuel pattern recursive Htotal fullpath paths_empty w1
                (Hdepth fullpath eq_refl)) as Hrun.
  destruct (pathlib__recursive_glob pf fs fuel fullpath pattern recursive paths_empty w1)
    as [[[r1 results1] w2]|]; [|congruence].
  destruct (r1 =? 0); discriminate.
Qed.

End WalkerProofs.

(** ** The matcher *)

Section FnmatchProofs.

Variable pf : platform.

Lemma size_sub_diag n : size_sub n n = 0%N.
Proof.
  unfold size_sub.
  assert (Hpos : (SIZE_MAX + 1 <> 0)%N) by (unfold SIZE_MAX; lia).
  pose proof (N.mod_upper_bound n (SIZE_MAX + 1) Hpos) as Hlt.
  pose proof (N.div_mod n (SIZE_MAX + 1) Hpos) as Hdm.
  replace (n + (SIZE_MAX + 1) - n mod (SIZE_MAX + 1))%N
    with ((1 + n / (SIZE_MAX + 1)) * (SIZE_MAX + 1))%N by lia.
  now apply N.Div0.mod_mul.
Qed.

Lemma size_sub_small a b :
  (b <= a)%N -> (a <= SIZE_MAX)%N -> size_sub a b = (a - b)%N.
Proof.
  intros Hb Ha. unfold size_sub.
  rewrite (N.mod_small b) by lia.
  replace (a + (SIZE_MAX + 1) - b)%N with ((a - b) + 1 * (SIZE_MAX + 1))%N by lia.
  rewrite N.Div0.mod_add. apply N.mod_small. lia.
Qed.

Lemma uchar_range c : 0 <= uchar c < 256.
Proof.
  unfold uchar. pose proof (N_ascii_bounded c). lia.
Qed.

Lemma uchar_inj a b : uchar a = uchar b -> a = b.
Proof.
  unfold uchar. intros H. apply N2Z.inj in H.
  rewrite <- (ascii_N_embedding a), <- (ascii_N_embedding b). now rewrite H.
Qed.

Lemma char_to_int_inj a b : char_to_int pf a = char_to_int pf b -> a = b.
Proof.
  unfold char_to_int. intros H. apply uchar_inj.
  pose proof (uchar_range a). pose proof (uchar_range b).
  destruct (char_signed pf); simpl in H;
    destruct (128 <=? uchar a) eqn:Ha; destruct (128 <=? uchar b) eqn:Hb;
    try apply Z.leb_le in Ha; try apply Z.leb_gt in Ha;
    try apply Z.leb_le in Hb; try apply Z.leb_gt in Hb; lia.
Qed.

Lemma char_at_nil i : char_at [] i = NUL.
Proof. unfold char_at. now destruct (N.to_nat i). Qed.

Lemma char_at_0 c s : char_at (c :: s) 0 = c.
Proof. reflexivity. Qed.

Lemma char_at_beyond s i : (N.of_nat (length s) <= i)%N -> char_at s i = NUL.
Proof. intros H. unfold char_at. apply nth_overflow. lia. Qed.

Lemma char_at_in s i c : char_at s i = c -> c <> NUL -> In c s.
Proof.
  unfold char_at. intros H Hc.
  destruct (Nat.lt_ge_cases (N.to_nat i) (length s)) as [Hlt | Hge].
  - rewrite <- H. now apply nth_In.
  - rewrite nth_overflow in H by assumption. congruence.
Qed.

Lemma char_to_int_nul : char_to_int pf NUL = 0.
Proof. unfold char_to_int. now rewrite andb_false_r. Qed.

Lemma str_next_nil n :
  pathlib__str_next pf [] n = (0, if (n =? 0)%N then 0%N else 1%N).
Proof.
  unfold pathlib__str_next. destruct (n =? 0)%N; [reflexivity|].
  now rewrite char_at_nil, char_to_int_nul.
Qed.

(** *** The pattern [*] *)

Lemma pat_next_nil m : pathlib__pat_next pf [] m = (END, 0%N).
Proof.
  unfold pathlib__pat_next. rewrite char_at_nil.
  now rewrite orb_true_r.
Qed.

Lemma pat_next_bound_0 pat : pathlib__pat_next pf pat 0 = (END, 0%N).
Proof. reflexivity. Qed.

Lemma pat_next_star rest m :
  m <> 0%N -> pathlib__pat_next pf ("*"%char :: rest) m = (STAR, 1%N).
Proof.
  intros Hm. unfold pathlib__pat_next. rewrite char_at_0.
  apply N.eqb_neq in Hm. now rewrite Hm.
Qed.

Lemma find_tail_done fuel pat endpat p ptail tailcnt :
  (endpat <= p)%N ->
  find_tail pf (S fuel) pat endpat p ptail tailcnt = Some (TailAt ptail tailcnt).
Proof.
  intros H. simpl. apply N.ltb_ge in H. now rewrite H.
Qed.

Lemma tail_back_0 fuel str s : tail_back pf fuel str s 0 = (s, 0%N).
Proof.
  destruct fuel; simpl; [reflexivity|]. now rewrite andb_false_r.
Qed.

Lemma str_next_0 str : pathlib__str_next pf str 0 = (0, 0%N).
Proof. reflexivity. Qed.

Lemma tail_check_end fuel pat endpat p str endstr :
  fst (pathlib__pat_next pf (advance pat p) (size_sub endpat p)) = END ->
  tail_check pf (S fuel) pat endpat p str endstr endstr = Some true.
Proof.
  intros Hc. simpl.
  destruct (pathlib__pat_next pf (advance pat p) (size_sub endpat p)) as [c pinc].
  simpl in Hc. subst c.
  now rewrite size_sub_diag, str_next_0.
Qed.

Lemma components_done fuel pat endpat p str endstr s :
  (endpat <= p)%N ->
  components pf (S fuel) pat endpat p str endstr s = Some 0.
Proof.
  intros H. simpl. apply N.ltb_ge in H. now rewrite H.
Qed.

Lemma fnmatch_after_star_nil str : fnmatch_after_star pf [] str = Some 0.
Proof.
  unfold fnmatch_after_star.
  change (strlen []) with 0%N. change (length (@nil ascii)) with 0%nat.
  rewrite find_tail_done by lia.
  assert (Hn : (strlen str <? 0)%N = false) by (apply N.ltb_ge; lia).
  rewrite Hn, tail_back_0. cbv iota beta. change (negb (0 =? 0)%N) with false. cbv iota.
  rewrite tail_check_end by (now rewrite pat_next_bound_0).
  now rewrite components_done by lia.
Qed.

(** the pattern [*] matches every name *)
Lemma fnmatch_star name : pathlib__fnmatch pf (cstr "*") name = Some 0.
Proof.
  unfold pathlib__fnmatch, pathlib__fnmatch_internal. simpl.
  apply fnmatch_after_star_nil.
Qed.

Lemma star_total : matcher_total pf (cstr "*").
Proof. intros name. now rewrite fnmatch_star. Qed.

End FnmatchProofs.

(** ** Paths *)

Lemma Forall_firstn {A : Type} (P : A -> Prop) (n : nat) (l : list A) :
  Forall P l -> Forall P (firstn n l).
Proof.
  intros H. revert n. induction H; intros [|n]; simpl; constructor; auto.
Qed.

Lemma Forall_skipn {A : Type} (P : A -> Prop) (n : nat) (l : list A) :
  Forall P l -> Forall P (skipn n l).
Proof.
  intros H. revert n. induction H; intros [|n]; simpl; auto.
Qed.

Lemma Forall_array_store {A : Type} (P : A -> Prop) (a : list A) (i : N) (x : A) :
  Forall P a -> P x -> Forall P (array_store a i x).
Proof.
  intros Ha Hx. unfold array_store. apply Forall_app. split.
  - now apply Forall_firstn.
  - constructor; [assumption|]. now apply Forall_skipn.
Qed.

Lemma sep_free_snoc start c : sep_free start -> is_sep c = false -> sep_free (start ++ [c]).
Proof.
  intros Hs Hc. apply Forall_app. split; [assumption|]. now constructor.
Qed.

Lemma from_str_loop_sep_free temp :
  forall start path,
    sep_free start -> sep_free_path path -> sep_free_path (from_str_loop temp start path).
Proof.
  unfold sep_free_path.
  induction temp as [|c temp IH]; intros start path Hstart Hpath; simpl.
  - now apply Forall_array_store.
  - destruct (is_sep c) eqn:Hsep.
    + apply IH; [constructor|]. simpl. now apply Forall_array_store.
    + destruct (is_nul c).
      * simpl. now apply Forall_array_store.
      * apply IH; [|assumption]. now apply sep_free_snoc.
Qed.

Lemma from_str_sep_free s : sep_free_path (pathlib_from_str s).
Proof.
  unfold pathlib_from_str. apply from_str_loop_sep_free; constructor.
Qed.

Lemma segments_sep_free path segs :
  segments path = Some segs -> sep_free_path path -> Forall sep_free segs.
Proof.
  unfold segments, sep_free_path.
  destruct (size path <=? N.of_nat (length (parts path)))%N; [|discriminate].
  intros [= <-] Hall. now apply Forall_firstn.
Qed.

Lemma add_part_sep_free path part path' :
  pathlib_add_part path part = Some path' ->
  sep_free_path path -> sep_free part -> sep_free_path path'.
Proof.
  unfold pathlib_add_part. intros Hadd Hpath Hpart.
  destruct (capacity path <=? size path)%N.
  - destruct (segments path) as [segs|] eqn:Hsegs; [|discriminate].
    destruct (size path <? _)%N; [|discriminate].
    injection Hadd as <-. unfold sep_free_path. simpl.
    apply Forall_array_store; [|assumption]. eapply segments_sep_free; eassumption.
  - destruct (size path <=? N.of_nat (length (parts path)))%N; [|discriminate].
    injection Hadd as <-. unfold sep_free_path. simpl.
    now apply Forall_array_store.
Qed.

Lemma add_parts_sep_free ps :
  forall ret ret',
    add_parts ret ps = Some ret' ->
    sep_free_path ret -> Forall sep_free ps -> sep_free_path ret'.
Proof.
  induction ps as [|part ps IH]; intros ret ret' Hadd Hret Hps; simpl in Hadd.
  - now injection Hadd as <-.
  - destruct (pathlib_add_part ret part) as [ret1|] eqn:H1; [|discriminate].
    inversion Hps; subst.
    eapply IH; [eassumption| |assumption].
    eapply add_part_sep_free; eassumption.
Qed.

Lemma held_in path seg : held path seg -> In seg (parts path).
Proof.
  intros (i & _ & Hnth). eapply nth_error_In; eassumption.
Qed.

(** *** Parsing and rendering *)

Lemma strlen_c_bytes s : strlen s = N.of_nat (length (c_bytes s)).
Proof.
  induction s as [|c s IH]; simpl; [reflexivity|].
  destruct (is_nul c); simpl; [reflexivity|]. rewrite IH. lia.
Qed.

Lemma c_bytes_nul_free s : nul_free s -> c_bytes s = s.
Proof.
  induction 1 as [|c s Hc _ IH]; simpl; [reflexivity|]. now rewrite Hc, IH.
Qed.

Lemma is_sep_not_nul c : is_sep c = true -> is_nul c = false.
Proof.
  unfold is_sep, is_nul. intros H. apply orb_true_iff in H.
  destruct H as [H | H]; apply Ascii.eqb_eq in H; now subst c.
Qed.

Lemma to_ushort_small n : (n < 65536)%N -> to_ushort n = n.
Proof. intros H. unfold to_ushort. now apply N.mod_small. Qed.

Lemma array_store_end {A : Type} (a : list A) (x : A) :
  array_store a (N.of_nat (length a)) x = a ++ [x].
Proof.
  unfold array_store. rewrite Nat2N.id, firstn_all.
  now rewrite skipn_all2 by lia.
Qed.

Lemma store_part_end path start :
  size path = N.of_nat (length (parts path)) ->
  (size path + 1 < 65536)%N ->
  store_part path start
  = {| parts := parts path ++ [start]; size := size path + 1; capacity := capacity path |}.
Proof.
  intros Hsize Hsmall. unfold store_part.
  rewrite to_ushort_small by assumption.
  now rewrite Hsize, array_store_end.
Qed.

Lemma length_split_segments temp :
  forall start, N.of_nat (length (split_segments temp start)) = (1 + count_seps temp)%N.
Proof.
  induction temp as [|c temp IH]; intros start; cbn [split_segments count_seps];
    [reflexivity|].
  destruct (is_sep c) eqn:Hsep.
  - rewrite (is_sep_not_nul c Hsep). cbn [length]. rewrite Nat2N.inj_succ, IH. lia.
  - destruct (is_nul c); [reflexivity|]. apply IH.
Qed.

(** while [size] does not wrap around, the loop appends the segments *)
Lemma from_str_loop_split temp :
  forall start path,
    size path = N.of_nat (length (parts path)) ->
    (size path + N.of_nat (length (split_segments temp start)) < 65536)%N ->
    from_str_loop temp start path
    = {| parts := parts path ++ split_segments temp start;
         size := size path + N.of_nat (length (split_segments temp start));
         capacity := capacity path |}.
Proof.
  induction temp as [|c temp IH]; intros start path Hsize Hsmall;
    cbn [from_str_loop split_segments] in *.
  - cbn [length] in *. apply store_part_end; [assumption|lia].
  - destruct (is_sep c).
    + cbn [length] in *. rewrite Nat2N.inj_succ in *.
      rewrite IH; rewrite store_part_end by (assumption || lia); cbn [parts size capacity].
      * rewrite <- app_assoc. cbn [app]. f_equal. lia.
      * rewrite length_app. cbn [length]. lia.
      * lia.
    + destruct (is_nul c).
      * now apply store_part_end.
      * now apply IH.
Qed.

Lemma size_from_str_loop temp :
  forall start path,
    size (from_str_loop temp start path) = to_ushort (size path + 1 + count_seps temp).
Proof.
  induction temp as [|c temp IH]; intros start path; simpl.
  - f_equal. lia.
  - destruct (is_sep c) eqn:Hsep.
    + rewrite (is_sep_not_nul c Hsep), IH. simpl. unfold to_ushort.
      rewrite <- N.add_assoc, N.Div0.add_mod_idemp_l. f_equal. lia.
    + destruct (is_nul c); simpl.
      * f_equal. lia.
      * apply IH.
Qed.

Lemma size_from_str s : size (pathlib_from_str s) = to_ushort (1 + count_seps s).
Proof.
  unfold pathlib_from_str. rewrite size_from_str_loop. simpl. f_equal.
Qed.

Lemma to_str_empty path : size path = 0%N -> pathlib_to_str path = Some [].
Proof.
  intros Hsize. unfold pathlib_to_str, segments. rewrite Hsize.
  assert (Hle : (0 <=? N.of_nat (length (parts path)))%N = true) by (apply N.leb_le; lia).
  now rewrite Hle.
Qed.

Lemma split_segments_nul_free temp :
  forall start, nul_free start -> Forall nul_free (split_segments temp start).
Proof.
  induction temp as [|c temp IH]; intros start Hstart; simpl.
  - now repeat constructor.
  - destruct (is_sep c).
    + constructor; [assumption|]. apply IH. constructor.
    + destruct (is_nul c) eqn:Hnul.
      * now repeat constructor.
      * apply IH. apply Forall_app. split; [assumption|]. now repeat constructor.
Qed.

Lemma split_segments_sep_free temp :
  forall start, sep_free start -> Forall sep_free (split_segments temp start).
Proof.
  induction temp as [|c temp IH]; intros start Hstart; simpl.
  - now repeat constructor.
  - destruct (is_sep c) eqn:Hsep.
    + constructor; [assumption|]. apply IH. constructor.
    + destruct (is_nul c).
      * now repeat constructor.
      * apply IH. now apply sep_free_snoc.
Qed.

(** writing every segment with a separator after it gives the string,
    normalised, and one separator more *)
Lemma render_split_segments temp :
  forall start,
    nul_free start ->
    flat_map (fun part => c_bytes part ++ ["/"%char]) (split_segments temp start)
    = start ++ map normalize_sep (c_bytes temp) ++ ["/"%char].
Proof.
  induction temp as [|c temp IH]; intros start Hstart; simpl.
  - now rewrite c_bytes_nul_free, app_nil_r.
  - destruct (is_sep c) eqn:Hsep.
    + rewrite (is_sep_not_nul c Hsep). simpl.
      rewrite IH by constructor. rewrite c_bytes_nul_free by assumption.
      unfold normalize_sep at 2. rewrite Hsep. rewrite <- app_assoc. reflexivity.
    + destruct (is_nul c) eqn:Hnul; simpl.
      * now rewrite c_bytes_nul_free, app_nil_r.
      * rewrite IH.
        -- unfold normalize_sep at 2. rewrite Hsep. now rewrite <- app_assoc.
        -- apply Forall_app. split; [assumption|]. now repeat constructor.
Qed.

Lemma total_size_sum segs :
  forall acc,
    (fold_left (fun acc part => acc + strlen part) segs acc + N.of_nat (length segs)
     = acc + N.of_nat (length (flat_map (fun part => c_bytes part ++ ["/"%char]) segs)))%N.
Proof.
  induction segs as [|part segs IH]; intros acc; simpl.
  - lia.
  - specialize (IH (acc + strlen part)%N).
    rewrite !length_app, strlen_c_bytes in *. simpl. lia.
Qed.

Lemma from_str_split s :
  (count_seps s < 65535)%N ->
  pathlib_from_str s
  = {| parts := split_segments s [];
       size := N.of_nat (length (split_segments s []));
       capacity := to_ushort (1 + count_seps s) |}.
Proof.
  intros Hcount. unfold pathlib_from_str.
  pose proof (length_split_segments s []) as Hlen.
  rewrite from_str_loop_split; cbn [parts size capacity length app].
  - now rewrite N.add_0_l.
  - reflexivity.
  - lia.
Qed.

Lemma to_str_parts segs cap rendered :
  segs <> [] ->
  flat_map (fun part => c_bytes part ++ ["/"%char]) segs = rendered ++ ["/"%char] ->
  pathlib_to_str {| parts := segs; size := N.of_nat (length segs); capacity := cap |}
  = Some rendered.
Proof.
  intros Hne Hflat. unfold pathlib_to_str, segments. cbn [parts size].
  rewrite N.leb_refl, Nat2N.id, firstn_all.
  pose proof (total_size_sum segs 0%N) as Hsum.
  rewrite Hflat, length_app in Hsum. cbn [length] in Hsum.
  assert (Hlen : (0 < N.of_nat (length segs))%N) by (destruct segs; [congruence|simpl; lia]).
  assert (Hpos : (0 <? N.of_nat (length segs))%N = true) by now apply N.ltb_lt.
  assert (Hnz : (N.of_nat (length segs) =? 0)%N = false) by (apply N.eqb_neq; lia).
  rewrite Hpos, Hnz, Hflat. f_equal.
  replace (N.to_nat _) with (length rendered) by lia.
  rewrite firstn_app, Nat.sub_diag, firstn_all. apply app_nil_r.
Qed.

Lemma split_segments_not_nil temp start : split_segments temp start <> [].
Proof.
  pose proof (length_split_segments temp start) as Hlen.
  destruct (split_segments temp start); [cbn [length] in Hlen; lia | discriminate].
Qed.

Lemma to_str_from_str s :
  (count_seps s < 65535)%N ->
  pathlib_to_str (pathlib_from_str s) = Some (map normalize_sep (c_bytes s)).
Proof.
  intros Hcount. rewrite from_str_split by assumption.
  apply to_str_parts; [apply split_segments_not_nil|].
  now rewrite render_split_segments by constructor.
Qed.

Lemma last_app_r {A : Type} (l l' : list A) (d : A) :
  l' <> [] -> last (l ++ l') d = last l' d.
Proof.
  intros Hne. induction l as [|x l IH]; [reflexivity|].
  simpl. destruct (l ++ l') eqn:Happ; [|assumption].
  apply app_eq_nil in Happ. now destruct Happ.
Qed.

Lemma last_not_sep seg :
  seg <> [] -> sep_free seg -> last seg NUL <> "/"%char.
Proof.
  intros Hne Hfree Hlast.
  destruct (exists_last Hne) as (seg' & c & ->).
  rewrite last_last in Hlast. subst c.
  apply Forall_app in Hfree. destruct Hfree as [_ Hc].
  inversion Hc; subst. discriminate.
Qed.

Lemma to_str_no_trailing_sep s r :
  (count_seps s < 65535)%N ->
  no_empty_segment s = true ->
  pathlib_to_str (pathlib_from_str s) = Some r ->
  r <> [] /\ last r NUL <> "/"%char.
Proof.
  intros Hcount Hne. rewrite to_str_from_str by assumption. intros [= <-].
  unfold no_empty_segment in Hne. rewrite forallb_forall in Hne.
  pose proof (render_split_segments s [] (Forall_nil _)) as Hrender. simpl in Hrender.
  pose proof (split_segments_sep_free s [] (Forall_nil _)) as Hfree.
  pose proof (split_segments_nul_free s [] (Forall_nil _)) as Hnul.
  pose proof (split_segments_not_nil s []) as Hsplit.
  destruct (exists_last Hsplit) as (segs & seg & Heq).
  rewrite Heq in *.
  assert (Hseg : seg <> []).
  { assert (Hin : In seg (segs ++ [seg])) by (apply in_or_app; right; now left).
    specialize (Hne seg Hin). destruct seg; discriminate. }
  apply Forall_app in Hfree. destruct Hfree as [_ Hfree]. inversion Hfree; subst.
  apply Forall_app in Hnul. destruct Hnul as [_ Hnul]. inversion Hnul; subst.
  rewrite flat_map_app in Hrender. simpl in Hrender.
  rewrite app_nil_r, c_bytes_nul_free, app_assoc in Hrender by assumption.
  apply app_inj_tail in Hrender. destruct Hrender as [Hrender _].
  rewrite <- Hrender. split.
  - destruct seg; [congruence|]. intros Happ. apply app_eq_nil in Happ. now destruct Happ.
  - rewrite last_app_r by assumption.
    now apply last_not_sep.
Qed.

(** ** Unterminated brackets *)

Section MatcherProofs.

Variable pf : platform.

Lemma if_bounds (b : bool) (x y lo hi : N) :
  (b = true -> (lo <= x <= hi)%N) -> (b = false -> (lo <= y <= hi)%N) ->
  (lo <= (if b then x else y) <= hi)%N.
Proof. destruct b; auto. Qed.

Lemma class_skip_bounds fuel pat m z :
  forall k, (k <= m)%N ->
            (k <= class_skip fuel pat m z k <= m)%N.
Proof.
  induction fuel as [|fuel IH]; intros k Hk; simpl; [lia|].
  destruct (_ && _) eqn:Hcond; [|lia].
  apply andb_true_iff in Hcond. destruct Hcond as [Hcond _].
  apply andb_true_iff in Hcond. destruct Hcond as [Hlt _].
  apply N.ltb_lt in Hlt.
  specialize (IH (k + 1)%N). lia.
Qed.

(** *** The scan for the closing bracket and the reading of the items *)

Lemma skipn_cons_nth {A : Type} (d : A) :
  forall n (l : list A) x s,
    skipn n l = x :: s -> nth n l d = x /\ skipn (S n) l = s.
Proof.
  induction n as [|n IH]; intros [|y l] x s H; simpl in H; try discriminate.
  - injection H as -> ->. split; reflexivity.
  - apply IH in H. exact H.
Qed.

Lemma advance_cons pat k c s :
  advance pat k = c :: s -> char_at pat k = c /\ advance pat (k + 1) = s.
Proof.
  unfold advance, char_at. intros H. apply (skipn_cons_nth NUL) in H.
  replace (N.to_nat (k + 1)) with (S (N.to_nat k)) by lia. exact H.
Qed.

Lemma advance_nil pat k : advance pat k = [] -> char_at pat k = NUL.
Proof.
  intros H. apply char_at_beyond. apply (f_equal (@length _)) in H.
  unfold advance in H. rewrite length_skipn in H. simpl in H. lia.
Qed.

Lemma items_closed_cons c rest :
  items_closed (c :: rest)
  = if is_nul c then false
    else if Ascii.eqb c "]" then true
    else if Ascii.eqb c "[" then
      match rest with
      | [] => false
      | z :: body =>
          if is_class_intro z then
            match body with
            | [] => false
            | c0 :: body' => if is_nul c0 then false else element_closed z c0 body'
            end
          else items_closed rest
      end
    else items_closed rest.
Proof. reflexivity. Qed.

Lemma element_closed_cons z prev c rest :
  element_closed z prev (c :: rest)
  = if is_nul c then false
    else if Ascii.eqb prev z && Ascii.eqb c "]" then items_closed rest
    else element_closed z c rest.
Proof. reflexivity. Qed.

Lemma class_skip_stop fuel pat m z k :
  is_nul (char_at pat k) = true -> class_skip fuel pat m z k = k.
Proof.
  intros Hnul. destruct fuel as [|fuel]; [reflexivity|]. cbn [class_skip].
  rewrite Hnul. cbn [negb]. now rewrite andb_false_r.
Qed.

Lemma class_skip_at_bound fuel pat m z : class_skip fuel pat m z m = m.
Proof.
  destruct fuel as [|fuel]; [reflexivity|]. cbn [class_skip].
  now rewrite N.ltb_irrefl.
Qed.

Lemma bracket_scan_at_bound fuel pat m : bracket_scan fuel pat m m = m.
Proof.
  destruct fuel as [|fuel]; [reflexivity|]. cbn [bracket_scan].
  now rewrite N.ltb_irrefl.
Qed.

(** the loop that skips an element stops at the bound, at the end of the
    pattern, or on the bracket that ends the element *)
Lemma class_skip_spec z pat m :
  forall fuel k,
    (1 <= k <= m)%N -> (length (advance pat k) < fuel)%nat ->
    class_skip fuel pat m z k = m
    \/ (is_nul (char_at pat (class_skip fuel pat m z k)) = true /\
        element_closed z (char_at pat (k - 1)) (advance pat k) = false)
    \/ ((class_skip fuel pat m z k < m)%N /\
        is_nul (char_at pat (class_skip fuel pat m z k)) = false /\
        element_closed z (char_at pat (k - 1)) (advance pat k)
        = items_closed (advance pat (class_skip fuel pat m z k + 1)) /\
        (length (advance pat (class_skip fuel pat m z k + 1)) < length (advance pat k))%nat).
Proof.
  induction fuel as [|fuel IH]; intros k Hk Hfuel; [lia|]. cbn [class_skip].
  destruct (advance pat k) as [|c s] eqn:Hadv.
  - pose proof (advance_nil _ _ Hadv) as Hc. rewrite Hc.
    change (is_nul NUL) with true. cbn [negb]. rewrite andb_false_r. cbn [andb].
    right. left. rewrite Hc. split; reflexivity.
  - destruct (advance_cons _ _ _ _ Hadv) as [Hc Hs]. rewrite Hc.
    destruct (k <? m)%N eqn:Hlt; cbn [andb].
    2:{ left. apply N.ltb_ge in Hlt. lia. }
    apply N.ltb_lt in Hlt.
    rewrite element_closed_cons.
    destruct (is_nul c) eqn:Hnul; cbn [negb andb].
    { right. left. rewrite Hc. now split. }
    destruct (Ascii.eqb (char_at pat (k - 1)) z) eqn:Hprev;
      destruct (Ascii.eqb c "]") eqn:Hclose; cbn [negb orb andb].
    + right. right. rewrite Hc, Hs. repeat split; try assumption. simpl. lia.
    + specialize (IH (k + 1)%N). rewrite Hs in IH.
      replace (k + 1 - 1)%N with k in IH by lia. rewrite Hc in IH.
      destruct IH as [Hm | [[Hend Hopen] | (Hm & Hin & Hrest & Hlen)]];
        [lia | simpl in Hfuel; lia | now left | right; left; now split |].
      right. right. repeat split; try assumption. simpl. lia.
    + specialize (IH (k + 1)%N). rewrite Hs in IH.
      replace (k + 1 - 1)%N with k in IH by lia. rewrite Hc in IH.
      destruct IH as [Hm | [[Hend Hopen] | (Hm & Hin & Hrest & Hlen)]];
        [lia | simpl in Hfuel; lia | now left | right; left; now split |].
      right. right. repeat split; try assumption. simpl. lia.
    + specialize (IH (k + 1)%N). rewrite Hs in IH.
      replace (k + 1 - 1)%N with k in IH by lia. rewrite Hc in IH.
      destruct IH as [Hm | [[Hend Hopen] | (Hm & Hin & Hrest & Hlen)]];
        [lia | simpl in Hfuel; lia | now left | right; left; now split |].
      right. right. repeat split; try assumption. simpl. lia.
Qed.

(** the scan stops at the bound, at the end of the pattern when the items
    have no closing bracket, or on the closing bracket *)
Lemma bracket_scan_spec pat m :
  forall fuel k,
    (k <= m)%N -> (length (advance pat k) < fuel)%nat ->
    bracket_scan fuel pat m k = m
    \/ (is_nul (char_at pat (bracket_scan fuel pat m k)) = true /\
        items_closed (advance pat k) = false)
    \/ ((bracket_scan fuel pat m k < m)%N /\
        is_nul (char_at pat (bracket_scan fuel pat m k)) = false /\
        char_at pat (bracket_scan fuel pat m k) = "]"%char /\
        items_closed (advance pat k) = true).
Proof.
  induction fuel as [|fuel IH]; intros k Hk Hfuel; [lia|]. cbn [bracket_scan].
  destruct (advance pat k) as [|c s] eqn:Hadv.
  { pose proof (advance_nil _ _ Hadv) as Hc. rewrite Hc.
    change (is_nul NUL) with true. cbn [negb]. rewrite andb_false_r. cbn [andb].
    right. left. rewrite Hc. split; reflexivity. }
  destruct (advance_cons _ _ _ _ Hadv) as [Hc Hs]. rewrite Hc.
  destruct (k <? m)%N eqn:Hlt; cbn [andb].
  2:{ left. apply N.ltb_ge in Hlt. lia. }
  apply N.ltb_lt in Hlt. rewrite items_closed_cons.
  destruct (is_nul c) eqn:Hnul; cbn [negb andb].
  { right. left. rewrite Hc. now split. }
  destruct (Ascii.eqb c "]") eqn:Hclose; cbn [negb andb].
  { right. right. rewrite Hc. apply Ascii.eqb_eq in Hclose. now repeat split. }
  cbn [length] in Hfuel.
  destruct s as [|z s1].
  { (* the pattern ends after [c] *)
    pose proof (advance_nil _ _ Hs) as Hz. rewrite Hz.
    change (is_nul NUL) with true. cbn [negb]. rewrite andb_false_r. cbn [andb].
    specialize (IH (k + 1)%N). rewrite Hs in IH.
    replace (if Ascii.eqb c "[" then false else items_closed []) with false
      by (destruct (Ascii.eqb c "["); reflexivity).
    apply IH; [lia | simpl; lia]. }
  destruct (advance_cons _ _ _ _ Hs) as [Hz Hs1]. rewrite Hz.
  destruct (k + 1 <? m)%N eqn:Hlt1; cbn [andb].
  2:{ left. apply N.ltb_ge in Hlt1. replace (k + 1)%N with m by lia.
      apply bracket_scan_at_bound. }
  apply N.ltb_lt in Hlt1.
  destruct (negb (is_nul z) && Ascii.eqb c "[" && is_class_intro z) eqn:Helem.
  - (* an element opens at [k] *)
    apply andb_true_iff in Helem. destruct Helem as [Helem Hintro].
    apply andb_true_iff in Helem. destruct Helem as [Hznul Hopen].
    rewrite Hopen, Hintro. cbv zeta.
    replace (k + 2)%N with (k + 1 + 1)%N by lia.
    destruct s1 as [|c0 s2].
    { pose proof (advance_nil _ _ Hs1) as Hc0. rewrite Hc0.
      change (is_nul NUL) with true. cbn [negb]. rewrite andb_false_r.
      rewrite class_skip_stop by (rewrite Hc0; reflexivity).
      rewrite Hc0. change (is_nul NUL) with true. rewrite orb_true_r.
      right. left. rewrite Hc0. split; reflexivity. }
    destruct (advance_cons _ _ _ _ Hs1) as [Hc0 Hs2]. rewrite Hc0.
    destruct (k + 1 + 1 <? m)%N eqn:Hlt2; cbn [andb].
    2:{ apply N.ltb_ge in Hlt2. replace (k + 1 + 1)%N with m by lia.
        rewrite class_skip_at_bound, N.eqb_refl. now left. }
    apply N.ltb_lt in Hlt2.
    destruct (is_nul c0) eqn:Hnul0; cbn [negb].
    { rewrite class_skip_stop by (rewrite Hc0; assumption).
      rewrite Hc0, Hnul0, orb_true_r. right. left. rewrite Hc0. now split. }
    pose proof (class_skip_spec z pat m fuel (k + 1 + 1 + 1)%N) as Hskip.
    replace (k + 1 + 1 + 1 - 1)%N with (k + 1 + 1)%N in Hskip by lia.
    rewrite Hc0, Hs2 in Hskip. cbn [length] in Hfuel.
    destruct Hskip as [Hm | [[Hend Hopen'] | (Hm & Hin & Hrest & Hlen)]]; [lia | lia | | |].
    + rewrite Hm, N.eqb_refl. now left.
    + rewrite Hend, orb_true_r. right. left. now split.
    + assert (Hnm : (class_skip fuel pat m z (k + 1 + 1 + 1) =? m)%N = false)
        by (apply N.eqb_neq; lia).
      rewrite Hnm, Hin. cbn [orb]. rewrite Hrest. apply IH; lia.
  - (* [c] is an item of its own *)
    specialize (IH (k + 1)%N). rewrite Hs in IH.
    assert (Hitems : (if Ascii.eqb c "["
                      then if is_class_intro z
                           then match s1 with
                                | [] => false
                                | c0 :: body' =>
                                    if is_nul c0 then false else element_closed z c0 body'
                                end
                           else items_closed (z :: s1)
                      else items_closed (z :: s1)) = items_closed (z :: s1)).
    { destruct (Ascii.eqb c "[") eqn:Hopen; [|reflexivity].
      destruct (is_class_intro z) eqn:Hintro; [|reflexivity].
      destruct (is_nul z) eqn:Hznul.
      - apply Ascii.eqb_eq in Hznul. rewrite Hznul in Hintro. cbv in Hintro. discriminate Hintro.
      - cbn in Helem. discriminate Helem. }
    rewrite Hitems. apply IH; [lia | cbn [length] in *; lia].
Qed.

Lemma not_nul_length pat k :
  is_nul (char_at pat k) = false -> (k < N.of_nat (length pat))%N.
Proof.
  intros H. destruct (N.lt_ge_cases k (N.of_nat (length pat))) as [Hlt | Hge]; [assumption|].
  rewrite char_at_beyond in H by assumption. discriminate.
Qed.

(** the scan never goes past the end of the pattern *)
Lemma class_skip_within fuel pat m z :
  forall k, (k <= N.of_nat (length pat))%N ->
            (class_skip fuel pat m z k <= N.of_nat (length pat))%N.
Proof.
  induction fuel as [|fuel IH]; intros k Hk; cbn [class_skip]; [assumption|].
  destruct (_ && _) eqn:Hcond; [|assumption].
  apply andb_true_iff in Hcond. destruct Hcond as [Hcond _].
  apply andb_true_iff in Hcond. destruct Hcond as [_ Hnul].
  apply negb_true_iff, not_nul_length in Hnul. apply IH. lia.
Qed.

Lemma bracket_scan_within fuel pat m :
  forall k, (k <= N.of_nat (length pat))%N ->
            (bracket_scan fuel pat m k <= N.of_nat (length pat))%N.
Proof.
  induction fuel as [|fuel IH]; intros k Hk; cbn [bracket_scan]; [assumption|].
  destruct (_ && _ && _) eqn:Hcond; [|assumption].
  apply andb_true_iff in Hcond. destruct Hcond as [Hcond _].
  apply andb_true_iff in Hcond. destruct Hcond as [_ Hnul].
  apply negb_true_iff, not_nul_length in Hnul.
  destruct (_ && _ && _ && _) eqn:Helem.
  - repeat (apply andb_true_iff in Helem; destruct Helem as [Helem ?]).
    match goal with H : negb _ = true |- _ => apply negb_true_iff, not_nul_length in H end.
    cbv zeta.
    set (k2 := if ((k + 2 <? m)%N && negb (is_nul (char_at pat (k + 2))))%bool
               then (k + 2 + 1)%N else (k + 2)%N).
    assert (Hk2 : (k2 <= N.of_nat (length pat))%N).
    { subst k2. destruct (_ && _) eqn:Hb; [|lia].
      apply andb_true_iff in Hb. destruct Hb as [_ Hb].
      apply negb_true_iff, not_nul_length in Hb. lia. }
    pose proof (class_skip_within fuel pat m (char_at pat (k + 1)) k2 Hk2) as Hk3.
    destruct (_ || _) eqn:Hstop; [assumption|].
    apply orb_false_iff in Hstop. destruct Hstop as [_ Hstop].
    apply not_nul_length in Hstop. apply IH. lia.
  - apply IH. lia.
Qed.

(** the slots the two optional characters after the bracket take *)
Lemma bracket_body_offset rest m :
  let pat := "["%char :: rest in
  let k1 := if ((1 <? m)%N && (Ascii.eqb (char_at pat 1) "^" || Ascii.eqb (char_at pat 1) "!"))%bool
            then (1 + 1)%N else 1%N in
  let k2 := if ((k1 <? m)%N && Ascii.eqb (char_at pat k1) "]")%bool then (k1 + 1)%N else k1 in
  (1 <= k1 <= k2)%N /\ (k2 <= N.max m 1)%N /\ (k2 <= N.of_nat (length pat))%N /\
  ((k1 < m)%N -> advance pat k2 = skip_first_close (skip_negation rest)).
Proof.
  intros pat k1 k2.
  assert (Hk1 : (1 <= k1 <= N.max m 1)%N).
  { subst k1. apply if_bounds; intros Hb; [|lia].
    apply andb_true_iff in Hb. destruct Hb as [Hb _]. apply N.ltb_lt in Hb. lia. }
  assert (Hk2 : (k1 <= k2 <= N.max m 1)%N).
  { subst k2. apply if_bounds; intros Hb; [|lia].
    apply andb_true_iff in Hb. destruct Hb as [Hb _]. apply N.ltb_lt in Hb. lia. }
  split; [lia|]. split; [lia|].
  assert (Hbody : (k2 <= N.of_nat (length pat))%N /\
                  ((k1 < m)%N -> advance pat k2 = skip_first_close (skip_negation rest))).
  { clear Hk1 Hk2. subst k2 k1 pat. destruct (1 <? m)%N eqn:H1; cbn [andb].
    2:{ rewrite H1. cbn [andb]. split; [cbn [length]; lia|].
        intros Hlt. apply N.ltb_ge in H1. lia. }
    destruct rest as [|c r].
    { change (char_at ["["%char] 1) with NUL.
      change (Ascii.eqb NUL "^" || Ascii.eqb NUL "!") with false. cbv iota.
      change (Ascii.eqb NUL "]") with false. rewrite andb_false_r.
      split; [cbn [length]; lia | intros _; reflexivity]. }
    change (char_at ("["%char :: c :: r) 1) with c.
    unfold skip_negation.
    destruct (Ascii.eqb c "^" || Ascii.eqb c "!").
    - destruct r as [|d r'].
      { change (char_at ["["%char; c] (1 + 1)) with NUL.
        change (Ascii.eqb NUL "]") with false. rewrite andb_false_r.
        split; [cbn [length]; lia | intros _; reflexivity]. }
      change (char_at ("["%char :: c :: d :: r') (1 + 1)) with d.
      unfold skip_first_close.
      destruct (1 + 1 <? m)%N eqn:H2; cbn [andb].
      + destruct (Ascii.eqb d "]"); (split; [cbn [length]; lia | intros _; reflexivity]).
      + split; [cbn [length]; lia|]. intros Hlt. apply N.ltb_ge in H2.
        exfalso. revert Hlt H2. generalize (1 + 1)%N. intros. lia.
    - cbv iota. rewrite H1. cbn [andb].
      change (char_at ("["%char :: c :: r) 1) with c. unfold skip_first_close.
      destruct (Ascii.eqb c "]"); (split; [cbn [length]; lia | intros _; reflexivity]). }
  exact Hbody.
Qed.

Lemma pat_next_unterminated rest m :
  m <> 0%N -> unterminated rest ->
  pathlib__pat_next pf ("["%char :: rest) m = (uchar "[", 1%N).
Proof.
  intros Hm Hopen. unfold pathlib__pat_next. rewrite char_at_0.
  apply N.eqb_neq in Hm. rewrite Hm. cbn [orb is_nul Ascii.eqb Bool.eqb andb NUL Ascii.zero].
  apply N.eqb_neq in Hm.
  destruct (bracket_body_offset rest m) as (Hk1 & Hk2 & Hlen & Hbody).
  set (pat := "["%char :: rest) in *.
  set (k1 := if ((1 <? m)%N && (Ascii.eqb (char_at pat 1) "^" || Ascii.eqb (char_at pat 1) "!"))%bool
             then (1 + 1)%N else 1%N) in *.
  set (k2 := if ((k1 <? m)%N && Ascii.eqb (char_at pat k1) "]")%bool then (k1 + 1)%N else k1) in *.
  destruct (N.eq_dec k2 m) as [Heq | Hne].
  { rewrite Heq, bracket_scan_at_bound, N.eqb_refl. reflexivity. }
  assert (Hfuel : (length (advance pat k2) < length pat)%nat).
  { unfold advance. rewrite length_skipn. subst pat. cbn [length]. lia. }
  destruct (bracket_scan_spec pat m (length pat) k2) as [Hend | [[Hnul _] | (_ & _ & _ & Hclosed)]];
    [lia | assumption | | |].
  - rewrite Hend, N.eqb_refl. reflexivity.
  - rewrite Hnul, orb_true_r. reflexivity.
  - rewrite Hbody in Hclosed by lia. unfold unterminated, has_closing_bracket in Hopen.
    congruence.
Qed.

(** conversely, a bracket that has its closing bracket within the bound
    is read as a bracket expression *)
Lemma pat_next_terminated rest m :
  has_closing_bracket rest = true -> (N.of_nat (length rest) + 1 < m)%N ->
  fst (pathlib__pat_next pf ("["%char :: rest) m) = BRACKET.
Proof.
  intros Hclosed Hm. unfold pathlib__pat_next. rewrite char_at_0.
  assert (Hm0 : (m =? 0)%N = false) by (apply N.eqb_neq; lia).
  rewrite Hm0. cbn [orb is_nul Ascii.eqb Bool.eqb andb NUL Ascii.zero].
  destruct (bracket_body_offset rest m) as (Hk1 & Hk2 & Hlen & Hbody).
  set (pat := "["%char :: rest) in *.
  set (k1 := if ((1 <? m)%N && (Ascii.eqb (char_at pat 1) "^" || Ascii.eqb (char_at pat 1) "!"))%bool
             then (1 + 1)%N else 1%N) in *.
  set (k2 := if ((k1 <? m)%N && Ascii.eqb (char_at pat k1) "]")%bool then (k1 + 1)%N else k1) in *.
  assert (Hpat : N.of_nat (length pat) = (N.of_nat (length rest) + 1)%N)
    by (subst pat; cbn [length]; lia).
  assert (Hfuel : (length (advance pat k2) < length pat)%nat).
  { unfold advance. rewrite length_skipn. subst pat. cbn [length]. lia. }
  pose proof (bracket_scan_within (length pat) pat m k2 Hlen) as Hwithin.
  assert (Hk1m : (k1 < m)%N).
  { subst k1. destruct (_ && _); lia. }
  destruct (bracket_scan_spec pat m (length pat) k2) as [Hend | [[_ Hopen] | (Hlt & Hnul & _ & _)]];
    [lia | assumption | | |].
  - lia.
  - rewrite Hbody in Hopen by assumption. unfold has_closing_bracket in Hclosed. congruence.
  - assert (Hnm : (bracket_scan (length pat) pat m k2 =? m)%N = false) by (apply N.eqb_neq; lia).
    rewrite Hnm, Hnul. reflexivity.
Qed.

Lemma closed_has_bracket n :
  forall s, (length s <= n)%nat ->
            (items_closed s = true -> In "]"%char s) /\
            (forall z prev, element_closed z prev s = true -> In "]"%char s).
Proof.
  induction n as [|n IH]; intros s Hlen.
  { destruct s; [|simpl in Hlen; lia]. split; [|intros z prev]; discriminate. }
  destruct s as [|c rest]; [split; [|intros z prev]; discriminate|].
  cbn [length] in Hlen. split.
  - rewrite items_closed_cons.
    destruct (is_nul c); [discriminate|].
    destruct (Ascii.eqb c "]") eqn:Hclose.
    { intros _. left. now apply Ascii.eqb_eq in Hclose. }
    assert (Hrest : items_closed rest = true -> In "]"%char (c :: rest)).
    { intros H. right. apply (IH rest); [lia | assumption]. }
    destruct (Ascii.eqb c "["); [|assumption].
    destruct rest as [|z body]; [discriminate|].
    destruct (is_class_intro z); [|assumption].
    destruct body as [|c0 body']; [discriminate|].
    destruct (is_nul c0); [discriminate|].
    intros H. right. right. right. cbn [length] in Hlen.
    apply (proj2 (IH body' ltac:(lia)) z c0 H).
  - intros z prev. rewrite element_closed_cons.
    destruct (is_nul c); [discriminate|].
    destruct (Ascii.eqb prev z && Ascii.eqb c "]"); intros H; right.
    + apply (IH rest); [lia | assumption].
    + apply (proj2 (IH rest ltac:(lia)) z c H).
Qed.

Lemma items_closed_has_bracket s : items_closed s = true -> In "]"%char s.
Proof. apply (closed_has_bracket (length s)). lia. Qed.

(** in particular, a bracket after which no []] comes at all *)
Lemma unterminated_no_close rest : ~ In "]"%char rest -> unterminated rest.
Proof.
  intros Hclose. unfold unterminated, has_closing_bracket.
  destruct (items_closed _) eqn:Hitems; [|reflexivity].
  exfalso. apply Hclose. apply items_closed_has_bracket in Hitems.
  destruct rest as [|c r]; [assumption|]. unfold skip_negation in Hitems.
  destruct (Ascii.eqb c "^" || Ascii.eqb c "!").
  - destruct r as [|d r']; cbn [skip_first_close] in Hitems; [destruct Hitems|].
    destruct (Ascii.eqb d "]"); right; [right|]; assumption.
  - cbn [skip_first_close] in Hitems. destruct (Ascii.eqb c "]"); [right|]; assumption.
Qed.

Lemma char_to_int_bracket c : char_to_int pf c = uchar "[" -> c = "["%char.
Proof.
  intros H. apply (char_to_int_inj pf). rewrite H.
  unfold char_to_int. now rewrite andb_false_r.
Qed.

Lemma fnmatch_unterminated_cons rest c str :
  unterminated rest ->
  pathlib__fnmatch pf ("["%char :: rest) (c :: str)
  = if Ascii.eqb c "["
    then pathlib__fnmatch_internal pf rest (size_sub SIZE_MAX 1) str (size_sub SIZE_MAX 1)
    else Some FNM_NOMATCH.
Proof.
  intros Hclose. unfold pathlib__fnmatch, pathlib__fnmatch_internal.
  cbn [length fnmatch_loop].
  rewrite pat_next_unterminated by (assumption || discriminate).
  change (uchar "[" =? UNMATCHABLE) with false.
  change (uchar "[" =? STAR) with false.
  change (uchar "[" =? END) with false.
  change (uchar "[" =? BRACKET) with false.
  change (uchar "[" =? QUESTION) with false.
  cbv iota. unfold pathlib__str_next. change (SIZE_MAX =? 0)%N with false. cbv iota.
  rewrite char_at_0. cbn [negb andb].
  destruct (Ascii.eqb c "[") eqn:Hc.
  - apply Ascii.eqb_eq in Hc. subst c.
    replace (char_to_int pf "[") with (uchar "[")
      by (unfold char_to_int; now rewrite andb_false_r).
    reflexivity.
  - apply Ascii.eqb_neq in Hc.
    destruct (char_to_int pf c <=? 0); [reflexivity|].
    destruct (char_to_int pf c =? uchar "[") eqn:Hk; [|reflexivity].
    apply Z.eqb_eq, char_to_int_bracket in Hk. contradiction.
Qed.

Lemma fnmatch_unterminated_nil rest :
  unterminated rest ->
  pathlib__fnmatch pf ("["%char :: rest) [] = Some FNM_NOMATCH.
Proof.
  intros Hclose. unfold pathlib__fnmatch, pathlib__fnmatch_internal.
  cbn [length fnmatch_loop].
  rewrite pat_next_unterminated by (assumption || discriminate).
  rewrite str_next_nil. reflexivity.
Qed.

End MatcherProofs.

(** *** Patterns without wildcard *)

Section LiteralPatterns.

Variable pf : platform.

Lemma plain_not_nul c : 0 < char_to_int pf c -> is_nul c = false.
Proof.
  intros Hpos. unfold is_nul. apply Ascii.eqb_neq. intros ->.
  rewrite char_to_int_nul in Hpos. lia.
Qed.

Lemma pat_next_literal c rest m :
  wildcard c = false -> 0 < char_to_int pf c -> m <> 0%N ->
  pathlib__pat_next pf (c :: rest) m = (char_to_int pf c, 1%N).
Proof.
  intros Hwild Hpos Hm. unfold pathlib__pat_next. rewrite char_at_0.
  apply N.eqb_neq in Hm. rewrite Hm, (plain_not_nul c Hpos).
  unfold wildcard in Hwild.
  repeat (apply orb_false_iff in Hwild; destruct Hwild as [Hwild ?]).
  repeat match goal with H : Ascii.eqb c _ = false |- _ => rewrite H; clear H end.
  reflexivity.
Qed.

Lemma str_next_cons c str n :
  n <> 0%N -> pathlib__str_next pf (c :: str) n = (char_to_int pf c, 1%N).
Proof.
  intros Hn. unfold pathlib__str_next. apply N.eqb_neq in Hn. now rewrite Hn.
Qed.

Lemma advance_1 c s : advance (c :: s) 1 = s.
Proof. reflexivity. Qed.

Lemma literal_reads_as_text pat : literal pat -> plain pf pat -> reads_as_text pf pat.
Proof.
  induction pat as [|c pat IH]; intros Hlit Hplain; [constructor|].
  inversion Hlit; subst. inversion Hplain; subst. constructor.
  - intros m Hm. now apply pat_next_literal.
  - now apply IH.
Qed.

Lemma fnmatch_loop_text str :
  forall pat fuel m n,
    reads_as_text pf pat -> plain pf pat -> plain pf str ->
    (length str < fuel)%nat ->
    (N.of_nat (length pat) < m <= SIZE_MAX)%N ->
    (N.of_nat (length str) < n <= SIZE_MAX)%N ->
    fnmatch_loop pf fuel pat m str n
    = Some (if list_eq_dec ascii_dec pat str then 0 else FNM_NOMATCH).
Proof.
  induction str as [|ch str IH]; intros pat fuel m n Hlit Hpat Hstr Hfuel Hm Hn;
    (destruct fuel as [|fuel]; [simpl in Hfuel; lia|]); cbn [fnmatch_loop].
  - destruct pat as [|c pat].
    + rewrite pat_next_nil, str_next_nil. reflexivity.
    + inversion Hlit as [|? ? Hnext Hlit']; subst. inversion Hpat; subst.
      rewrite Hnext by lia.
      rewrite str_next_nil.
      assert (Htok1 : (char_to_int pf c =? UNMATCHABLE) = false) by (apply Z.eqb_neq; unfold UNMATCHABLE; lia).
      assert (Htok2 : (char_to_int pf c =? STAR) = false) by (apply Z.eqb_neq; unfold STAR; lia).
      assert (Htok3 : (char_to_int pf c =? END) = false) by (apply Z.eqb_neq; unfold END; lia).
      rewrite Htok1, Htok2, Htok3. simpl.
      destruct (list_eq_dec ascii_dec (c :: pat) []); [discriminate|reflexivity].
  - inversion Hstr; subst. cbn [length] in *.
    rewrite str_next_cons by lia.
    assert (Hk : (char_to_int pf ch <=? 0) = false) by (apply Z.leb_gt; lia).
    destruct pat as [|c pat].
    + rewrite pat_next_nil. change (END =? UNMATCHABLE) with false.
      change (END =? STAR) with false. change (END =? BRACKET) with false.
      change (END =? QUESTION) with false. cbv iota. rewrite Hk.
      assert (Hne : (char_to_int pf ch =? END) = false) by (apply Z.eqb_neq; unfold END; lia).
      rewrite Hne. simpl.
      destruct (list_eq_dec ascii_dec [] (ch :: str)); [discriminate|reflexivity].
    + inversion Hlit as [|? ? Hnext Hlit']; subst. inversion Hpat; subst. cbn [length] in *.
      rewrite Hnext by lia.
      assert (Htok1 : (char_to_int pf c =? UNMATCHABLE) = false) by (apply Z.eqb_neq; unfold UNMATCHABLE; lia).
      assert (Htok2 : (char_to_int pf c =? STAR) = false) by (apply Z.eqb_neq; unfold STAR; lia).
      assert (Htok3 : (char_to_int pf c =? BRACKET) = false) by (apply Z.eqb_neq; unfold BRACKET; lia).
      assert (Htok4 : (char_to_int pf c =? QUESTION) = false) by (apply Z.eqb_neq; unfold QUESTION; lia).
      rewrite Htok1, Htok2, Htok3, Htok4, Hk. cbn [negb andb].
      destruct (char_to_int pf ch =? char_to_int pf c) eqn:Heq; cbn [negb].
      * apply Z.eqb_eq, char_to_int_inj in Heq. subst ch.
        rewrite !advance_1, !size_sub_small by lia.
        rewrite IH; try assumption; try lia.
        destruct (list_eq_dec ascii_dec pat str), (list_eq_dec ascii_dec (c :: pat) (c :: str));
          congruence.
      * apply Z.eqb_neq in Heq.
        destruct (list_eq_dec ascii_dec (c :: pat) (ch :: str)); [congruence|reflexivity].
Qed.

Lemma fnmatch_loop_literal str :
  forall pat fuel m n,
    literal pat -> plain pf pat -> plain pf str ->
    (length str < fuel)%nat ->
    (N.of_nat (length pat) < m <= SIZE_MAX)%N ->
    (N.of_nat (length str) < n <= SIZE_MAX)%N ->
    fnmatch_loop pf fuel pat m str n
    = Some (if list_eq_dec ascii_dec pat str then 0 else FNM_NOMATCH).
Proof.
  intros pat fuel m n Hlit Hpat Hstr Hfuel Hm Hn.
  apply fnmatch_loop_text; try assumption. now apply literal_reads_as_text.
Qed.

(** a pattern that is read as text matches exactly itself, among the names
    whose characters, like its own, read as positive [int]s *)
Lemma text_match_plain p n :
  reads_as_text pf p -> plain pf p -> plain pf n ->
  (N.of_nat (length p) < SIZE_MAX)%N -> (N.of_nat (length n) < SIZE_MAX)%N ->
  literal_exact pf p n.
Proof.
  intros Htext Hp Hn Hlp Hln. unfold literal_exact, pathlib__fnmatch, pathlib__fnmatch_internal.
  rewrite fnmatch_loop_text by (assumption || lia).
  destruct (list_eq_dec ascii_dec p n); split; intros H; try assumption; try reflexivity;
    try discriminate; contradiction.
Qed.

(** a pattern without wildcard matches exactly itself, among the names
    whose characters, like its own, read as positive [int]s *)
Lemma literal_match_plain p n :
  literal p -> plain pf p -> plain pf n ->
  (N.of_nat (length p) < SIZE_MAX)%N -> (N.of_nat (length n) < SIZE_MAX)%N ->
  literal_exact pf p n.
Proof.
  intros Hlit Hp Hn Hlp Hln. unfold literal_exact, pathlib__fnmatch, pathlib__fnmatch_internal.
  rewrite fnmatch_loop_literal by (assumption || lia).
  destruct (list_eq_dec ascii_dec p n); split; intros H; try assumption; try reflexivity;
    try discriminate; contradiction.
Qed.

Lemma cstring_inv s :
  cstring s -> Forall (fun c => is_nul c = false) s /\ (N.of_nat (length s) < SIZE_MAX)%N.
Proof.
  unfold cstring, cstringb. intros H. apply andb_true_iff in H. destruct H as [Hall Hlen].
  split; [|now apply N.ltb_lt].
  rewrite forallb_forall in Hall. apply Forall_forall. intros c Hc.
  now apply negb_true_iff, Hall.
Qed.

Lemma uchar_pos c : is_nul c = false -> 0 < uchar c.
Proof.
  intros Hnul. pose proof (uchar_range c).
  assert (uchar c <> 0); [|lia].
  intros H0. unfold is_nul in Hnul. apply Ascii.eqb_neq in Hnul. apply Hnul.
  now apply uchar_inj.
Qed.

(** where plain [char] is unsigned, this holds at all C strings *)
Lemma literal_match_unsigned p n :
  char_signed pf = false -> cstring p -> cstring n -> literal p ->
  literal_exact pf p n.
Proof.
  intros Hsig Hp Hn Hlit.
  apply cstring_inv in Hp. destruct Hp as [Hp Hlp].
  apply cstring_inv in Hn. destruct Hn as [Hn Hln].
  assert (Hplain : forall s, Forall (fun c => is_nul c = false) s -> plain pf s).
  { intros s Hs. unfold plain. eapply Forall_impl; [|exact Hs].
    intros c Hc. unfold char_to_int. rewrite Hsig. simpl. now apply uchar_pos. }
  apply literal_match_plain; auto.
Qed.

(** on the empty name, and on names of plain characters, the empty pattern
    matches only the empty name *)
Lemma empty_pattern_plain n :
  plain pf n -> (N.of_nat (length n) < SIZE_MAX)%N ->
  (pathlib__fnmatch pf [] n = Some 0 <-> n = []).
Proof.
  intros Hn Hln.
  assert (Hexact : literal_exact pf [] n).
  { apply literal_match_plain; try assumption; try constructor. }
  destruct Hexact as [H1 H2].
  split; intros H; [symmetry; now apply H1 | apply H2; now symmetry].
Qed.

End LiteralPatterns.

(** ** The matcher returns *)

Section MatcherTotal.

Variable pf : platform.

Lemma char_to_int_nonzero c : is_nul c = false -> char_to_int pf c <> 0.
Proof.
  intros Hnul. pose proof (uchar_pos c Hnul). pose proof (uchar_range c).
  unfold char_to_int. destruct (char_signed pf && (128 <=? uchar c)); lia.
Qed.

Lemma pat_next_end pat m :
  m = 0%N \/ is_nul (char_at pat 0) = true ->
  pathlib__pat_next pf pat m = (END, 0%N).
Proof.
  unfold pathlib__pat_next. intros [-> | Hnul]; [reflexivity|].
  now rewrite Hnul, orb_true_r.
Qed.

(** away from the end, [pathlib__pat_next] steps over at least one
    character and does not return END *)
Lemma pat_next_step pat m :
  m <> 0%N -> is_nul (char_at pat 0) = false ->
  fst (pathlib__pat_next pf pat m) <> END /\ (1 <= snd (pathlib__pat_next pf pat m))%N.
Proof.
  intros Hm Hnul. unfold pathlib__pat_next.
  apply N.eqb_neq in Hm. rewrite Hm, Hnul. cbn [orb].
  destruct (Ascii.eqb (char_at pat 0) "\" && negb (is_nul (char_at pat 1))) eqn:Hesc.
  { apply andb_true_iff in Hesc. destruct Hesc as [_ Hnext].
    apply negb_true_iff in Hnext. cbn [fst snd].
    split; [now apply char_to_int_nonzero | lia]. }
  destruct (Ascii.eqb (char_at pat 0) "[").
  { destruct (_ || _); cbn [fst snd]; split; try discriminate; lia. }
  destruct (Ascii.eqb (char_at pat 0) "*"); [cbn [fst snd]; split; [discriminate | lia]|].
  destruct (Ascii.eqb (char_at pat 0) "?"); [cbn [fst snd]; split; [discriminate | lia]|].
  cbn [fst snd]. split; [now apply char_to_int_nonzero | lia].
Qed.

Lemma pat_next_cases pat m :
  pathlib__pat_next pf pat m = (END, 0%N)
  \/ (fst (pathlib__pat_next pf pat m) <> END /\
      (1 <= snd (pathlib__pat_next pf pat m))%N /\
      is_nul (char_at pat 0) = false /\ m <> 0%N).
Proof.
  destruct (N.eq_dec m 0) as [Hm | Hm]; [left; apply pat_next_end; now left|].
  destruct (is_nul (char_at pat 0)) eqn:Hnul; [left; apply pat_next_end; now right|].
  right. destruct (pat_next_step pat m Hm Hnul). auto.
Qed.

Lemma char_at_advance s i j : char_at (advance s i) j = char_at s (i + j).
Proof.
  unfold char_at, advance. rewrite nth_skipn. f_equal. lia.
Qed.

Lemma not_nul_in_range s i : is_nul (char_at s i) = false -> (N.to_nat i < length s)%nat.
Proof.
  intros Hnul. destruct (Nat.lt_ge_cases (N.to_nat i) (length s)) as [Hlt | Hge];
    [assumption|].
  rewrite char_at_beyond in Hnul by lia. discriminate.
Qed.

Lemma advance_advance s i j : advance (advance s i) j = advance s (i + j).
Proof.
  unfold advance. rewrite skipn_skipn. f_equal. lia.
Qed.

Lemma str_next_cases str n :
  pathlib__str_next pf str n = (0, 0%N)
  \/ pathlib__str_next pf str n = (char_to_int pf (char_at str 0), 1%N).
Proof.
  unfold pathlib__str_next. destruct (n =? 0)%N; auto.
Qed.

Lemma str_next_nonzero str n k sinc :
  pathlib__str_next pf str n = (k, sinc) -> k <> 0 ->
  sinc = 1%N /\ is_nul (char_at str 0) = false.
Proof.
  intros Hnext Hk. destruct (str_next_cases str n) as [H | H]; rewrite H in Hnext;
    injection Hnext as <- <-; [contradiction|].
  split; [reflexivity|].
  destruct (is_nul (char_at str 0)) eqn:Hnul; [|reflexivity].
  unfold is_nul in Hnul. apply Ascii.eqb_eq in Hnul. rewrite Hnul, char_to_int_nul in Hk.
  contradiction.
Qed.

Lemma strlen_le s : (strlen s <= N.of_nat (length s))%N.
Proof.
  induction s as [|c s IH]; simpl; [lia|]. destruct (is_nul c); lia.
Qed.

Lemma strlen_not_nul s : forall i, (i < strlen s)%N -> is_nul (char_at s i) = false.
Proof.
  induction s as [|c s IH]; intros i Hi; simpl in Hi; [lia|].
  destruct (is_nul c) eqn:Hc; [lia|].
  destruct (N.eq_dec i 0) as [-> | Hnz]; [assumption|].
  replace i with (N.succ (i - 1)) by lia.
  unfold char_at. rewrite N2Nat.inj_succ. simpl. apply IH. lia.
Qed.

Section Pattern.

Variable pat : list ascii.
Hypothesis Hsafe : bracket_safe pf pat.
Hypothesis Hlen : (N.of_nat (length pat) < SIZE_MAX)%N.

Lemma find_tail_total endpat :
  (endpat <= strlen pat)%N ->
  forall fuel p ptail tailcnt,
    (N.to_nat (endpat - p) < fuel)%nat ->
    exists r, find_tail pf fuel pat endpat p ptail tailcnt = Some r /\
              match r with
              | TailUnmatchable => True
              | TailAt ptail' _ => (ptail' <= N.max ptail endpat)%N
              end.
Proof.
  intros Hend. pose proof (strlen_le pat) as Hle.
  induction fuel as [|fuel IH]; intros p ptail tailcnt Hfuel; [lia|]. simpl.
  destruct (p <? endpat)%N eqn:Hp.
  - apply N.ltb_lt in Hp.
    destruct (pat_next_step (advance pat p) (size_sub endpat p)) as [Hc Hstep].
    { rewrite size_sub_small by lia. lia. }
    { rewrite char_at_advance, N.add_0_r. apply strlen_not_nul. lia. }
    destruct (pathlib__pat_next pf (advance pat p) (size_sub endpat p)) as [c pinc].
    cbn [fst snd] in *.
    destruct (c =? UNMATCHABLE); [exists TailUnmatchable; auto|].
    destruct (c =? STAR).
    + destruct (IH (p + pinc)%N (p + 1)%N 0%N) as (r & Hr & Hbound); [lia|].
      exists r. split; [assumption|]. destruct r; [trivial|lia].
    + destruct (IH (p + pinc)%N ptail (tailcnt + 1)%N) as (r & Hr & Hbound); [lia|].
      exists r. split; assumption.
  - exists (TailAt ptail tailcnt). split; [reflexivity|lia].
Qed.

Section Name.

Variable str : list ascii.

Lemma tail_check_total endpat endstr :
  forall fuel p s,
    (length str + 1 - N.to_nat s < fuel)%nat ->
    tail_check pf fuel pat endpat p str endstr s <> None.
Proof.
  induction fuel as [|fuel IH]; intros p s Hfuel; [lia|]. simpl.
  destruct (pathlib__pat_next pf (advance pat p) (size_sub endpat p)) as [c pinc] eqn:Hpat.
  destruct (pathlib__str_next pf (advance str s) (size_sub endstr s)) as [k sinc] eqn:Hstr.
  destruct (k <=? 0) eqn:Hk; [discriminate|].
  apply Z.leb_gt in Hk.
  destruct (str_next_nonzero _ _ _ _ Hstr) as [-> Hnul]; [lia|].
  rewrite char_at_advance, N.add_0_r in Hnul. apply not_nul_in_range in Hnul.
  destruct (c =? BRACKET) eqn:Hc.
  - apply Z.eqb_eq in Hc. rewrite N.add_sub.
    pose proof (Hsafe p (size_sub endpat p) k) as Hdef. rewrite Hpat in Hdef.
    specialize (Hdef Hc).
    destruct (pathlib__match_bracket pf (advance pat p) k k) as [r|]; [|congruence].
    destruct (r =? 0); [discriminate|]. apply IH. lia.
  - destruct (negb (c =? QUESTION) && negb (k =? c)); [discriminate|]. apply IH. lia.
Qed.

Lemma component_total endpat endstr :
  forall fuel p s,
    (length pat - N.to_nat p < fuel)%nat ->
    component pf fuel pat endpat p str endstr s <> None.
Proof.
  induction fuel as [|fuel IH]; intros p s Hfuel; [lia|]. simpl.
  pose proof (pat_next_cases (advance pat p) (size_sub endpat p)) as Hcases.
  destruct (pathlib__pat_next pf (advance pat p) (size_sub endpat p)) as [c pinc] eqn:Hpat.
  destruct (c =? STAR); [discriminate|].
  destruct (pathlib__str_next pf (advance str s) (size_sub endstr s)) as [k sinc] eqn:Hstr.
  destruct (k =? 0) eqn:Hk; [discriminate|]. apply Z.eqb_neq in Hk.
  destruct Hcases as [[= -> ->] | (_ & Hstep & Hnul & _)].
  - change (END =? BRACKET) with false. change (END =? QUESTION) with false.
    assert (Hne : (k =? END) = false) by now apply Z.eqb_neq.
    rewrite Hne. discriminate.
  - cbn [snd] in Hstep. rewrite char_at_advance, N.add_0_r in Hnul.
    apply not_nul_in_range in Hnul.
    destruct (c =? BRACKET) eqn:Hc.
    + apply Z.eqb_eq in Hc. rewrite N.add_sub.
      pose proof (Hsafe p (size_sub endpat p) k) as Hdef. rewrite Hpat in Hdef.
      specialize (Hdef Hc).
      destruct (pathlib__match_bracket pf (advance pat p) k k) as [r|]; [|congruence].
      destruct (r =? 0); [discriminate|]. apply IH. lia.
    + destruct (negb (c =? QUESTION) && negb (k =? c)); [discriminate|]. apply IH. lia.
Qed.

(** a component is committed further on in the pattern *)
Lemma component_commit endpat endstr :
  forall fuel p s p' s',
    component pf fuel pat endpat p str endstr s = Some (CompCommit p' s') ->
    (p < p' /\ s <= s')%N.
Proof.
  induction fuel as [|fuel IH]; intros p s p' s'; [discriminate|]. simpl.
  pose proof (pat_next_cases (advance pat p) (size_sub endpat p)) as Hcases.
  destruct (pathlib__pat_next pf (advance pat p) (size_sub endpat p)) as [c pinc] eqn:Hpat.
  destruct (c =? STAR) eqn:Hstar.
  - apply Z.eqb_eq in Hstar. intros [= <- <-].
    destruct Hcases as [[= Hc _] | (_ & Hstep & _)].
    + subst c. discriminate.
    + cbn [snd] in Hstep. lia.
  - destruct (pathlib__str_next pf (advance str s) (size_sub endstr s)) as [k sinc].
    destruct (k =? 0); [discriminate|].
    assert (Hrec : component pf fuel pat endpat (p + pinc) str endstr (s + sinc)
                   = Some (CompCommit p' s') -> (p < p' /\ s <= s')%N).
    { intros H. apply IH in H. lia. }
    destruct (c =? BRACKET).
    + destruct (pathlib__match_bracket pf (advance pat (p + pinc - pinc)) k k) as [r|];
        [|discriminate].
      destruct (r =? 0); [discriminate | exact Hrec].
    + destruct (negb (c =? QUESTION) && negb (k =? c)); [discriminate | exact Hrec].
Qed.

(** a component fails only on a name that has not ended *)
Lemma component_fail endpat endstr fuel p s :
  component pf fuel pat endpat p str endstr s = Some CompFail ->
  fst (pathlib__str_next pf (advance str s) (size_sub endstr s)) <> 0.
Proof.
  destruct fuel as [|fuel]; [discriminate|]. simpl.
  destruct (pathlib__pat_next pf (advance pat p) (size_sub endpat p)) as [c pinc].
  destruct (c =? STAR); [discriminate|].
  destruct (pathlib__str_next pf (advance str s) (size_sub endstr s)) as [k sinc].
  destruct (k =? 0) eqn:Hk; [discriminate|]. apply Z.eqb_neq in Hk. auto.
Qed.

Lemma skip_invalid_total endstr :
  forall fuel s,
    (length str + 1 - N.to_nat s < fuel)%nat ->
    exists s', skip_invalid pf fuel str endstr s = Some s' /\ (s <= s')%N.
Proof.
  induction fuel as [|fuel IH]; intros s Hfuel; [lia|]. simpl.
  destruct (pathlib__str_next pf (advance str s) (size_sub endstr s)) as [k sinc] eqn:Hstr.
  cbn [fst]. destruct (k <? 0) eqn:Hk.
  - apply Z.ltb_lt in Hk.
    destruct (str_next_nonzero _ _ _ _ Hstr) as [_ Hnul]; [lia|].
    rewrite char_at_advance, N.add_0_r in Hnul. apply not_nul_in_range in Hnul.
    destruct (IH (s + 1)%N) as (s' & Hs' & Hle); [lia|].
    exists s'. split; [assumption | lia].
  - exists s. split; [reflexivity | lia].
Qed.

Lemma components_total endpat endstr :
  forall fuel p s,
    (N.to_nat (endpat - p) + (length str - N.to_nat s) < fuel)%nat ->
    components pf fuel pat endpat p str endstr s <> None.
Proof.
  induction fuel as [|fuel IH]; intros p s Hfuel; [lia|]. cbn [components].
  destruct (p <? endpat)%N eqn:Hp; [|discriminate]. apply N.ltb_lt in Hp.
  pose proof (component_total endpat endstr (S (length pat)) p s) as Htotal.
  destruct (component pf (S (length pat)) pat endpat p str endstr s)
    as [[|p' s'|]|] eqn:Hcomp.
  - discriminate.
  - apply component_commit in Hcomp. apply IH. lia.
  - apply component_fail in Hcomp.
    destruct (pathlib__str_next pf (advance str s) (size_sub endstr s)) as [k sinc] eqn:Hstr.
    cbn [fst] in Hcomp.
    destruct (str_next_nonzero _ _ _ _ Hstr Hcomp) as [-> Hnul].
    rewrite char_at_advance, N.add_0_r in Hnul. apply not_nul_in_range in Hnul.
    destruct (0 <? k).
    + apply IH. lia.
    + destruct (skip_invalid_total endstr (S (length str)) (s + 1)%N) as (s' & Hs' & Hle);
        [lia|].
      rewrite Hs'. apply IH. lia.
  - exfalso. apply Htotal; [lia | reflexivity].
Qed.

Lemma fnmatch_after_star_total : fnmatch_after_star pf pat str <> None.
Proof.
  unfold fnmatch_after_star.
  pose proof (strlen_le pat) as Hle.
  destruct (find_tail_total (strlen pat) (N.le_refl _) (S (length pat)) 0%N 0%N 0%N)
    as (r & Hr & Hbound); [lia|].
  rewrite Hr. destruct r as [|ptail tailcnt]; [discriminate|].
  destruct (strlen str <? tailcnt)%N; [discriminate|].
  destruct (tail_back pf (S (N.to_nat tailcnt)) str (strlen str) tailcnt) as [s tailcnt'].
  destruct (negb (tailcnt' =? 0)%N); [discriminate|].
  pose proof (tail_check_total (strlen pat) (strlen str) (S (S (length str))) ptail s)
    as Hcheck.
  destruct (tail_check pf (S (S (length str))) pat (strlen pat) ptail str (strlen str) s)
    as [[|]|]; [| discriminate | exfalso; apply Hcheck; [lia | reflexivity]].
  apply components_total. lia.
Qed.

End Name.

End Pattern.

Lemma bracket_safe_advance pat i : bracket_safe pf pat -> bracket_safe pf (advance pat i).
Proof.
  intros Hsafe j m k. rewrite advance_advance. apply Hsafe.
Qed.

Lemma length_advance s i : (length (advance s i) <= length s)%nat.
Proof. unfold advance. rewrite length_skipn. lia. Qed.

Lemma fnmatch_loop_total :
  forall fuel pat m str n,
    bracket_safe pf pat -> (N.of_nat (length pat) < SIZE_MAX)%N ->
    (length str < fuel)%nat ->
    fnmatch_loop pf fuel pat m str n <> None.
Proof.
  induction fuel as [|fuel IH]; intros pat m str n Hsafe Hlen Hfuel; [lia|]. simpl.
  destruct (pathlib__pat_next pf pat m) as [c pinc] eqn:Hpat.
  destruct (c =? UNMATCHABLE); [discriminate|].
  destruct (c =? STAR).
  { apply fnmatch_after_star_total.
    - now apply bracket_safe_advance.
    - pose proof (length_advance pat 1). lia. }
  destruct (pathlib__str_next pf str n) as [k sinc] eqn:Hstr.
  destruct (k <=? 0) eqn:Hk; [discriminate|]. apply Z.leb_gt in Hk.
  destruct (str_next_nonzero _ _ _ _ Hstr) as [-> Hnul]; [lia|].
  apply not_nul_in_range in Hnul.
  assert (Hrec : fnmatch_loop pf fuel (advance pat pinc) (size_sub m pinc)
                              (advance str 1) (size_sub n 1) <> None).
  { apply IH.
    - now apply bracket_safe_advance.
    - pose proof (length_advance pat pinc). lia.
    - unfold advance. rewrite length_skipn. simpl in *. lia. }
  destruct (c =? BRACKET) eqn:Hc.
  - apply Z.eqb_eq in Hc.
    pose proof (Hsafe 0%N m k) as Hdef. change (advance pat 0) with pat in Hdef.
    rewrite Hpat in Hdef. specialize (Hdef Hc).
    destruct (pathlib__match_bracket pf pat k k) as [r|]; [|congruence].
    destruct (r =? 0); [discriminate | exact Hrec].
  - destruct (negb (c =? QUESTION) && negb (k =? c)); [discriminate | exact Hrec].
Qed.

(** the matcher has a defined result on every name, for a pattern on
    whose bracket expressions [pathlib__match_bracket] is defined *)
Lemma bracket_safe_total pat :
  bracket_safe pf pat -> (N.of_nat (length pat) < SIZE_MAX)%N -> matcher_total pf pat.
Proof.
  intros Hsafe Hlen name. unfold pathlib__fnmatch, pathlib__fnmatch_internal.
  apply fnmatch_loop_total; auto.
Qed.

Lemma pat_next_bracket pat m :
  fst (pathlib__pat_next pf pat m) = BRACKET ->
  char_at pat 0 = "["%char
  \/ char_to_int pf (char_at pat 0) = BRACKET
  \/ char_to_int pf (char_at pat 1) = BRACKET /\ is_nul (char_at pat 1) = false.
Proof.
  unfold pathlib__pat_next.
  destruct ((m =? 0)%N || is_nul (char_at pat 0)); [discriminate|].
  destruct (Ascii.eqb (char_at pat 0) "\" && negb (is_nul (char_at pat 1))) eqn:Hesc.
  { apply andb_true_iff in Hesc. destruct Hesc as [_ Hnext].
    apply negb_true_iff in Hnext. cbn [fst]. auto. }
  destruct (Ascii.eqb (char_at pat 0) "[") eqn:Hbr.
  { apply Ascii.eqb_eq in Hbr. auto. }
  destruct (Ascii.eqb (char_at pat 0) "*"); [discriminate|].
  destruct (Ascii.eqb (char_at pat 0) "?"); [discriminate|].
  cbn [fst]. auto.
Qed.

Lemma bracket_free_safe pat : bracket_free pf pat -> bracket_safe pf pat.
Proof.
  intros Hfree i m k Hbr. exfalso.
  unfold bracket_free in Hfree. rewrite Forall_forall in Hfree.
  assert (Hin : forall j, is_nul (char_at pat j) = false -> In (char_at pat j) pat).
  { intros j Hj. apply (char_at_in pat j); [reflexivity|].
    intros Heq. rewrite Heq in Hj. discriminate. }
  apply pat_next_bracket in Hbr. rewrite !char_at_advance in Hbr.
  destruct Hbr as [Hbr | [Hbr | [Hbr Hnul]]].
  - assert (Hnul : is_nul (char_at pat (i + 0)) = false) by now rewrite Hbr.
    destruct (Hfree _ (Hin _ Hnul)) as [Hne _]. contradiction.
  - assert (Hnul : is_nul (char_at pat (i + 0)) = false).
    { destruct (is_nul (char_at pat (i + 0))) eqn:Hn; [|reflexivity].
      unfold is_nul in Hn. apply Ascii.eqb_eq in Hn.
      rewrite Hn, char_to_int_nul in Hbr. discriminate. }
    destruct (Hfree _ (Hin _ Hnul)) as [_ Hne]. contradiction.
  - destruct (Hfree _ (Hin _ Hnul)) as [_ Hne]. contradiction.
Qed.

End MatcherTotal.

(** ** A star followed by a literal suffix *)

Section StarSuffix.

Variable pf : platform.

Lemma plain_nul_free s : plain pf s -> nul_free s.
Proof.
  intros H. eapply Forall_impl; [|exact H]. intros c Hc. now apply (plain_not_nul pf).
Qed.

Lemma strlen_nul_free s : nul_free s -> strlen s = N.of_nat (length s).
Proof.
  intros H. now rewrite strlen_c_bytes, c_bytes_nul_free.
Qed.

Lemma advance_app pre rest : advance (pre ++ rest) (N.of_nat (length pre)) = rest.
Proof.
  unfold advance. rewrite Nat2N.id, skipn_app, skipn_all, Nat.sub_diag. reflexivity.
Qed.

Lemma positive_tokens c :
  0 < char_to_int pf c ->
  (char_to_int pf c =? UNMATCHABLE) = false /\ (char_to_int pf c =? STAR) = false /\
  (char_to_int pf c =? BRACKET) = false /\ (char_to_int pf c =? QUESTION) = false /\
  (char_to_int pf c =? END) = false /\ (char_to_int pf c <=? 0) = false.
Proof.
  intros Hpos. unfold UNMATCHABLE, STAR, BRACKET, QUESTION, END.
  repeat split; try (apply Z.eqb_neq; lia). apply Z.leb_gt. lia.
Qed.

Lemma find_tail_text rest :
  forall pre fuel ptail tailcnt,
    reads_as_text pf rest -> plain pf rest ->
    (N.of_nat (length (pre ++ rest)) <= SIZE_MAX)%N ->
    (length rest < fuel)%nat ->
    find_tail pf fuel (pre ++ rest) (N.of_nat (length (pre ++ rest)))
              (N.of_nat (length pre)) ptail tailcnt
    = Some (TailAt ptail (tailcnt + N.of_nat (length rest))).
Proof.
  induction rest as [|c rest IH]; intros pre fuel ptail tailcnt Hlit Hplain Hmax Hfuel;
    (destruct fuel as [|fuel]; [simpl in Hfuel; lia|]); cbn [find_tail].
  - rewrite app_nil_r, N.ltb_irrefl. f_equal. f_equal. simpl. lia.
  - inversion Hlit as [|? ? Hnext Hlit']; subst. inversion Hplain; subst.
    rewrite length_app in *. cbn [length] in *.
    assert (Hlt : (N.of_nat (length pre) <? N.of_nat (length pre + S (length rest)))%N = true)
      by (apply N.ltb_lt; lia).
    rewrite Hlt, advance_app, size_sub_small by lia.
    rewrite Hnext by lia.
    destruct (positive_tokens c) as (-> & -> & _); [assumption|].
    replace (pre ++ c :: rest) with ((pre ++ [c]) ++ rest) by now rewrite <- app_assoc.
    replace (N.of_nat (length pre + S (length rest)))
      with (N.of_nat (length ((pre ++ [c]) ++ rest)))
      by (rewrite !length_app; simpl; lia).
    replace (N.of_nat (length pre) + 1)%N with (N.of_nat (length (pre ++ [c])))
      by (rewrite length_app; simpl; lia).
    rewrite IH; try assumption.
    + f_equal. f_equal. lia.
    + rewrite !length_app. simpl. lia.
    + lia.
Qed.

Lemma find_tail_literal rest :
  forall pre fuel ptail tailcnt,
    literal rest -> plain pf rest ->
    (N.of_nat (length (pre ++ rest)) <= SIZE_MAX)%N ->
    (length rest < fuel)%nat ->
    find_tail pf fuel (pre ++ rest) (N.of_nat (length (pre ++ rest)))
              (N.of_nat (length pre)) ptail tailcnt
    = Some (TailAt ptail (tailcnt + N.of_nat (length rest))).
Proof.
  intros pre fuel ptail tailcnt Hlit Hplain Hmax Hfuel.
  apply find_tail_text; try assumption. now apply literal_reads_as_text.
Qed.

Lemma tail_back_single str :
  single_byte pf str ->
  forall fuel s tailcnt,
    (tailcnt <= s <= N.of_nat (length str))%N -> (N.to_nat tailcnt < fuel)%nat ->
    tail_back pf fuel str s tailcnt = ((s - tailcnt)%N, 0%N).
Proof.
  intros Hsingle.
  induction fuel as [|fuel IH]; intros s tailcnt Hs Hfuel; [lia|]. cbn [tail_back].
  destruct (N.eq_dec tailcnt 0) as [-> | Hnz].
  - rewrite andb_false_r. f_equal. lia.
  - assert (Hpos : (0 <? s)%N = true) by (apply N.ltb_lt; lia).
    assert (Hcnt : (tailcnt =? 0)%N = false) by now apply N.eqb_neq.
    rewrite Hpos, Hcnt. cbn [andb negb].
    assert (Hbyte : (uchar (char_at str (s - 1)) <? 128) || (MB_CUR_MAX pf =? 1) = true).
    { destruct Hsingle as [Hmb | Hascii].
      - rewrite Hmb. apply orb_true_r.
      - apply orb_true_iff. left. apply Z.ltb_lt.
        rewrite Forall_forall in Hascii. apply Hascii.
        unfold char_at. apply nth_In. lia. }
    rewrite Hbyte, IH by lia. f_equal. lia.
Qed.

Lemma tail_check_text rest :
  forall nrest pre npre fuel,
    reads_as_text pf rest -> plain pf rest -> plain pf nrest ->
    length rest = length nrest ->
    (N.of_nat (length (pre ++ rest)) <= SIZE_MAX)%N ->
    (N.of_nat (length (npre ++ nrest)) <= SIZE_MAX)%N ->
    (length rest < fuel)%nat ->
    tail_check pf fuel (pre ++ rest) (N.of_nat (length (pre ++ rest)))
               (N.of_nat (length pre))
               (npre ++ nrest) (N.of_nat (length (npre ++ nrest)))
               (N.of_nat (length npre))
    = Some (if list_eq_dec ascii_dec rest nrest then true else false).
Proof.
  induction rest as [|c rest IH];
    intros nrest pre npre fuel Hlit Hplain Hnplain Hlen Hmax Hnmax Hfuel;
    (destruct fuel as [|fuel]; [simpl in Hfuel; lia|]);
    destruct nrest as [|d nrest]; try discriminate; cbn [tail_check].
  - rewrite !app_nil_r, !size_sub_diag, pat_next_bound_0, str_next_0. reflexivity.
  - inversion Hlit as [|? ? Hnext Hlit']; subst. inversion Hplain; subst. inversion Hnplain; subst.
    rewrite !length_app in *. cbn [length] in *.
    rewrite !advance_app, !size_sub_small by lia.
    rewrite Hnext by lia.
    rewrite str_next_cons by lia.
    destruct (positive_tokens c) as (_ & _ & -> & -> & _); [assumption|].
    destruct (positive_tokens d) as (_ & _ & _ & _ & _ & ->); [assumption|].
    cbn [negb andb].
    destruct (char_to_int pf d =? char_to_int pf c) eqn:Heq; cbn [negb].
    + apply Z.eqb_eq, char_to_int_inj in Heq. subst d.
      replace (pre ++ c :: rest) with ((pre ++ [c]) ++ rest) by now rewrite <- app_assoc.
      replace (npre ++ c :: nrest) with ((npre ++ [c]) ++ nrest) by now rewrite <- app_assoc.
      replace (N.of_nat (length pre + S (length rest)))
        with (N.of_nat (length ((pre ++ [c]) ++ rest)))
        by (rewrite !length_app; simpl; lia).
      replace (N.of_nat (length npre + S (length nrest)))
        with (N.of_nat (length ((npre ++ [c]) ++ nrest)))
        by (rewrite !length_app; simpl; lia).
      replace (N.of_nat (length pre) + 1)%N with (N.of_nat (length (pre ++ [c])))
        by (rewrite length_app; simpl; lia).
      replace (N.of_nat (length npre) + 1)%N with (N.of_nat (length (npre ++ [c])))
        by (rewrite length_app; simpl; lia).
      rewrite IH; try assumption; try (rewrite !length_app; simpl; lia); try lia.
      destruct (list_eq_dec ascii_dec rest nrest),
               (list_eq_dec ascii_dec (c :: rest) (c :: nrest)); congruence.
    + apply Z.eqb_neq in Heq.
      destruct (list_eq_dec ascii_dec (c :: rest) (d :: nrest)); [congruence|reflexivity].
Qed.

Lemma tail_check_literal rest :
  forall nrest pre npre fuel,
    literal rest -> plain pf rest -> plain pf nrest ->
    length rest = length nrest ->
    (N.of_nat (length (pre ++ rest)) <= SIZE_MAX)%N ->
    (N.of_nat (length (npre ++ nrest)) <= SIZE_MAX)%N ->
    (length rest < fuel)%nat ->
    tail_check pf fuel (pre ++ rest) (N.of_nat (length (pre ++ rest)))
               (N.of_nat (length pre))
               (npre ++ nrest) (N.of_nat (length (npre ++ nrest)))
               (N.of_nat (length npre))
    = Some (if list_eq_dec ascii_dec rest nrest then true else false).
Proof.
  intros nrest pre npre fuel Hlit Hplain Hnplain Hlen Hmax Hnmax Hfuel.
  apply tail_check_text; try assumption. now apply literal_reads_as_text.
Qed.

Lemma plain_skipn s i : plain pf s -> plain pf (skipn i s).
Proof. apply Forall_skipn. Qed.

(** what [*] followed by a suffix that is read as text matches *)
Lemma fnmatch_star_text suffix n :
  reads_as_text pf suffix -> plain pf suffix -> plain pf n -> single_byte pf n ->
  (N.of_nat (length suffix) < SIZE_MAX)%N -> (N.of_nat (length n) < SIZE_MAX)%N ->
  pathlib__fnmatch pf ("*"%char :: suffix) n = Some 0 <-> ends_with n suffix.
Proof.
  intros Hlit Hplain Hnplain Hsingle Hmax Hnmax.
  unfold pathlib__fnmatch, pathlib__fnmatch_internal. cbn [fnmatch_loop].
  rewrite pat_next_star by discriminate.
  change (STAR =? UNMATCHABLE) with false. change (STAR =? STAR) with true. cbv iota.
  rewrite advance_1. unfold fnmatch_after_star, ends_with.
  rewrite (strlen_nul_free suffix), (strlen_nul_free n) by now apply plain_nul_free.
  pose proof (find_tail_text suffix [] (S (length suffix)) 0%N 0%N Hlit Hplain) as Hfind.
  cbn [app length] in Hfind. change (N.of_nat 0) with 0%N in Hfind.
  rewrite Hfind by lia. clear Hfind.
  rewrite N.add_0_l.
  destruct (N.of_nat (length n) <? N.of_nat (length suffix))%N eqn:Hshort.
  { apply N.ltb_lt in Hshort. split; [discriminate|]. intros [Hle _]. lia. }
  apply N.ltb_ge in Hshort.
  rewrite tail_back_single by (assumption || lia).
  change (negb (0 =? 0)%N) with false. cbv iota.
  set (k := (length n - length suffix)%nat).
  pose proof (tail_check_text suffix (skipn k n) [] (firstn k n)
                                 (S (S (length n)))) as Hcheck.
  rewrite firstn_skipn in Hcheck. cbn [app length] in Hcheck.
  change (N.of_nat 0) with 0%N in Hcheck.
  replace (N.of_nat (length (firstn k n))) with (N.of_nat (length n) - N.of_nat (length suffix))%N
    in Hcheck by (rewrite length_firstn; subst k; lia).
  rewrite Hcheck; try assumption; try lia.
  - destruct (list_eq_dec ascii_dec suffix (skipn k n)) as [Heq | Hne].
    + rewrite components_done by lia. split; [|reflexivity].
      intros _. split; [lia | now symmetry].
    + split; [discriminate|]. intros [_ Heq]. now symmetry in Heq.
  - now apply plain_skipn.
  - rewrite length_skipn. subst k. lia.
Qed.

(** what [*] followed by a literal suffix matches *)
Lemma fnmatch_star_suffix suffix n :
  literal suffix -> plain pf suffix -> plain pf n -> single_byte pf n ->
  (N.of_nat (length suffix) < SIZE_MAX)%N -> (N.of_nat (length n) < SIZE_MAX)%N ->
  pathlib__fnmatch pf ("*"%char :: suffix) n = Some 0 <-> ends_with n suffix.
Proof.
  intros Hlit Hplain Hnplain Hsingle Hmax Hnmax.
  apply fnmatch_star_text; try assumption. now apply literal_reads_as_text.
Qed.

(** on such names the suffix after the star is the end of every name
    matched *)
Lemma star_suffix_anchored suffix n :
  literal suffix -> plain pf suffix -> plain pf n -> single_byte pf n ->
  (N.of_nat (length suffix) < SIZE_MAX)%N -> (N.of_nat (length n) < SIZE_MAX)%N ->
  tail_anchored pf [] suffix n.
Proof.
  intros Hlit Hplain Hnplain Hsingle Hmax Hnmax Hmatch.
  now apply fnmatch_star_suffix.
Qed.

End StarSuffix.

(** *** Patterns whose only wildcards are unterminated brackets *)

Section OpenBrackets.

Variable pf : platform.

Lemma text_before_tail c pre tail : text_before (c :: pre) tail -> text_before pre tail.
Proof.
  intros Htext p1 d p2 Heq. apply (Htext (c :: p1) d p2). now rewrite Heq.
Qed.

Lemma text_before_head c pre tail m :
  text_before (c :: pre) tail -> 0 < char_to_int pf c -> m <> 0%N ->
  pathlib__pat_next pf (c :: pre ++ tail) m = (char_to_int pf c, 1%N).
Proof.
  intros Htext Hc Hm. pose proof (Htext [] c pre eq_refl) as Hhead.
  destruct (Ascii.eqb c "[") eqn:Hbracket.
  - apply Ascii.eqb_eq in Hbracket. subst c.
    rewrite pat_next_unterminated by assumption.
    unfold char_to_int. now rewrite andb_false_r.
  - now apply pat_next_literal.
Qed.

Lemma open_brackets_text pat :
  open_brackets_only pat -> plain pf pat -> reads_as_text pf pat.
Proof.
  unfold open_brackets_only.
  induction pat as [|c pat IH]; intros Hopen Hplain; [constructor|].
  inversion Hplain as [|? ? Hc Hplain']; subst. constructor.
  - intros m Hm. rewrite <- (app_nil_r pat) at 1. now apply text_before_head.
  - apply IH; [|assumption]. now apply text_before_tail with (c := c).
Qed.

(** a text before the rest of the pattern has to be the start of the
    name, and the rest of the pattern is matched against the rest of the
    name *)
Lemma fnmatch_loop_prefix pre :
  forall tail name fuel m n,
    text_before pre tail -> plain pf pre ->
    (length name < fuel)%nat ->
    (N.of_nat (length pre) < m <= SIZE_MAX)%N ->
    (N.of_nat (length pre) < n <= SIZE_MAX)%N ->
    fnmatch_loop pf fuel (pre ++ tail) m name n
    = if list_eq_dec ascii_dec (firstn (length pre) name) pre
      then fnmatch_loop pf (fuel - length pre) tail (m - N.of_nat (length pre))
                        (skipn (length pre) name) (n - N.of_nat (length pre))
      else Some FNM_NOMATCH.
Proof.
  induction pre as [|c pre IH]; intros tail name fuel m n Htext Hplain Hfuel Hm Hn.
  - cbn [length firstn skipn app]. change (N.of_nat 0) with 0%N.
    rewrite Nat.sub_0_r, !N.sub_0_r.
    destruct (list_eq_dec ascii_dec [] []); [reflexivity | congruence].
  - destruct fuel as [|fuel]; [lia|]. cbn [length] in *.
    inversion Hplain as [|? ? Hc Hplain']; subst.
    change ((c :: pre) ++ tail) with (c :: pre ++ tail). cbn [fnmatch_loop].
    rewrite text_before_head by (assumption || lia).
    destruct (positive_tokens pf c Hc) as (Ht1 & Ht2 & Ht3 & Ht4 & Ht5 & _).
    rewrite Ht1, Ht2.
    destruct name as [|ch name].
    + rewrite str_next_nil. change (0 <=? 0) with true. cbv iota. rewrite Ht5.
      cbn [firstn]. destruct (list_eq_dec ascii_dec [] (c :: pre)); [discriminate|reflexivity].
    + rewrite str_next_cons by lia. cbn [firstn skipn length] in *.
      destruct (char_to_int pf ch <=? 0) eqn:Hk.
      * rewrite Ht5. apply Z.leb_le in Hk.
        destruct (list_eq_dec ascii_dec (ch :: firstn (length pre) name) (c :: pre)) as [Heq|];
          [|reflexivity].
        injection Heq as -> _. lia.
      * rewrite Ht3, Ht4. cbn [negb andb].
        destruct (char_to_int pf ch =? char_to_int pf c) eqn:Heq; cbn [negb].
        -- apply Z.eqb_eq, char_to_int_inj in Heq. subst ch.
           rewrite !advance_1, !size_sub_small by lia.
           rewrite IH; try assumption; try lia.
           ++ replace (m - 1 - N.of_nat (length pre))%N with (m - N.of_nat (S (length pre)))%N by lia.
              replace (n - 1 - N.of_nat (length pre))%N with (n - N.of_nat (S (length pre)))%N by lia.
              cbn [Nat.sub].
              destruct (list_eq_dec ascii_dec (firstn (length pre) name) pre),
                       (list_eq_dec ascii_dec (c :: firstn (length pre) name) (c :: pre));
                congruence.
           ++ now apply text_before_tail with (c := c).
        -- apply Z.eqb_neq in Heq.
           destruct (list_eq_dec ascii_dec (ch :: firstn (length pre) name) (c :: pre)) as [Hsame|];
             [|reflexivity].
           injection Hsame as -> _. congruence.
Qed.

Lemma fnmatch_text_prefix pre tail name :
  text_before pre tail -> plain pf pre -> (N.of_nat (length pre) < SIZE_MAX)%N ->
  pathlib__fnmatch pf (pre ++ tail) name
  = if list_eq_dec ascii_dec (firstn (length pre) name) pre
    then pathlib__fnmatch_internal pf tail (SIZE_MAX - N.of_nat (length pre))
                                   (skipn (length pre) name)
                                   (SIZE_MAX - N.of_nat (length pre))
    else Some FNM_NOMATCH.
Proof.
  intros Htext Hplain Hlen. unfold pathlib__fnmatch, pathlib__fnmatch_internal.
  rewrite fnmatch_loop_prefix by (assumption || lia).
  destruct (list_eq_dec ascii_dec (firstn (length pre) name) pre) as [Heq|]; [|reflexivity].
  f_equal. apply (f_equal (@length _)) in Heq. rewrite length_firstn in Heq.
  rewrite length_skipn. lia.
Qed.

End OpenBrackets.

(** ** The empty name *)

Section EmptyName.

Variable pf : platform.

Lemma str_next_empty s n : fst (pathlib__str_next pf (advance [] s) n) = 0.
Proof.
  unfold advance. rewrite skipn_nil. now rewrite str_next_nil.
Qed.

(** the components of a pattern made of stars match without consuming
    anything *)
Lemma components_stars rest :
  forall pre fuel str endstr s,
    all_stars rest -> (N.of_nat (length (pre ++ rest)) <= SIZE_MAX)%N ->
    (length rest < fuel)%nat ->
    components pf fuel (pre ++ rest) (N.of_nat (length (pre ++ rest)))
               (N.of_nat (length pre)) str endstr s = Some 0.
Proof.
  induction rest as [|c rest IH]; intros pre fuel str endstr s Hstars Hmax Hfuel;
    (destruct fuel as [|fuel]; [simpl in Hfuel; lia|]).
  - apply components_done. rewrite app_nil_r. lia.
  - inversion Hstars; subst. cbn [components component].
    rewrite length_app in *. cbn [length] in *.
    assert (Hlt : (N.of_nat (length pre) <? N.of_nat (length pre + S (length rest)))%N = true)
      by (apply N.ltb_lt; lia).
    rewrite Hlt, advance_app, size_sub_small by lia.
    rewrite pat_next_star by lia.
    change (STAR =? STAR) with true. cbv iota.
    replace (pre ++ "*"%char :: rest) with ((pre ++ ["*"%char]) ++ rest)
      by now rewrite <- app_assoc.
    replace (N.of_nat (length pre + S (length rest)))
      with (N.of_nat (length ((pre ++ ["*"%char]) ++ rest)))
      by (rewrite !length_app; simpl; lia).
    replace (N.of_nat (length pre) + 1)%N with (N.of_nat (length (pre ++ ["*"%char])))
      by (rewrite length_app; simpl; lia).
    apply IH; [assumption| |lia].
    rewrite !length_app. simpl. lia.
Qed.

Lemma find_tail_stars rest :
  forall pre fuel ptail,
    all_stars rest -> (N.of_nat (length (pre ++ rest)) <= SIZE_MAX)%N ->
    (length rest < fuel)%nat ->
    find_tail pf fuel (pre ++ rest) (N.of_nat (length (pre ++ rest)))
              (N.of_nat (length pre)) ptail 0
    = Some (TailAt (match rest with
                    | [] => ptail
                    | _ => N.of_nat (length (pre ++ rest))
                    end) 0).
Proof.
  induction rest as [|c rest IH]; intros pre fuel ptail Hstars Hmax Hfuel;
    (destruct fuel as [|fuel]; [simpl in Hfuel; lia|]); cbn [find_tail].
  - now rewrite app_nil_r, N.ltb_irrefl.
  - inversion Hstars; subst.
    assert (Hlt : (N.of_nat (length pre) <? N.of_nat (length (pre ++ "*"%char :: rest)))%N = true)
      by (apply N.ltb_lt; rewrite length_app; cbn [length]; lia).
    rewrite Hlt, advance_app, size_sub_small by (rewrite ?length_app in *; cbn [length] in *; lia).
    rewrite pat_next_star by (rewrite length_app; cbn [length]; lia).
    change (STAR =? UNMATCHABLE) with false. change (STAR =? STAR) with true. cbv iota.
    replace (pre ++ "*"%char :: rest) with ((pre ++ ["*"%char]) ++ rest)
      by now rewrite <- app_assoc.
    replace (N.of_nat (length pre) + 1)%N with (N.of_nat (length (pre ++ ["*"%char])))
      by (rewrite length_app; cbn [length]; lia).
    rewrite IH; [|assumption| |cbn [length] in Hfuel; lia].
    + destruct rest; [|reflexivity]. now rewrite app_nil_r.
    + now rewrite <- app_assoc.
Qed.

Lemma all_stars_nul_free pat : all_stars pat -> nul_free pat.
Proof.
  intros H. eapply Forall_impl; [|exact H]. intros c ->. reflexivity.
Qed.

Lemma fnmatch_after_star_stars pat :
  all_stars pat -> (N.of_nat (length pat) < SIZE_MAX)%N ->
  fnmatch_after_star pf pat [] = Some 0.
Proof.
  intros Hstars Hmax. unfold fnmatch_after_star.
  rewrite (strlen_nul_free pat) by now apply all_stars_nul_free.
  pose proof (find_tail_stars pat [] (S (length pat)) 0%N Hstars) as Hfind.
  cbn [app length] in Hfind. change (N.of_nat 0) with 0%N in Hfind.
  rewrite Hfind by lia. clear Hfind.
  cbn [strlen]. change (0 <? 0)%N with false. cbv iota.
  rewrite tail_back_0. change (negb (0 =? 0)%N) with false. cbv iota.
  assert (Hptail : match pat with [] => 0%N | _ :: _ => N.of_nat (length pat) end
                   = N.of_nat (length pat)) by now destruct pat.
  rewrite Hptail.
  rewrite tail_check_end by (now rewrite size_sub_diag, pat_next_bound_0).
  apply (components_stars pat [] _ [] 0%N 0%N Hstars); simpl; lia.
Qed.

(** a pattern made of stars matches the empty name *)
Lemma stars_match_empty pat :
  all_stars pat -> (N.of_nat (length pat) < SIZE_MAX)%N ->
  pathlib__fnmatch pf pat [] = Some 0.
Proof.
  intros Hstars Hmax. unfold pathlib__fnmatch, pathlib__fnmatch_internal.
  cbn [length fnmatch_loop].
  destruct pat as [|c pat].
  { now rewrite pat_next_nil, str_next_nil. }
  inversion Hstars; subst. cbn [length] in Hmax.
  rewrite pat_next_star by discriminate.
  change (STAR =? UNMATCHABLE) with false. change (STAR =? STAR) with true. cbv iota.
  rewrite advance_1. apply fnmatch_after_star_stars; [assumption | lia].
Qed.

Lemma no_star_code_at pat j : no_star_code pf pat -> char_to_int pf (char_at pat j) <> STAR.
Proof.
  intros Hno. destruct (is_nul (char_at pat j)) eqn:Hnul.
  - unfold is_nul in Hnul. apply Ascii.eqb_eq in Hnul.
    rewrite Hnul, char_to_int_nul. discriminate.
  - unfold no_star_code in Hno. rewrite Forall_forall in Hno. apply Hno.
    apply (char_at_in pat j); [reflexivity|].
    intros Heq. rewrite Heq in Hnul. discriminate.
Qed.

(** where no character reads as its code, a star is the character [*] *)
Lemma pat_next_star_inv pat m :
  char_to_int pf (char_at pat 0) <> STAR -> char_to_int pf (char_at pat 1) <> STAR ->
  fst (pathlib__pat_next pf pat m) = STAR ->
  char_at pat 0 = "*"%char /\ snd (pathlib__pat_next pf pat m) = 1%N.
Proof.
  intros H0 H1. unfold pathlib__pat_next.
  destruct ((m =? 0)%N || is_nul (char_at pat 0)); [discriminate|].
  destruct (Ascii.eqb (char_at pat 0) "\" && negb (is_nul (char_at pat 1)));
    [cbn [fst]; intros; contradiction|].
  destruct (Ascii.eqb (char_at pat 0) "[").
  { destruct (_ || _); discriminate. }
  destruct (Ascii.eqb (char_at pat 0) "*") eqn:Hstar.
  { apply Ascii.eqb_eq in Hstar. auto. }
  destruct (Ascii.eqb (char_at pat 0) "?"); [discriminate|].
  cbn [fst]. intros. contradiction.
Qed.

Section NoStarCode.

Variable pat : list ascii.
Hypothesis Hno : no_star_code pf pat.

Lemma pat_next_star_at p m :
  fst (pathlib__pat_next pf (advance pat p) m) = STAR ->
  char_at pat p = "*"%char /\ snd (pathlib__pat_next pf (advance pat p) m) = 1%N.
Proof.
  intros Hstar. apply pat_next_star_inv in Hstar.
  - now rewrite char_at_advance, N.add_0_r in Hstar.
  - rewrite char_at_advance. now apply no_star_code_at.
  - rewrite char_at_advance. now apply no_star_code_at.
Qed.

Lemma components_empty_inv endpat endstr s :
  forall fuel p,
    components pf fuel pat endpat p [] endstr s = Some 0 ->
    forall j, (p <= j < endpat)%N -> char_at pat j = "*"%char.
Proof.
  induction fuel as [|fuel IH]; intros p; [discriminate|]. cbn [components component].
  destruct (p <? endpat)%N eqn:Hp.
  2:{ apply N.ltb_ge in Hp. intros _ j Hj. lia. }
  pose proof (pat_next_star_at p (size_sub endpat p)) as Hinv.
  destruct (pathlib__pat_next pf (advance pat p) (size_sub endpat p)) as [c pinc].
  cbn [fst snd] in Hinv.
  destruct (c =? STAR) eqn:Hstar.
  - apply Z.eqb_eq in Hstar. destruct (Hinv Hstar) as [Hchar ->].
    intros Hrest j Hj.
    destruct (N.eq_dec j p) as [-> | Hne]; [assumption|].
    apply (IH _ Hrest). lia.
  - pose proof (str_next_empty s (size_sub endstr s)) as Hk.
    destruct (pathlib__str_next pf (advance [] s) (size_sub endstr s)) as [k sinc].
    cbn [fst] in Hk. subst k. discriminate.
Qed.

Lemma find_tail_zero_inv endpat :
  forall fuel p ptail tailcnt ptail',
    find_tail pf fuel pat endpat p ptail tailcnt = Some (TailAt ptail' 0) ->
    (tailcnt = 0%N -> ptail = p) ->
    (endpat <= ptail')%N.
Proof.
  induction fuel as [|fuel IH]; intros p ptail tailcnt ptail'; [discriminate|].
  cbn [find_tail].
  destruct (p <? endpat)%N eqn:Hp.
  - pose proof (pat_next_star_at p (size_sub endpat p)) as Hinv.
    destruct (pathlib__pat_next pf (advance pat p) (size_sub endpat p)) as [c pinc].
    cbn [fst snd] in Hinv.
    destruct (c =? UNMATCHABLE); [discriminate|].
    destruct (c =? STAR) eqn:Hstar.
    + apply Z.eqb_eq in Hstar. destruct (Hinv Hstar) as [_ ->].
      intros Hfind _. apply (IH _ _ _ _ Hfind). reflexivity.
    + intros Hfind _. apply (IH _ _ _ _ Hfind). lia.
  - apply N.ltb_ge in Hp. intros [= <- ->] Hinv. rewrite Hinv by reflexivity. assumption.
Qed.

End NoStarCode.

Lemma all_char_at s c :
  (forall j, (j < N.of_nat (length s))%N -> char_at s j = c) -> Forall (fun x => x = c) s.
Proof.
  induction s as [|x s IH]; intros Hall; constructor.
  - apply (Hall 0%N). simpl. lia.
  - apply IH. intros j Hj. specialize (Hall (N.succ j)).
    unfold char_at in *. rewrite N2Nat.inj_succ in Hall. apply Hall.
    cbn [length]. lia.
Qed.

Lemma no_star_code_tail c pat : no_star_code pf (c :: pat) -> no_star_code pf pat.
Proof. intros H. now inversion H. Qed.

Lemma fnmatch_after_star_empty_inv pat :
  no_star_code pf pat -> nul_free pat ->
  fnmatch_after_star pf pat [] = Some 0 -> all_stars pat.
Proof.
  intros Hno Hnul. unfold fnmatch_after_star.
  rewrite (strlen_nul_free pat) by assumption.
  destruct (find_tail pf (S (length pat)) pat (N.of_nat (length pat)) 0 0 0)
    as [[|ptail tailcnt]|] eqn:Hfind; [discriminate| |discriminate].
  cbn [strlen].
  destruct (0 <? tailcnt)%N eqn:Hcnt; [discriminate|].
  apply N.ltb_ge in Hcnt. assert (tailcnt = 0%N) by lia. subst tailcnt.
  rewrite tail_back_0. change (negb (0 =? 0)%N) with false. cbv iota.
  destruct (tail_check pf (S (S (length []))) pat (N.of_nat (length pat)) ptail [] 0 0)
    as [[|]|]; [|discriminate|discriminate].
  intros Hcomp.
  apply find_tail_zero_inv in Hfind; [|assumption|reflexivity].
  apply all_char_at. intros j Hj.
  apply (components_empty_inv pat Hno _ _ _ _ _ Hcomp). lia.
Qed.

(** the empty name is matched only by patterns made of stars, when no
    character of the pattern reads as the code of a star *)
Lemma fnmatch_empty_name_inv pat :
  no_star_code pf pat -> nul_free pat ->
  pathlib__fnmatch pf pat [] = Some 0 -> all_stars pat.
Proof.
  intros Hno Hnul. destruct pat as [|x pat]; [constructor|].
  unfold pathlib__fnmatch, pathlib__fnmatch_internal.
  cbn [length fnmatch_loop].
  pose proof (pat_next_star_inv (x :: pat) SIZE_MAX (no_star_code_at (x :: pat) 0 Hno)
                                (no_star_code_at (x :: pat) 1 Hno)) as Hinv.
  destruct (pat_next_step pf (x :: pat) SIZE_MAX) as [Hne _];
    [discriminate | now inversion Hnul |].
  destruct (pathlib__pat_next pf (x :: pat) SIZE_MAX) as [c pinc]. cbn [fst snd] in *.
  destruct (c =? UNMATCHABLE); [discriminate|].
  destruct (c =? STAR) eqn:Hstar.
  - apply Z.eqb_eq in Hstar. destruct (Hinv Hstar) as [Hhead _].
    rewrite char_at_0 in Hhead. subst x. rewrite advance_1.
    intros Hafter. constructor; [reflexivity|].
    apply fnmatch_after_star_empty_inv in Hafter; [assumption| |].
    + now apply no_star_code_tail in Hno.
    + now inversion Hnul.
  - rewrite str_next_nil. cbn [Z.leb Z.compare].
    apply Z.eqb_neq in Hne. rewrite Hne. discriminate.
Qed.

(** the three edge cases hold at every pattern and name of plain characters *)
Lemma edge_cases_plain p n :
  plain pf p -> plain pf n ->
  (N.of_nat (length p) < SIZE_MAX)%N -> (N.of_nat (length n) < SIZE_MAX)%N ->
  edge_cases pf p n.
Proof.
  intros Hp Hn Hlp Hln. split; [|split].
  - now apply empty_pattern_plain.
  - split.
    + apply fnmatch_empty_name_inv.
      * eapply Forall_impl; [|exact Hp]. intros c Hc. cbv beta in Hc. unfold STAR. lia.
      * now apply (plain_nul_free pf).
    + intros Hstars. now apply stars_match_empty.
  - apply fnmatch_star.
Qed.

(** where plain [char] is unsigned, they hold at all C strings *)
Lemma edge_cases_unsigned p n :
  char_signed pf = false -> cstring p -> cstring n -> edge_cases pf p n.
Proof.
  intros Hsig Hp Hn.
  apply cstring_inv in Hp. destruct Hp as [Hp Hlp].
  apply cstring_inv in Hn. destruct Hn as [Hn Hln].
  assert (Hplain : forall s, Forall (fun c => is_nul c = false) s -> plain pf s).
  { intros s Hs. unfold plain. eapply Forall_impl; [|exact Hs].
    intros c Hc. unfold char_to_int. rewrite Hsig. simpl. now apply uchar_pos. }
  apply edge_cases_plain; auto.
Qed.

End EmptyName.

(** * The claims of the specification *)

(** C1 fails wherever plain [char] is signed: a byte above 127 of the name
    is read as a negative [int], which the first loop takes for the end of
    the name.  The pattern made of the two bytes of U+00E9 does not match
    the equal name, and the pattern [a] matches the name [a] followed by
    those bytes. *)
Theorem literal_pattern_non_ascii_name (pf : platform) :
  char_signed pf = true ->
  literal e_acute /\ cstring e_acute /\ cstring (cstr "a" ++ e_acute) /\
  pathlib__fnmatch pf e_acute e_acute = Some FNM_NOMATCH /\
  ~ literal_exact pf e_acute e_acute /\
  pathlib__fnmatch pf (cstr "a") (cstr "a" ++ e_acute) = Some 0 /\
  ~ literal_exact pf (cstr "a") (cstr "a" ++ e_acute).
Proof.
  intros Hsigned. destruct pf as [signed mb_cur_max mbtowc iswctype max_path].
  simpl in Hsigned. subst signed.
  split; [repeat constructor|].
  split; [reflexivity|].
  split; [reflexivity|].
  split; [reflexivity|].
  split; [intros [_ H]; specialize (H eq_refl); discriminate|].
  split; [reflexivity|].
  intros [H _]. specialize (H eq_refl). discriminate.
Qed.

Lemma literal_pattern_non_ascii_name_witness :
  pathlib__fnmatch linux_x86_64 e_acute e_acute = Some FNM_NOMATCH /\
  pathlib__fnmatch linux_x86_64 (cstr "a") (cstr "a" ++ e_acute) = Some 0.
Proof.
  destruct (literal_pattern_non_ascii_name linux_x86_64 eq_refl)
    as (_ & _ & _ & Hsame & _ & Hlonger & _).
  split; assumption.
Defined.

(** C2 fails wherever plain [char] is signed.  In a multibyte locale the
    name [a] followed by a lone continuation byte is matched by [*a],
    though it does not end in [a]; and in any locale a byte 0xFB of the
    pattern is read as the code of a star, so that [*a], 0xFB, [b] matches
    [ab], a name shorter than the three characters after the star. *)
Theorem star_suffix_non_ascii (pf : platform) :
  char_signed pf = true ->
  (MB_CUR_MAX pf <> 1 ->
   pathlib__fnmatch pf (cstr "*a") (cstr "a" ++ [byte_80]) = Some 0 /\
   ~ tail_anchored pf [] (cstr "a") (cstr "a" ++ [byte_80])) /\
  pathlib__fnmatch pf (cstr "*a" ++ byte_FB :: cstr "b") (cstr "ab") = Some 0 /\
  literal (cstr "a" ++ byte_FB :: cstr "b") /\
  ~ tail_anchored pf [] (cstr "a" ++ byte_FB :: cstr "b") (cstr "ab").
Proof.
  intros Hsigned. destruct pf as [signed mb_cur_max mbtowc iswctype max_path].
  simpl in *. subst signed.
  split; [|split; [|split]].
  - intros Hmb.
    assert (Hmatch : pathlib__fnmatch
                       {| char_signed := true; MB_CUR_MAX := mb_cur_max; mbtowc := mbtowc;
                          iswctype := iswctype; PATHLIB_MAX_PATH := max_path |}
                       (cstr "*a") (cstr "a" ++ [byte_80]) = Some 0).
    { destruct mb_cur_max as [|[q|q|]|q]; try reflexivity.
      exfalso. now apply Hmb. }
    split; [exact Hmatch|].
    intros H. destruct (H Hmatch) as [_ Hsuf]. discriminate.
  - reflexivity.
  - repeat constructor.
  - intros H. destruct (H eq_refl) as [Hlen _]. simpl in Hlen. lia.
Qed.

Lemma star_suffix_non_ascii_witness :
  pathlib__fnmatch linux_x86_64_utf8 (cstr "*a") (cstr "a" ++ [byte_80]) = Some 0 /\
  pathlib__fnmatch linux_x86_64 (cstr "*a" ++ byte_FB :: cstr "b") (cstr "ab") = Some 0.
Proof.
  split.
  - destruct (star_suffix_non_ascii linux_x86_64_utf8 eq_refl) as [Hlocale _].
    apply Hlocale. discriminate.
  - destruct (star_suffix_non_ascii linux_x86_64 eq_refl) as (_ & Hstar & _).
    exact Hstar.
Defined.

(** C3 fails wherever plain [char] is signed: the empty pattern matches
    the non-empty name made of the two bytes of U+00E9, and the pattern
    made of the byte 0xFB, which is no star, matches the empty name. *)
Theorem edge_cases_non_ascii (pf : platform) :
  char_signed pf = true ->
  pathlib__fnmatch pf [] e_acute = Some 0 /\
  pathlib__fnmatch pf [byte_FB] [] = Some 0 /\
  ~ edge_cases pf [byte_FB] e_acute.
Proof.
  intros Hsigned. destruct pf as [signed mb_cur_max mbtowc iswctype max_path].
  simpl in Hsigned. subst signed.
  split; [reflexivity|].
  split; [reflexivity|].
  intros [[H _] _]. specialize (H eq_refl). discriminate.
Qed.

Lemma edge_cases_non_ascii_witness :
  pathlib__fnmatch linux_x86_64 [] e_acute = Some 0 /\
  pathlib__fnmatch linux_x86_64 [byte_FB] [] = Some 0.
Proof.
  destruct (edge_cases_non_ascii linux_x86_64 eq_refl) as (Hname & Hpattern & _).
  split; assumption.
Defined.

(** C4: a [[] that has no closing []] before the end of the pattern is read
    as the character [[].  A []] closes the bracket only where the syntax of
    bracket expressions lets it: not right after the [[] or the negation
    sign, and not as the end of an element [[: :]], [[. .]] or [[= =]].
    - Wherever it stands ([pathlib__pat_next] is called on the pattern from
      that position on, with any bound), the [[] is read as the character
      [[] with a step of 1.
    - At the head of the pattern, the name must start with [[] and the
      rest of the pattern is matched against the rest of the name; more
      generally, a text before the rest of the pattern, with such
      brackets in it, has to be the start of the name.
    - A pattern whose only wildcard characters are such brackets matches
      exactly the name equal to it, and after a star it matches exactly
      the names that end in it: every [[] has to meet a [[] of the name at
      its position.
    - Conversely, a [[] that has its closing []] is read as a bracket
      expression. *)
Theorem unterminated_bracket_is_literal (pf : platform) :
  (forall rest m,
      unterminated rest -> m <> 0%N ->
      pathlib__pat_next pf ("["%char :: rest) m = (uchar "[", 1%N)) /\
  (forall rest,
      unterminated rest ->
      pathlib__fnmatch pf ("["%char :: rest) [] = Some FNM_NOMATCH /\
      forall c str,
        pathlib__fnmatch pf ("["%char :: rest) (c :: str)
        = if Ascii.eqb c "["
          then pathlib__fnmatch_internal pf rest (size_sub SIZE_MAX 1) str (size_sub SIZE_MAX 1)
          else Some FNM_NOMATCH) /\
  (forall pre tail name,
      text_before pre tail -> plain pf pre -> (N.of_nat (length pre) < SIZE_MAX)%N ->
      pathlib__fnmatch pf (pre ++ tail) name
      = if list_eq_dec ascii_dec (firstn (length pre) name) pre
        then pathlib__fnmatch_internal pf tail (SIZE_MAX - N.of_nat (length pre))
                                       (skipn (length pre) name)
                                       (SIZE_MAX - N.of_nat (length pre))
        else Some FNM_NOMATCH) /\
  (forall pat name,
      open_brackets_only pat -> plain pf pat -> plain pf name ->
      (N.of_nat (length pat) < SIZE_MAX)%N -> (N.of_nat (length name) < SIZE_MAX)%N ->
      (pathlib__fnmatch pf pat name = Some 0 <-> pat = name)) /\
  (forall suffix name,
      open_brackets_only suffix -> plain pf suffix -> plain pf name -> single_byte pf name ->
      (N.of_nat (length suffix) < SIZE_MAX)%N -> (N.of_nat (length name) < SIZE_MAX)%N ->
      (pathlib__fnmatch pf ("*"%char :: suffix) name = Some 0 <-> ends_with name suffix)) /\
  (forall rest m,
      has_closing_bracket rest = true -> (N.of_nat (length rest) + 1 < m)%N ->
      fst (pathlib__pat_next pf ("["%char :: rest) m) = BRACKET).
Proof.
  split; [|split; [|split; [|split; [|split]]]].
  - intros rest m Hopen Hm. now apply pat_next_unterminated.
  - intros rest Hopen. split.
    + now apply fnmatch_unterminated_nil.
    + intros c str. now apply fnmatch_unterminated_cons.
  - intros pre tail name Htext Hpre Hlen. now apply fnmatch_text_prefix.
  - intros pat name Hopen Hpat Hname Hlp Hln.
    apply text_match_plain; try assumption. now apply open_brackets_text.
  - intros suffix name Hopen Hsuffix Hname Hsingle Hls Hln.
    apply fnmatch_star_text; try assumption. now apply open_brackets_text.
  - intros rest m Hclosed Hm. now apply pat_next_terminated.
Qed.

Lemma unterminated_bracket_is_literal_witness :
  pathlib__pat_next linux_x86_64 (cstr "[[:digit:]x") SIZE_MAX = (uchar "[", 1%N) /\
  pathlib__pat_next linux_x86_64 (cstr "[a[:digit:]") SIZE_MAX = (uchar "[", 1%N) /\
  pathlib__pat_next linux_x86_64 (cstr "[[.a.]") SIZE_MAX = (uchar "[", 1%N) /\
  pathlib__pat_next linux_x86_64 (cstr "[]b") SIZE_MAX = (uchar "[", 1%N) /\
  pathlib__fnmatch linux_x86_64 (cstr "[ab") (cstr "a") = Some FNM_NOMATCH /\
  pathlib__fnmatch linux_x86_64 (cstr "a[b*") (cstr "a[bcd") = Some 0 /\
  pathlib__fnmatch linux_x86_64 (cstr "a[b*") (cstr "abcd") = Some FNM_NOMATCH /\
  (pathlib__fnmatch linux_x86_64 (cstr "a[b") (cstr "a[b") = Some 0) /\
  (pathlib__fnmatch linux_x86_64 (cstr "*[1") (cstr "x[1") = Some 0) /\
  fst (pathlib__pat_next linux_x86_64 (cstr "[[:digit:]]") SIZE_MAX) = BRACKET.
Proof.
  destruct (unterminated_bracket_is_literal linux_x86_64)
    as (Htoken & Hhead & Hprefix & Hwhole & Hstar & Hclosed).
  assert (Hab : open_brackets_only (cstr "a[b")).
  { intros pre c rest Heq.
    destruct pre as [|p0 pre]; [injection Heq as <- <-; reflexivity|].
    injection Heq as _ Heq.
    destruct pre as [|p1 pre]; [injection Heq as <- <-; reflexivity|].
    injection Heq as _ Heq.
    destruct pre as [|p2 pre]; [injection Heq as <- <-; reflexivity|].
    injection Heq as _ Heq. destruct pre; discriminate. }
  assert (H1 : open_brackets_only (cstr "[1")).
  { intros pre c rest Heq.
    destruct pre as [|p0 pre]; [injection Heq as <- <-; reflexivity|].
    injection Heq as _ Heq.
    destruct pre as [|p1 pre]; [injection Heq as <- <-; reflexivity|].
    injection Heq as _ Heq. destruct pre; discriminate. }
  assert (Hplain : forall s, forallb (fun c => 0 <? char_to_int linux_x86_64 c) s = true ->
                             plain linux_x86_64 s).
  { intros s Hs. apply Forall_forall. intros c Hc.
    rewrite forallb_forall in Hs. apply Z.ltb_lt. now apply Hs. }
  assert (Hbefore : text_before (cstr "a[b") (cstr "*")).
  { intros pre c rest Heq.
    destruct pre as [|p0 pre]; [injection Heq as <- <-; reflexivity|].
    injection Heq as _ Heq.
    destruct pre as [|p1 pre]; [injection Heq as <- <-; reflexivity|].
    injection Heq as _ Heq.
    destruct pre as [|p2 pre]; [injection Heq as <- <-; reflexivity|].
    injection Heq as _ Heq. destruct pre; discriminate. }
  refine (conj _ (conj _ (conj _ (conj _ (conj _ (conj _ (conj _ (conj _ (conj _ _))))))))).
  - apply (Htoken (cstr "[:digit:]x")); [reflexivity | discriminate].
  - apply (Htoken (cstr "a[:digit:]")); [reflexivity | discriminate].
  - apply (Htoken (cstr "[.a.]")); [reflexivity | discriminate].
  - apply (Htoken (cstr "]b")); [reflexivity | discriminate].
  - destruct (Hhead (cstr "ab") eq_refl) as [_ Hcons].
    change (cstr "[ab") with ("["%char :: cstr "ab").
    change (cstr "a") with ("a"%char :: []).
    rewrite (Hcons "a"%char []). reflexivity.
  - change (cstr "a[b*") with (cstr "a[b" ++ cstr "*").
    rewrite (Hprefix (cstr "a[b") (cstr "*") (cstr "a[bcd") Hbefore);
      [reflexivity | now apply Hplain | reflexivity].
  - change (cstr "a[b*") with (cstr "a[b" ++ cstr "*").
    rewrite (Hprefix (cstr "a[b") (cstr "*") (cstr "abcd") Hbefore);
      [reflexivity | now apply Hplain | reflexivity].
  - apply (Hwhole (cstr "a[b") (cstr "a[b")); try reflexivity; try assumption;
      now apply Hplain.
  - change (cstr "*[1") with ("*"%char :: cstr "[1").
    apply (Hstar (cstr "[1") (cstr "x[1")); try reflexivity; try assumption;
      try (now apply Hplain).
    + now left.
    + split; [simpl; lia | reflexivity].
  - apply (Hclosed (cstr "[:digit:]]")); reflexivity.
Defined.

(** C5 as stated fails: [readdir] ends the listing of the directory
    [broken] on an error after one entry; the walk returns that entry and
    leaves PATHLIB_NONE in [pathlib_error]. *)
Lemma walk_listing_failure_counterexample :
  ~ aborts_on_failure linux_x86_64 demo_fs 1 5 (pathlib_from_str (cstr "broken"))
      (cstr "*") world0.
Proof.
  unfold aborts_on_failure. intros Habort.
  remember (glob_with linux_x86_64 demo_fs 1 5 (pathlib_from_str (cstr "broken"))
                      (cstr "*") world0) as run eqn:Hrun.
  vm_compute in Hrun. subst run.
  edestruct Habort as [Hempty _].
  - reflexivity.
  - simpl. reflexivity.
  - exists (cstr "broken"). split.
    + vm_compute. auto.
    + right. eexists. split; vm_compute; reflexivity.
  - vm_compute in Hempty. discriminate.
Qed.

(** C5, as amended: when the tree is finitely deep and the matcher is
    defined, the walk returns; and if [opendir] failed on any directory it
    visited, the collection returned is empty and [pathlib_error] is
    PATHLIB_OSERROR. *)
Theorem walk_aborts_when_opendir_fails (pf : platform) (fs : filesystem)
        (recursive : Z) (fuel : nat) (path : Path) (pattern : list ascii) (w : world) :
  path_wf path ->
  matcher_total pf pattern ->
  (forall root, pathlib_render_str_to_buffer path (PATHLIB_MAX_PATH pf) = Some (Some root) ->
                depth_below pf fs fuel recursive root = true) ->
  exists results w' evs,
    glob_with pf fs recursive fuel path pattern w = Some (results, w') /\
    calls w' = calls w ++ evs /\
    ((exists p, In (EvOpendir p) evs /\ fs_opendir fs p = None) ->
     paths_list results = [] /\ paths_size results = 0%N /\
     pathlib_error w' = PATHLIB_OSERROR).
Proof.
  intros Hwf Htotal Hdepth.
  pose proof (glob_with_total pf fs recursive fuel path pattern w Hwf Htotal Hdepth) as Hret.
  destruct (glob_with pf fs recursive fuel path pattern w) as [[results w']|] eqn:Hrun;
    [|congruence].
  apply glob_with_post in Hrun.
  destruct Hrun as (evs & Hcalls & _ & _ & _ & Hfail & _).
  exists results, w', evs. auto.
Qed.

Lemma walk_aborts_when_opendir_fails_witness :
  exists results w' evs,
    glob_with linux_x86_64 demo_fs 1 5 (pathlib_from_str (cstr "root")) (cstr "*.txt") world0
    = Some (results, w') /\
    calls w' = calls world0 ++ evs /\
    ((exists p, In (EvOpendir p) evs /\ fs_opendir demo_fs p = None) ->
     paths_list results = [] /\ paths_size results = 0%N /\
     pathlib_error w' = PATHLIB_OSERROR).
Proof.
  apply (walk_aborts_when_opendir_fails linux_x86_64 demo_fs 1 5
           (pathlib_from_str (cstr "root")) (cstr "*.txt") world0).
  - vm_compute. discriminate.
  - apply bracket_safe_total; [apply bracket_free_safe | vm_compute; reflexivity].
    repeat constructor; try discriminate; vm_compute; discriminate.
  - intros root Hrender. vm_compute in Hrender. injection Hrender as <-.
    vm_compute. reflexivity.
Defined.

(** C6 does not hold where an entry has a backslash in its name, as a
    POSIX file system allows: the walker hands the path of the entry to
    [pathlib_from_str], which cuts it at the backslash too.  In [d], which
    holds the regular file [a\b] and the directory [a] with the directory
    [b] in it, both walks match the file against [a*] and return one Path,
    with no error; it has the parts [d], [a], [b], renders to [d/a/b],
    denotes a directory, and its name [b] does not match [a*].  In every
    run, on every file system, the name of a Path returned holds no
    separator, so that an entry with a backslash in its name is never
    returned under its name. *)
Theorem glob_result_splits_backslash_name (pf : platform) :
  PATHLIB_MAX_PATH pf = 4096%N ->
  let root := pathlib_from_str (cstr "d") in
  let pattern := cstr "a*" in
  let found := {| parts := [cstr "d"; cstr "a"; cstr "b"]; size := 3; capacity := 3 |} in
  (forall fs recursive fuel path pat w results w' p name,
      glob_with pf fs recursive fuel path pat w = Some (results, w') ->
      In p (paths_list results) -> pathlib_name p = Some name ->
      sep_free name) /\
  (exists w',
      pathlib_glob pf backslash_fs 5 root pattern world0
      = Some (pathlib_paths_add paths_empty found, w') /\
      pathlib_error w' = PATHLIB_NONE) /\
  (exists w',
      pathlib_rglob pf backslash_fs 5 root pattern world0
      = Some (pathlib_paths_add paths_empty found, w') /\
      pathlib_error w' = PATHLIB_NONE) /\
  paths_list (pathlib_paths_add paths_empty found) = [found] /\
  found = pathlib_from_str (cstr "d/a\b") /\
  file_entry pf backslash_fs (cstr "d/a\b") (cstr "a\b") /\
  pathlib__fnmatch pf pattern (cstr "a\b") = Some 0 /\
  pathlib_to_str found = Some (cstr "d/a/b") /\
  denotes_directory pf backslash_fs found /\
  pathlib_name found = Some (cstr "b") /\
  pathlib__fnmatch pf pattern (cstr "b") = Some FNM_NOMATCH /\
  ~ returns_matched_files pf backslash_fs 0 5 root pattern world0 /\
  ~ returns_matched_files pf backslash_fs 1 5 root pattern world0.
Proof.
  intros Hmax root pattern found.
  destruct pf as [signed mb_cur_max mbtowc iswctype max_path].
  simpl in Hmax. subst max_path.
  assert (Hglob : forall recursive,
             recursive = 0 \/ recursive = 1 ->
             exists w',
               glob_with {| char_signed := signed; MB_CUR_MAX := mb_cur_max;
                            mbtowc := mbtowc; iswctype := iswctype;
                            PATHLIB_MAX_PATH := 4096 |}
                         backslash_fs recursive 5 root pattern world0
               = Some (pathlib_paths_add paths_empty found, w') /\
               pathlib_error w' = PATHLIB_NONE).
  { intros recursive [-> | ->]; destruct signed; eexists; split; vm_compute; reflexivity. }
  assert (Hdir : denotes_directory {| char_signed := signed; MB_CUR_MAX := mb_cur_max;
                                      mbtowc := mbtowc; iswctype := iswctype;
                                      PATHLIB_MAX_PATH := 4096 |} backslash_fs found).
  { exists (cstr "d/a/b"). repeat split; vm_compute; reflexivity. }
  assert (Hnot : forall recursive,
             recursive = 0 \/ recursive = 1 ->
             ~ returns_matched_files {| char_signed := signed; MB_CUR_MAX := mb_cur_max;
                                        mbtowc := mbtowc; iswctype := iswctype;
                                        PATHLIB_MAX_PATH := 4096 |}
                                     backslash_fs recursive 5 root pattern world0).
  { intros recursive Hrec Hall. destruct (Hglob recursive Hrec) as (w' & Hrun & _).
    specialize (Hall _ _ Hrun). inversion Hall as [|? ? Hfound _]; subst.
    destruct Hfound as [(filename & ty & Hrender & Hstat & Hfile) _].
    vm_compute in Hrender. injection Hrender as <-.
    vm_compute in Hstat. injection Hstat as <-. discriminate Hfile. }
  split.
  { intros fs recursive fuel path pat w results w' p name Hrun Hin Hname.
    apply glob_with_post in Hrun. destruct Hrun as (evs & _ & Hres & _).
    rewrite Forall_forall in Hres. destruct (Hres p Hin) as (fullpath & d_name & _ & _ & ->).
    pose proof (from_str_sep_free fullpath) as Hfree.
    unfold pathlib_name in Hname.
    destruct (size (pathlib_from_str fullpath) =? 0)%N.
    - injection Hname as <-. constructor.
    - apply nth_error_In in Hname. unfold sep_free_path in Hfree.
      rewrite Forall_forall in Hfree. now apply Hfree. }
  split; [apply (Hglob 0); now left|].
  split; [apply (Hglob 1); now right|].
  split; [reflexivity|].
  split; [reflexivity|].
  split.
  { exists (cstr "d"), {| d_names := map cstr ["."; ".."; "a\b"; "a"]%string; d_error := false |},
           S_IFREG.
    repeat split; try reflexivity. right. right. now left. }
  split; [destruct signed; reflexivity|].
  split; [reflexivity|].
  split; [exact Hdir|].
  split; [reflexivity|].
  split; [destruct signed; reflexivity|].
  split; [apply Hnot; now left | apply Hnot; now right].
Qed.

Lemma glob_result_splits_backslash_name_witness :
  ~ returns_matched_files linux_x86_64 backslash_fs 1 5 (pathlib_from_str (cstr "d"))
      (cstr "a*") world0.
Proof.
  exact (proj2 (proj2 (proj2 (proj2 (proj2 (proj2 (proj2 (proj2 (proj2 (proj2 (proj2 (proj2
           (glob_result_splits_backslash_name linux_x86_64 eq_refl))))))))))))).
Defined.

(** C7: a root that does not denote an existing directory makes both
    [pathlib_glob] and [pathlib_rglob] return the empty collection with
    [pathlib_error] set to PATHLIB_NEXISTS, and no directory is opened. *)
Theorem glob_root_not_directory (pf : platform) (fs : filesystem) (fuel : nat)
        (path : Path) (pattern : list ascii) (w : world) :
  path_wf path ->
  ~ denotes_directory pf fs path ->
  exists w' evs,
    pathlib_glob pf fs fuel path pattern w = Some (paths_empty, w') /\
    pathlib_rglob pf fs fuel path pattern w = Some (paths_empty, w') /\
    pathlib_error w' = PATHLIB_NEXISTS /\
    calls w' = calls w ++ evs /\
    forall p, ~ In (EvOpendir p) evs.
Proof.
  intros Hwf Hnd. unfold pathlib_glob, pathlib_rglob, glob_with.
  pose proof (is_dir_total pf fs path (set_error PATHLIB_NONE w) Hwf) as Htot.
  destruct (pathlib_is_dir pf fs path (set_error PATHLIB_NONE w)) as [[r w1]|] eqn:Hdir;
    [|congruence].
  apply is_dir_post in Hdir.
  destruct Hdir as [(evs & Hcalls & Hstat) [[-> _] | (_ & Hd & _)]]; [|contradiction].
  simpl. exists (set_error PATHLIB_NEXISTS w1), evs.
  repeat split; try assumption.
  intros p. now apply stat_call_not_opendir.
Qed.

Lemma glob_root_not_directory_witness :
  exists w' evs,
    pathlib_glob linux_x86_64 demo_fs 5 (pathlib_from_str (cstr "file")) (cstr "*.txt") world0
    = Some (paths_empty, w') /\
    pathlib_rglob linux_x86_64 demo_fs 5 (pathlib_from_str (cstr "file")) (cstr "*.txt") world0
    = Some (paths_empty, w') /\
    pathlib_error w' = PATHLIB_NEXISTS /\
    calls w' = calls world0 ++ evs /\
    forall p, ~ In (EvOpendir p) evs.
Proof.
  apply (glob_root_not_directory linux_x86_64 demo_fs 5
           (pathlib_from_str (cstr "file")) (cstr "*.txt") world0).
  - vm_compute. discriminate.
  - intros (filename & Hrender & _ & Hstat).
    vm_compute in Hrender. injection Hrender as <-.
    vm_compute in Hstat. discriminate.
Defined.

(** C8 as stated fails: the Path parsed from [/tmp] holds an empty first
    segment. *)
Lemma from_str_empty_segment_counterexample :
  ~ proper_segments (pathlib_from_str (cstr "/tmp")).
Proof.
  intros Hproper.
  destruct (Hproper []) as [Hne _].
  - exists 0%N. split; reflexivity.
  - now apply Hne.
Qed.

(** C8, as amended: the Paths built by [pathlib_from_str] hold segments
    without separator (possibly empty ones); [pathlib_add_part] with a
    part that has no separator, [pathlib_copy], [pathlib_joinpath] and
    [pathlib_parent] keep it so; hence no segment held by such a Path
    contains [/] or [\]. *)
Theorem constructors_keep_segments_sep_free :
  (forall s, sep_free_path (pathlib_from_str s)) /\
  (forall path part path',
      pathlib_add_part path part = Some path' ->
      sep_free_path path -> sep_free part -> sep_free_path path') /\
  (forall path path', pathlib_copy path = Some path' -> sep_free_path path -> sep_free_path path') /\
  (forall path other path',
      pathlib_joinpath path other = Some path' ->
      sep_free_path path -> sep_free_path other -> sep_free_path path') /\
  (forall path path', pathlib_parent path = Some path' -> sep_free_path path -> sep_free_path path') /\
  (forall path seg c,
      sep_free_path path -> held path seg -> In c seg -> c <> "/"%char /\ c <> "\"%char).
Proof.
  split; [exact from_str_sep_free|].
  split; [exact add_part_sep_free|].
  split; [|split; [|split]].
  - unfold pathlib_copy. intros path path' Hcopy Hpath.
    destruct (segments path) as [segs|] eqn:Hsegs; [|discriminate].
    destruct (size path <=? capacity path)%N; [|discriminate].
    injection Hcopy as <-. unfold sep_free_path. simpl.
    eapply segments_sep_free; eassumption.
  - unfold pathlib_joinpath. intros path other path' Hjoin Hpath Hother.
    destruct (segments path) as [ps|] eqn:Hps; [|discriminate].
    destruct (segments other) as [qs|] eqn:Hqs; [|discriminate].
    destruct (add_parts _ ps) as [ret|] eqn:Hret; [|discriminate].
    eapply add_parts_sep_free; [eassumption| |].
    + eapply add_parts_sep_free; [eassumption|apply Forall_nil|].
      eapply segments_sep_free; eassumption.
    + eapply segments_sep_free; eassumption.
  - unfold pathlib_parent. intros path path' Hparent Hpath.
    destruct (size path =? 1)%N.
    { injection Hparent as <-. unfold sep_free_path. simpl.
      repeat constructor. }
    destruct (0 <? size path)%N.
    + destruct (segments path) as [segs|] eqn:Hsegs; [|discriminate].
      destruct (size path - 1 <=? capacity path)%N; [|discriminate].
      injection Hparent as <-. unfold sep_free_path. simpl.
      apply Forall_firstn. eapply segments_sep_free; eassumption.
    + injection Hparent as <-. constructor.
  - intros path seg c Hpath Hheld Hin.
    apply held_in in Hheld. unfold sep_free_path in Hpath.
    rewrite Forall_forall in Hpath. specialize (Hpath seg Hheld).
    unfold sep_free in Hpath. rewrite Forall_forall in Hpath. specialize (Hpath c Hin).
    unfold is_sep in Hpath. apply orb_false_iff in Hpath. destruct Hpath as [Hb Hs].
    split; intros ->; discriminate.
Qed.

Lemma constructors_keep_segments_sep_free_witness :
  exists path',
    pathlib_add_part (pathlib_from_str (cstr "usr/local")) (cstr "bin") = Some path' /\
    sep_free_path path'.
Proof.
  eexists. split; [vm_compute; reflexivity|].
  apply (proj1 (proj2 constructors_keep_segments_sep_free)
               (pathlib_from_str (cstr "usr/local")) (cstr "bin")).
  - vm_compute. reflexivity.
  - apply (proj1 constructors_keep_segments_sep_free).
  - repeat constructor.
Defined.

(** C9 as stated fails: a string of 65536 segments makes the
    [unsigned short] size of the Path wrap around to 0, and the Path
    renders to the empty string. *)
Lemma long_path_round_trip_counterexample :
  cstring long_path /\ no_empty_segment long_path = true /\
  single_separator_style long_path = true /\
  ~ round_trips long_path.
Proof.
  split; [vm_compute; reflexivity|].
  split; [vm_compute; reflexivity|].
  split; [vm_compute; reflexivity|].
  unfold round_trips. rewrite to_str_empty.
  - intros Heq.
    apply (f_equal (option_map (fun r : list ascii => N.of_nat (length r)))) in Heq.
    vm_compute in Heq. discriminate.
  - rewrite size_from_str.
    replace (count_seps long_path) with 65535%N by (vm_compute; reflexivity).
    reflexivity.
Qed.

(** C9, as amended: for every string of at most 65535 segments, rendering
    the Path parsed from it gives the string back with every [\] turned
    into [/]; a Path of size 0 renders to the empty string; and when the
    string has no empty segment the rendering is not empty and does not
    end in a separator. *)
Theorem parse_render_round_trip :
  (forall s, (count_seps s < 65535)%N -> round_trips s) /\
  (forall path, size path = 0%N -> pathlib_to_str path = Some []) /\
  (forall s r,
      (count_seps s < 65535)%N -> no_empty_segment s = true ->
      pathlib_to_str (pathlib_from_str s) = Some r ->
      r <> [] /\ last r NUL <> "/"%char).
Proof.
  split; [exact to_str_from_str|].
  split; [exact to_str_empty | exact to_str_no_trailing_sep].
Qed.

Lemma parse_render_round_trip_witness :
  (count_seps (cstr "usr\local\bin") < 65535)%N /\
  pathlib_to_str (pathlib_from_str (cstr "usr\local\bin")) = Some (cstr "usr/local/bin").
Proof.
  split; [vm_compute; reflexivity|].
  apply (proj1 parse_render_round_trip (cstr "usr\local\bin")).
  vm_compute. reflexivity.
Defined.


